(** * Symbolic shape analysis (torch/csrc/jit/passes/symbolic_shape_analysis.cpp)

    A shallow embedding of the symbolic shape analyzer of the TorchScript
    JIT, and the properties of it that the design document states.

    The file is organised as the C++ translation unit is:
    - the part of the JIT IR the analyzer talks to (values, nodes, blocks,
      use lists, constants), as an arena of nodes;
    - the store of graphs that [std::shared_ptr<Graph>] point into, and a
      small exception/state monad over it;
    - [normIndex], [replaceWithIValue], the [SymbolicShapeAnalyzer] struct
      with its methods, and the three entry points;
    - the theorems. *)

From Stdlib Require Import ZArith Lia.
From stdpp Require Import gmap strings list fin_maps.

Local Open Scope Z_scope.

(** ** Symbolic shapes and types *)

(** Modelled from the spec: [c10::SymbolicShape] is declared outside this
    translation unit.  A symbolic shape is an optional rank and, when the
    rank is known, one optional static size per dimension; the rank is the
    length of the dimension vector. *)
Definition SymbolicShape : Type := option (list (option Z)).

Definition rank (s : SymbolicShape) : option nat := length <$> s.

(** [ShapeSymbol::is_static] and [ShapeSymbol::static_size]. *)
Definition is_static (d : option Z) : bool := bool_decide (is_Some d).

(** [SymbolicShape::isComplete]: the rank and every dimension are known. *)
Definition isComplete (s : SymbolicShape) : bool :=
  match s with
  | Some ds => forallb is_static ds
  | None => false
  end.

(** The unranked constructor [c10::SymbolicShape()]. *)
Definition SymbolicShape_unranked : SymbolicShape := None.

(** [c10::SymbolicShape(c10::IntArrayRef)]. *)
Definition SymbolicShape_of_sizes (sizes : list Z) : SymbolicShape :=
  Some (Some <$> sizes).

(** [c10::SymbolicShape(const std::vector<c10::optional<int64_t>>&)]. *)
Definition SymbolicShape_of_dims (ds : list (option Z)) : SymbolicShape :=
  Some ds.

(** Modelled from the spec: [TensorType] carries the symbolic shape next to
    other information (element type, device, gradient flag), and
    [withSymbolicShapes] replaces the shape only. *)
Record TensorType : Type := mkTensorType {
  symbolic_sizes : SymbolicShape;
  scalar_type : option string;
  device : option string;
  requires_grad : option bool
}.

Definition withSymbolicShapes (tt : TensorType) (s : SymbolicShape) : TensorType :=
  {| symbolic_sizes := s;
     scalar_type := scalar_type tt;
     device := device tt;
     requires_grad := requires_grad tt |}.

(** [tt->sizes().concrete_sizes()]: the sizes as integers when all are known. *)
Definition concrete_sizes (tt : TensorType) : option (list Z) :=
  match symbolic_sizes tt with
  | Some ds => mapM id ds
  | None => None
  end.

Inductive JitType : Type :=
  | TensorT (tt : TensorType)
  | ListT (elem : JitType)
  | IntT
  | BoolT
  | StringT
  | NoneT.

(** [type->cast<ListType>() && ...->getElementType()->cast<TensorType>()] *)
Definition is_tensor_list (t : JitType) : bool :=
  match t with
  | ListT (TensorT _) => true
  | _ => false
  end.

(** [type->cast<ListType>() && ...->getElementType()->cast<IntType>()] *)
Definition is_int_list (t : JitType) : bool :=
  match t with
  | ListT IntT => true
  | _ => false
  end.

(** Constants of the IR. *)
Inductive IValue : Type :=
  | IV_None
  | IV_Bool (b : bool)
  | IV_Int (z : Z)
  | IV_IntList (l : list Z)
  | IV_String (s : string).

(** The type [insertConstant] gives to the value it creates. *)
Definition IValue_type (v : IValue) : JitType :=
  match v with
  | IV_None => NoneT
  | IV_Bool _ => BoolT
  | IV_Int _ => IntT
  | IV_IntList _ => ListT IntT
  | IV_String _ => StringT
  end.

(** ** The IR: an arena of nodes *)

Inductive NodeKind : Type :=
  | prim_Param
  | prim_Return
  | prim_Constant
  | prim_ListConstruct
  | prim_If
  | prim_Loop
  | aten_len
  | aten___getitem__
  | OtherKind (name : string).

#[global] Instance NodeKind_eq_dec : EqDecision NodeKind.
Proof. solve_decision. Defined.

(** A [Value*] is the unique number of the value inside its graph. *)
Abbreviation Value := nat (only parsing).

(** Modelled from the spec: the IR (nodes, values, blocks, uses) is declared
    outside this translation unit.  A node has an identity (its address), a
    kind, ordered inputs and outputs, the block that owns it (block [0] is
    the top-level block of the graph, other numbers are the bodies of
    control-flow nodes), the value attribute of a [prim::Constant], and the
    printed operator schema when it has one. *)
Record Node : Type := mkNode {
  node_id : nat;
  kind : NodeKind;
  inputs : list Value;
  outputs : list Value;
  owningBlock : nat;
  const_value : option IValue;
  maybeSchema : option string
}.

(** A graph: the parameter node and the return node of the top-level block
    (the graph inputs are the outputs of the former, the graph outputs the
    inputs of the latter), all other nodes in program order, the type of
    each value, and the counter for fresh names. *)
Record Graph : Type := mkGraph {
  param_node : Node;
  body : list Node;
  return_node : Node;
  value_types : gmap nat JitType;
  next_unique : nat
}.

Definition Graph_inputs (g : Graph) : list Value := outputs (param_node g).
Definition Graph_outputs (g : Graph) : list Value := inputs (return_node g).

(** [graph->nodes()]: the nodes of the top-level block, in order. *)
Definition Graph_nodes (g : Graph) : list Node :=
  filter (λ n, owningBlock n = 0%nat) (body g).

Definition all_nodes (g : Graph) : list Node :=
  param_node g :: body g ++ [return_node g].

Definition find_node (g : Graph) (id : nat) : option Node :=
  find (λ n, bool_decide (node_id n = id)) (all_nodes g).

(** [v->node()]: the node that produces [v]; graph inputs are produced by
    the parameter node. *)
Definition Value_node (g : Graph) (v : Value) : Node :=
  default (param_node g)
    (find (λ n, bool_decide (v ∈ outputs n)) (body g)).

(** [v->type()] *)
Definition Value_type (g : Graph) (v : Value) : JitType :=
  default NoneT (value_types g !! v).

Record Use : Type := mkUse { user : nat; offset : nat }.

#[global] Instance Use_eq_dec : EqDecision Use.
Proof. solve_decision. Defined.

(** The offsets at which [v] occurs in an input list. *)
Fixpoint offsets_of (v : Value) (ins : list Value) (from : nat) : list nat :=
  match ins with
  | [] => []
  | x :: rest =>
      if bool_decide (x = v) then from :: offsets_of v rest (S from)
      else offsets_of v rest (S from)
  end.

Definition node_uses (v : Value) (n : Node) : list Use :=
  mkUse (node_id n) <$> offsets_of v (inputs n) 0.

(** [v->uses()]: every (node, offset) at which [v] is an input; returning a
    value from a block is a use by the block's return node. *)
Definition Value_uses (g : Graph) (v : Value) : list Use :=
  concat (node_uses v <$> all_nodes g).

(** [toIValue(v)]: the constant behind [v], when a [prim::Constant] made it. *)
Definition toIValue (g : Graph) (v : Value) : option IValue :=
  let n := Value_node g v in
  if bool_decide (kind n = prim_Constant) then const_value n else None.

(** Modelled from the spec: [constant_as<int64_t>(v)] is the integer behind
    [v] when [v] is a constant integer, and nothing otherwise. *)
Definition constant_as_int (g : Graph) (v : Value) : option Z :=
  match toIValue g v with
  | Some (IV_Int z) => Some z
  | _ => None
  end.

Definition replace_value (old new : Value) (x : Value) : Value :=
  if bool_decide (x = old) then new else x.

Definition Node_replace_input (old new : Value) (n : Node) : Node :=
  {| node_id := node_id n; kind := kind n;
     inputs := replace_value old new <$> inputs n;
     outputs := outputs n; owningBlock := owningBlock n;
     const_value := const_value n; maybeSchema := maybeSchema n |}.

(** [old->replaceAllUsesWith(new)] *)
Definition replaceAllUsesWith (old new : Value) (g : Graph) : Graph :=
  {| param_node := Node_replace_input old new (param_node g);
     body := Node_replace_input old new <$> body g;
     return_node := Node_replace_input old new (return_node g);
     value_types := value_types g;
     next_unique := next_unique g |}.

(** [graph->insertConstant(val)] with the insertion point before the first
    node of block [b]: a new [prim::Constant] in front of the arena is the
    first node of its block.  Returns the new value. *)
Definition insertConstant (b : nat) (val : IValue) (g : Graph) : Value * Graph :=
  let u := next_unique g in
  let c := {| node_id := u; kind := prim_Constant; inputs := [];
              outputs := [u]; owningBlock := b;
              const_value := Some val; maybeSchema := None |} in
  (u, {| param_node := param_node g;
         body := c :: body g;
         return_node := return_node g;
         value_types := <[u := IValue_type val]> (value_types g);
         next_unique := S u |}).

(** [v->setType(t)] *)
Definition Value_setType (v : Value) (t : JitType) (g : Graph) : Graph :=
  {| param_node := param_node g; body := body g;
     return_node := return_node g;
     value_types := <[v := t]> (value_types g);
     next_unique := next_unique g |}.

(** [graph->copy()]: a new graph with the same contents. *)
Definition Graph_copy (g : Graph) : Graph := g.

(** ** [normIndex] *)

(** Conversion of an unsigned 64-bit result to [int64_t]. *)
Definition to_int64 (z : Z) : Z := (z + 2 ^ 63) mod 2 ^ 64 - 2 ^ 63.

(** [c10::optional<size_t> normIndex(int64_t index, size_t len)] *)
Definition normIndex (index : Z) (len : Z) : option Z :=
  let index := if index <? 0 then to_int64 (index + len) else index in
  if (0 <=? index) && (index <? to_int64 len) then Some index else None.

(** ** The store and the monad of the translation unit *)

(** A [std::shared_ptr<Graph>] is a location of the store. *)
Abbreviation loc := positive (only parsing).

(** The graphs alive in the process and the file-level table
    [operator_functions] (schema string to shape compute graph). *)
Record World : Type := mkWorld {
  heap : gmap positive Graph;
  operator_functions : gmap string positive
}.

(** What can be thrown. *)
Inductive Exn : Type :=
  | internal_assert_tensor_list   (* TORCH_INTERNAL_ASSERT(false), not handled yet *)
  | internal_assert_outputs       (* the two assertions of extractOutputShape *)
  | out_of_range                  (* std::vector::at *)
  | output_arity                  (* Node::output() on a node without exactly one output *)
  | expect_failed                 (* Type::expect<T>() on another type *)
  | bad_access                    (* empty optional, IValue of another tag *)
  | dangling.                     (* a pointer whose target is not in the store *)

#[global] Instance Exn_eq_dec : EqDecision Exn.
Proof. solve_decision. Defined.

Inductive Res (A : Type) : Type :=
  | Ok (a : A)
  | Throw (e : Exn).
Arguments Ok {A} a.
Arguments Throw {A} e.

(** A computation reads and writes the store and returns or throws; what
    was written before a throw stays written. *)
Definition M (A : Type) : Type := World → Res A * World.

#[global] Instance M_ret : MRet M := λ A a w, (Ok a, w).
#[global] Instance M_bind : MBind M := λ A B f m w,
  match m w with
  | (Ok a, w') => f a w'
  | (Throw e, w') => (Throw e, w')
  end.

Definition throw {A} (e : Exn) : M A := λ w, (Throw e, w).

Definition get_graph (l : loc) : M Graph := λ w,
  match heap w !! l with
  | Some g => (Ok g, w)
  | None => (Throw dangling, w)
  end.

Definition put_graph (l : loc) (g : Graph) : M unit := λ w,
  (Ok (), {| heap := <[l := g]> (heap w);
             operator_functions := operator_functions w |}).

(** [std::make_shared<Graph>]: a location no live graph has. *)
Definition new_graph (g : Graph) : M loc := λ w,
  let l := fresh (dom (heap w)) in
  (Ok l, {| heap := <[l := g]> (heap w);
            operator_functions := operator_functions w |}).

(** The last [shared_ptr] to the graph goes away. *)
Definition delete_graph (l : loc) : M unit := λ w,
  (Ok (), {| heap := delete l (heap w);
             operator_functions := operator_functions w |}).

(** Run [m], then [cleanup] whether [m] returned or threw (a destructor). *)
Definition finally {A} (m : M A) (cleanup : M unit) : M A := λ w,
  match m w with
  | (r, w') => (r, snd (cleanup w'))
  end.

(** Run [cleanup] when [m] throws (unwinding), and rethrow. *)
Definition on_throw {A} (m : M A) (cleanup : M unit) : M A := λ w,
  match m w with
  | (Ok a, w') => (Ok a, w')
  | (Throw e, w') => (Throw e, snd (cleanup w'))
  end.

(** The table [operator_functions]. *)
Definition get_operator_functions : M (gmap string positive) := λ w,
  (Ok (operator_functions w), w).

Definition set_operator_function (schema : string) (graph : loc) : M unit := λ w,
  (Ok (), {| heap := heap w;
             operator_functions := <[schema := graph]> (operator_functions w) |}).

(** [vec.at(i)] *)
Definition vector_at {A} (vec : list A) (i : nat) : M A :=
  match vec !! i with
  | Some x => mret x
  | None => throw out_of_range
  end.

(** [for (auto x : xs) body(x);] *)
Fixpoint for_each {A} (xs : list A) (body : A → M unit) : M unit :=
  match xs with
  | [] => mret ()
  | x :: rest => body x;; for_each rest body
  end.

(** A loop that carries a local variable. *)
Fixpoint for_fold {A S} (xs : list A) (s : S) (body : A → S → M S) : M S :=
  match xs with
  | [] => mret s
  | x :: rest => s' ← body x s; for_fold rest s' body
  end.

(** A [Node*] and a [Value*]: the owning graph and the name in it. *)
Abbreviation NodePtr := (positive * nat)%type (only parsing).
Abbreviation ValuePtr := (positive * nat)%type (only parsing).

Definition Node_deref (n : NodePtr) : M Node :=
  g ← get_graph n.1;
  match find_node g n.2 with
  | Some node => mret node
  | None => throw dangling
  end.

(** [n->input(i)] *)
Definition Node_input (n : NodePtr) (i : nat) : M ValuePtr :=
  node ← Node_deref n;
  v ← vector_at (inputs node) i;
  mret (n.1, v).

(** [n->output()]: the node must have exactly one output. *)
Definition Node_output (n : NodePtr) : M ValuePtr :=
  node ← Node_deref n;
  match outputs node with
  | [v] => mret (n.1, v)
  | _ => throw output_arity
  end.

(** [v->type()] *)
Definition type_of (v : ValuePtr) : M JitType :=
  g ← get_graph v.1; mret (Value_type g v.2).

(** [type->expect<TensorType>()] *)
Definition expect_TensorType (t : JitType) : M TensorType :=
  match t with
  | TensorT t => mret t
  | _ => throw expect_failed
  end.

(** [*opt] *)
Definition value_of {A} (opt : option A) : M A :=
  match opt with
  | Some a => mret a
  | None => throw bad_access
  end.

(** [graph->inputs().at(i)] *)
Definition Graph_input_at (graph : loc) (i : nat) : M ValuePtr :=
  g ← get_graph graph;
  v ← vector_at (Graph_inputs g) i;
  mret (graph, v).

(** ** [replaceWithIValue] *)

Definition replaceWithIValue (v : ValuePtr) (val : IValue) : M unit :=
  g ← get_graph v.1;
  let b := owningBlock (Value_node g v.2) in
  let (c, g') := insertConstant b val g in
  put_graph v.1 (replaceAllUsesWith v.2 c g').

(** ** The external passes *)

(** The simplification passes are other translation units; each rewrites
    the graph it is given in place. *)
Class Passes : Type := {
  LowerSimpleTuples : Graph → Graph;
  RemoveListMutation : Graph → Graph;
  UnrollConstantLoops : Graph → Graph;
  ConstantPropagation : Graph → Graph;
  PeepholeOptimize : Graph → Graph;
  ConstantPooling : Graph → Graph;
  EliminateDeadCode : Graph → Graph
}.

Definition run_pass (pass : Graph → Graph) (graph : loc) : M unit :=
  g ← get_graph graph; put_graph graph (pass g).

(** ** [struct SymbolicShapeAnalyzer] *)

Record SymbolicShapeAnalyzer : Type := mkAnalyzer {
  node_input_tensor_indices : list nat;
  graph_ : positive;
  node_ : positive * nat
}.

(** The body of the constructor's loop for position [i]; [indices] is the
    member [node_input_tensor_indices] built so far. *)
Definition specialize_input (graph_ : loc) (node_ : NodePtr)
    (i : nat) (indices : list nat) : M (list nat) :=
  v ← Node_input node_ i;
  type ← type_of v;
  match type with
  | TensorT ttype =>
      let symbolic_shapes := symbolic_sizes ttype in
      if isComplete symbolic_shapes then
        gi ← Graph_input_at graph_ i;
        sizes ← value_of (concrete_sizes ttype);
        replaceWithIValue gi (IV_IntList sizes);;
        mret indices
      else if bool_decide (is_Some (rank symbolic_shapes)) then
        mret (indices ++ [i])
      else mret indices
  | _ =>
      if is_tensor_list type then throw internal_assert_tensor_list
      else
        g ← get_graph v.1;
        match toIValue g v.2 with
        | Some ival =>
            gi ← Graph_input_at graph_ i;
            replaceWithIValue gi ival;;
            mret indices
        | None => mret indices
        end
  end.

(** The constructor: [graph_] is a copy of the shape compute graph.  When
    the body throws, the members built so far are destroyed. *)
Definition SymbolicShapeAnalyzer_new (n : NodePtr) (shape_compute_graph : loc)
    : M SymbolicShapeAnalyzer :=
  scg ← get_graph shape_compute_graph;
  graph_ ← new_graph (Graph_copy scg);
  on_throw
    (node ← Node_deref n;
     indices ← for_fold (seq 0 (length (inputs node))) []
                        (specialize_input graph_ n);
     mret {| node_input_tensor_indices := indices;
             graph_ := graph_; node_ := n |})
    (delete_graph graph_).

(** The destructor releases [graph_]. *)
Definition SymbolicShapeAnalyzer_delete (self : SymbolicShapeAnalyzer) : M unit :=
  delete_graph (graph_ self).

(** The body of the loop of [substituteTensorProperties] for one use. *)
Definition substitute_use (self : SymbolicShapeAnalyzer)
    (ds : list (option Z)) (use : Use) : M unit :=
  let use_user := (graph_ self, user use) in
  node ← Node_deref use_user;
  match kind node with
  | aten_len =>
      let len := Z.of_nat (length ds) in
      out ← Node_output use_user;
      replaceWithIValue out (IV_Int (to_int64 len))
  | aten___getitem__ =>
      iv ← vector_at (inputs node) 1;
      g ← get_graph (graph_ self);
      match constant_as_int g iv with
      | Some index =>
          match normIndex index (Z.of_nat (length ds)) with
          | Some norm_index =>
              d ← vector_at ds (Z.to_nat norm_index);
              match d with
              | Some static_size =>
                  out ← Node_output use_user;
                  replaceWithIValue out (IV_Int static_size)
              | None => mret ()
              end
          | None => mret ()
          end
      | None => mret ()
      end
  | _ => mret ()
  end.

Definition substituteTensorProperties (self : SymbolicShapeAnalyzer)
    (node_input_tensor_index : nat) : M unit :=
  node_tensor_index_value ← Node_input (node_ self) node_input_tensor_index;
  type ← type_of node_tensor_index_value;
  ttype ← expect_TensorType type;
  match symbolic_sizes ttype with
  | None => mret ()
  | Some ds =>
      gi ← Graph_input_at (graph_ self) node_input_tensor_index;
      g ← get_graph (graph_ self);
      for_each (Value_uses g gi.2) (substitute_use self ds)
  end.

Definition substituteInputTensorProperties (self : SymbolicShapeAnalyzer) : M unit :=
  for_each (node_input_tensor_indices self) (substituteTensorProperties self).

Definition extractOutputShape (self : SymbolicShapeAnalyzer) : M SymbolicShape :=
  g ← get_graph (graph_ self);
  if negb (bool_decide (length (Graph_outputs g) = 1%nat)) then
    throw internal_assert_outputs
  else
    output ← vector_at (Graph_outputs g) 0;
    if negb (is_int_list (Value_type g output)) then
      throw internal_assert_outputs
    else if bool_decide (kind (Value_node g output) = prim_Constant) then
      match toIValue g output with
      | Some (IV_IntList int_list) => mret (SymbolicShape_of_sizes int_list)
      | _ => throw bad_access
      end
    else if bool_decide (kind (Value_node g output) ≠ prim_ListConstruct)
            || negb (bool_decide (length (Value_uses g output) = 1%nat)) then
      mret SymbolicShape_unranked
    else
      let list_construct := Value_node g output in
      mret (SymbolicShape_of_dims (constant_as_int g <$> inputs list_construct)).

Definition num_optimization_iters : nat := 6.

Definition run `{Passes} (self : SymbolicShapeAnalyzer) : M SymbolicShape :=
  for_each (seq 0 num_optimization_iters) (λ _,
    substituteInputTensorProperties self;;
    run_pass LowerSimpleTuples (graph_ self);;
    run_pass RemoveListMutation (graph_ self);;
    run_pass UnrollConstantLoops (graph_ self);;
    run_pass ConstantPropagation (graph_ self);;
    run_pass PeepholeOptimize (graph_ self);;
    run_pass ConstantPropagation (graph_ self));;
  run_pass ConstantPooling (graph_ self);;
  run_pass EliminateDeadCode (graph_ self);;
  extractOutputShape self.

(** [SymbolicShapeAnalyzer(n, shape_compute_graph).run()]: the temporary
    lives until the end of the full expression. *)
Definition analyze `{Passes} (n : NodePtr) (shape_compute_graph : loc) : M SymbolicShape :=
  self ← SymbolicShapeAnalyzer_new n shape_compute_graph;
  finally (run self) (SymbolicShapeAnalyzer_delete self).

(** ** The entry points *)

Definition PropagateShapesWithShapeFunction `{Passes}
    (n : NodePtr) (shape_compute_graph : loc) : M unit :=
  out ← analyze n shape_compute_graph;
  o ← Node_output n;
  type ← type_of o;
  ttype ← expect_TensorType type;
  g ← get_graph o.1;
  put_graph o.1 (Value_setType o.2 (TensorT (withSymbolicShapes ttype out)) g).

Definition RegisterOperatorShapeFunction (n : NodePtr) (graph : loc) : M unit :=
  node ← Node_deref n;
  match maybeSchema node with
  | None => mret ()
  | Some schema =>
      table ← get_operator_functions;
      if bool_decide (is_Some (table !! schema)) then mret ()
      else set_operator_function schema graph
  end.

(** The body of the loop of [PropagateShapesOnGraph] for the node [n]. *)
Definition propagate_node `{Passes} (graph : loc) (n : Node) : M unit :=
  match maybeSchema n with
  | None => mret ()
  | Some schema =>
      table ← get_operator_functions;
      match table !! schema with
      | Some shape_compute_graph =>
          PropagateShapesWithShapeFunction (graph, node_id n) shape_compute_graph
      | None => mret ()
      end
  end.

Definition PropagateShapesOnGraph `{Passes} (graph : loc) : M unit :=
  g ← get_graph graph;
  for_each (Graph_nodes g) (propagate_node graph).

(** * Definitions used in the statements *)

(** ** Writes to one graph *)

(** The store [w] with [g] at [l]. *)
Definition set_graph (l : loc) (g : Graph) (w : World) : World :=
  {| heap := <[l := g]> (heap w); operator_functions := operator_functions w |}.

(** [local l m]: started in a store where [l] is live, [m] changes at most
    the graph at [l]; nothing else in the store and not the table. *)
Definition local {A} (l : loc) (m : M A) : Prop :=
  ∀ w g, heap w !! l = Some g → ∃ r g', m w = (r, set_graph l g' w).

(** [local] with what is known about the value returned. *)
Definition local_post {A} (l : loc) (m : M A) (Q : A → Prop) : Prop :=
  ∀ w g, heap w !! l = Some g →
    ∃ r g', m w = (r, set_graph l g' w) ∧ ∀ a, r = Ok a → Q a.

(** ** Replacement by a constant and well-formed programs *)

(** The graph after [replaceWithIValue(v, val)]. *)
Definition replace_by_constant (v : Value) (val : IValue) (g : Graph) : Graph :=
  let (c, g') := insertConstant (owningBlock (Value_node g v)) val g in
  replaceAllUsesWith v c g'.

(** Names are handed out in increasing order: every value a node reads or
    defines is below the counter of its graph. *)
Definition names_below (g : Graph) (n : Node) : bool :=
  forallb (λ x, x <? next_unique g)%nat (inputs n ++ outputs n).

(** The operator schemas the analyzer relies on: [aten::len] and
    [aten::__getitem__] define one value, the latter reads two; a constant
    defines one value, of the type of its attribute. *)
Definition schema_ok (g : Graph) (n : Node) : bool :=
  match kind n with
  | aten_len => bool_decide (length (outputs n) = 1%nat)
  | aten___getitem__ =>
      bool_decide (length (outputs n) = 1%nat) && bool_decide (2 ≤ length (inputs n))%nat
  | prim_Constant =>
      match const_value n, outputs n with
      | Some val, [o] => bool_decide (is_int_list (Value_type g o) = is_int_list (IValue_type val))
      | _, _ => false
      end
  | _ => true
  end.

(** A well-formed program: the parameter node is one, and every node
    respects the naming order and its schema. *)
Definition Graph_wf (g : Graph) : bool :=
  bool_decide (kind (param_node g) = prim_Param)
  && forallb (λ n, names_below g n && schema_ok g n) (all_nodes g).

(** [v] was replaced by the constant [val]: [v] has no use left, a constant
    [val] is used exactly where [v] was, and the use lists of all other
    values are as before. *)
Definition replaced_by_constant (g g' : Graph) (v : Value) (val : IValue) : Prop :=
  Value_uses g' v = [] ∧
  ∃ c, toIValue g' c = Some val ∧
       Value_uses g' c = Value_uses g v ∧
       ∀ x, x ≠ v → x ≠ c → Value_uses g' x = Value_uses g x.

(** ** Inputs of the analysed node *)

(** A tracked input: a tensor of known rank whose shape is not complete. *)
Definition is_tracked (tg : Graph) (v : Value) : bool :=
  match Value_type tg v with
  | TensorT ttype =>
      negb (isComplete (symbolic_sizes ttype))
      && bool_decide (is_Some (rank (symbolic_sizes ttype)))
  | _ => false
  end.

(** The input at position [i] of the node is tracked. *)
Definition tracked_at (tg : Graph) (tnode : Node) (i : nat) : bool :=
  match inputs tnode !! i with
  | Some v => is_tracked tg v
  | None => false
  end.

(** ** Rounds of the driver *)

(** The six passes of a round, in the order they are applied. *)
Definition simplify_passes `{Passes} (g : Graph) : Graph :=
  ConstantPropagation
    (PeepholeOptimize
       (ConstantPropagation
          (UnrollConstantLoops
             (RemoveListMutation
                (LowerSimpleTuples g))))).

(** One round takes the analyzer's program from [g] to [g']: property
    substitution for every tracked index, in order, then the six passes. *)
Definition round `{Passes} (self : SymbolicShapeAnalyzer) (w : World)
    (g g' : Graph) : Prop :=
  ∃ gs,
    for_each (node_input_tensor_indices self) (substituteTensorProperties self)
             (set_graph (graph_ self) g w)
    = (Ok (), set_graph (graph_ self) gs w)
    ∧ g' = simplify_passes gs.

(** [k] rounds in a row. *)
Fixpoint rounds `{Passes} (k : nat) (self : SymbolicShapeAnalyzer) (w : World)
    (g g' : Graph) : Prop :=
  match k with
  | O => g' = g
  | S k => ∃ g1, round self w g g1 ∧ rounds k self w g1 g'
  end.

(** The body of the loop of [run]. *)
Definition run_round `{Passes} (self : SymbolicShapeAnalyzer) : M unit :=
  substituteInputTensorProperties self;;
  run_pass LowerSimpleTuples (graph_ self);;
  run_pass RemoveListMutation (graph_ self);;
  run_pass UnrollConstantLoops (graph_ self);;
  run_pass ConstantPropagation (graph_ self);;
  run_pass PeepholeOptimize (graph_ self);;
  run_pass ConstantPropagation (graph_ self).

(** ** What propagation changes *)

(** A registered node: it has a schema and the table has an entry for it. *)
Definition registered (w : World) (n : Node) : option positive :=
  schema ← maybeSchema n; operator_functions w !! schema.

(** [g'] has the nodes of [g]; only types of values may differ. *)
Definition same_nodes (g g' : Graph) : Prop :=
  param_node g' = param_node g ∧ body g' = body g ∧
  return_node g' = return_node g ∧ next_unique g' = next_unique g.

(** The type of [v] in [g'] is its type in [g] with another shape, and [v]
    is the one output of a registered node of the top-level block. *)
Definition shape_written (w : World) (g g' : Graph) (v : Value) : Prop :=
  ∃ n node scg ttype shape,
    n ∈ Graph_nodes g ∧ registered w n = Some scg ∧
    find_node g (node_id n) = Some node ∧ outputs node = [v] ∧
    Value_type g v = TensorT ttype ∧
    Value_type g' v = TensorT (withSymbolicShapes ttype shape).

(** What propagation over the graph at [graph], started in [w] with the
    graph [g], may have changed when the store is [w']. *)
Definition propagated (graph : loc) (w w' : World) (g : Graph) : Prop :=
  operator_functions w' = operator_functions w ∧
  (∀ l, l ≠ graph → heap w' !! l = heap w !! l) ∧
  ∃ g', heap w' !! graph = Some g' ∧ same_nodes g g' ∧
        ∀ v, Value_type g' v = Value_type g v ∨ shape_written w g g' v.

(** ** Instances of the passes and example graphs *)

(** No simplification at all: every pass returns the graph it is given. *)
Definition no_passes : Passes :=
  {| LowerSimpleTuples := id; RemoveListMutation := id;
     UnrollConstantLoops := id; ConstantPropagation := id;
     PeepholeOptimize := id; ConstantPooling := id; EliminateDeadCode := id |}.





(** ** Conditions under which the analysis returns *)

(** What the analysis needs of its private program: it is well formed and
    has a program input for each of the [N] inputs of the node. *)
Definition analysis_inv (N : nat) (g : Graph) : Prop :=
  Graph_wf g = true ∧ (N ≤ length (Graph_inputs g))%nat.

(** The input at position [i] of the node is a list of tensors. *)
Definition tensor_list_at (tg : Graph) (tnode : Node) (i : nat) : bool :=
  match inputs tnode !! i with
  | Some v => is_tensor_list (Value_type tg v)
  | None => false
  end.

(** The precondition of output extraction: one output, of integer-list
    type. *)
Definition output_ok (g : Graph) : bool :=
  match Graph_outputs g with
  | [output] => is_int_list (Value_type g output)
  | _ => false
  end.

(** What the analysis assumes of a pass: it keeps a program well formed
    and does not change the number of program inputs. *)
Definition preserves_wf (pass : Graph → Graph) : Prop :=
  ∀ g, Graph_wf g = true →
    Graph_wf (pass g) = true ∧
    length (Graph_inputs (pass g)) = length (Graph_inputs g).

(** All seven passes do. *)
Definition passes_well_behaved `{Passes} : Prop :=
  preserves_wf LowerSimpleTuples ∧ preserves_wf RemoveListMutation ∧
  preserves_wf UnrollConstantLoops ∧ preserves_wf ConstantPropagation ∧
  preserves_wf PeepholeOptimize ∧ preserves_wf ConstantPooling ∧
  preserves_wf EliminateDeadCode.

(** A graph with one operator [y = aten::foo(x)], where [x] is a tensor of
    rank 4 whose last two sizes, 5 and 7, are known. *)
Definition example_graph : Graph :=
  {| param_node := mkNode 100 prim_Param [] [0%nat] 0 None None;
     body :=
       [ mkNode 1 (OtherKind "aten::foo") [0%nat] [1%nat] 0 None
                (Some "aten::foo(Tensor x) -> Tensor") ];
     return_node := mkNode 101 prim_Return [1%nat] [] 0 None None;
     value_types :=
       {[ 0%nat := TensorT (mkTensorType (Some [None; None; Some 5; Some 7])
                                         (Some "Float") None None);
          1%nat := TensorT (mkTensorType None (Some "Float") None None) ]};
     next_unique := 102 |}.

(** The operator of the example graph. *)
Definition example_node : Node :=
  mkNode 1 (OtherKind "aten::foo") [0%nat] [1%nat] 0 None
         (Some "aten::foo(Tensor x) -> Tensor").

(** A [prim::Constant] of integer value [z]. *)
Definition int_constant (id : nat) (z : Z) : Node :=
  mkNode id prim_Constant [] [id] 0 (Some (IV_Int z)) None.

(** The shape program [n = len(x); return [1, 2, x[2] + 1, x[3]]]. *)
Definition example_shape_program : Graph :=
  {| param_node := mkNode 100 prim_Param [] [0%nat] 0 None None;
     body :=
       [ int_constant 1 1; int_constant 2 2; int_constant 3 2;
         mkNode 4 aten___getitem__ [0; 3]%nat [4%nat] 0 None None;
         int_constant 5 1;
         mkNode 6 (OtherKind "aten::add") [4; 5]%nat [6%nat] 0 None None;
         int_constant 7 3;
         mkNode 8 aten___getitem__ [0; 7]%nat [8%nat] 0 None None;
         mkNode 9 prim_ListConstruct [1; 2; 6; 8]%nat [9%nat] 0 None None;
         mkNode 10 aten_len [0%nat] [10%nat] 0 None None ];
     return_node := mkNode 101 prim_Return [9%nat] [] 0 None None;
     value_types :=
       {[ 0%nat := ListT IntT; 1%nat := IntT; 2%nat := IntT; 3%nat := IntT;
          4%nat := IntT; 5%nat := IntT; 6%nat := IntT; 7%nat := IntT;
          8%nat := IntT; 9%nat := ListT IntT; 10%nat := IntT ]};
     next_unique := 102 |}.

(** The example graph at location 1, its shape program at location 2. *)
Definition example_world : World :=
  {| heap := {[ 1%positive := example_graph; 2%positive := example_shape_program ]};
     operator_functions := {[ "aten::foo(Tensor x) -> Tensor" := 2%positive ]} |}.

(** An analyzer working in place on the program at location 2. *)
Definition example_analyzer : SymbolicShapeAnalyzer :=
  {| node_input_tensor_indices := [0%nat]; graph_ := 2%positive;
     node_ := (1%positive, 1%nat) |}.

(** The shape of the input of the example operator. *)
Definition example_dims : list (option Z) := [None; None; Some 5; Some 7].

(** The type of the input of the example operator. *)
Definition example_tensor : TensorType :=
  mkTensorType (Some example_dims) (Some "Float") None None.


(** A constant propagation that folds [aten::add] of two constant
    integers, enough to simplify the example. *)
Definition fold_add (g : Graph) (n : Node) : Node :=
  match kind n, inputs n with
  | OtherKind name, [a; b] =>
      if String.eqb name "aten::add" then
        match constant_as_int g a, constant_as_int g b with
        | Some x, Some y =>
            {| node_id := node_id n; kind := prim_Constant; inputs := [];
               outputs := outputs n; owningBlock := owningBlock n;
               const_value := Some (IV_Int (x + y)); maybeSchema := None |}
        | _, _ => n
        end
      else n
  | _, _ => n
  end.

(** The pass: fold every node. *)
Definition fold_adds (g : Graph) : Graph :=
  {| param_node := param_node g; body := fold_add g <$> body g;
     return_node := return_node g; value_types := value_types g;
     next_unique := next_unique g |}.

(** The passes with that constant propagation and nothing else. *)
Definition folding_passes : Passes :=
  {| LowerSimpleTuples := id; RemoveListMutation := id;
     UnrollConstantLoops := id; ConstantPropagation := fold_adds;
     PeepholeOptimize := id; ConstantPooling := id; EliminateDeadCode := id |}.

(** The example program with a second consumer of the list it returns. *)
Definition example_shape_program_reused : Graph :=
  {| param_node := param_node example_shape_program;
     body := body example_shape_program
             ++ [mkNode 11 aten_len [9%nat] [11%nat] 0 None None];
     return_node := return_node example_shape_program;
     value_types := <[11%nat := IntT]> (value_types example_shape_program);
     next_unique := next_unique example_shape_program |}.

(** The example world with that program. *)
Definition example_world_reused : World :=
  {| heap := {[ 1%positive := example_graph;
                2%positive := example_shape_program_reused ]};
     operator_functions := {[ "aten::foo(Tensor x) -> Tensor" := 2%positive ]} |}.

(** The example graph with an operator that takes a list of tensors. *)
Definition tensor_list_graph : Graph :=
  {| param_node := param_node example_graph;
     body := body example_graph;
     return_node := return_node example_graph;
     value_types :=
       <[0%nat := ListT (TensorT example_tensor)]> (value_types example_graph);
     next_unique := next_unique example_graph |}.

(** The example program returning its list twice. *)
Definition two_output_shape_program : Graph :=
  {| param_node := param_node example_shape_program;
     body := body example_shape_program;
     return_node := mkNode 101 prim_Return [9; 9]%nat [] 0 None None;
     value_types := value_types example_shape_program;
     next_unique := next_unique example_shape_program |}.

(** ** Worlds for the further properties *)

(** The example graph and its shape program with nothing registered. *)
Definition example_world_unregistered : World :=
  {| heap := heap example_world; operator_functions := ∅ |}.

(** The graph whose operator takes a list of tensors, with the example
    shape program registered for the operator. *)
Definition tensor_list_world : World :=
  {| heap := {[ 1%positive := tensor_list_graph;
                2%positive := example_shape_program ]};
     operator_functions := {[ "aten::foo(Tensor x) -> Tensor" := 2%positive ]} |}.

(** ** Programs in static single assignment form *)

(** The identities of the nodes are below the counter of the graph. *)
Definition ids_below (g : Graph) : bool :=
  forallb (λ n, node_id n <? next_unique g)%nat (all_nodes g).

(** No value is defined twice. *)
Definition outputs_unique (g : Graph) : bool :=
  bool_decide (NoDup (concat (outputs <$> all_nodes g))).

(** A well-formed program in which, as in the IR, nodes have distinct
    addresses handed out in order and every value has one definition. *)
Definition program_ok (g : Graph) : Prop :=
  Graph_wf g = true ∧ ids_below g = true ∧ outputs_unique g = true.

(** [g'] is [g] after replacements by constants: the same program inputs
    and as many outputs, every node still there under its identity with its
    kind, its outputs, its block and as many inputs, the old values with
    their types and their constants, and no new use of a value that had
    none. *)
Definition grows (g g' : Graph) : Prop :=
  Graph_inputs g' = Graph_inputs g ∧
  length (Graph_outputs g') = length (Graph_outputs g) ∧
  (next_unique g ≤ next_unique g')%nat ∧
  (∀ id node, find_node g id = Some node →
     ∃ node', find_node g' id = Some node' ∧ kind node' = kind node ∧
       outputs node' = outputs node ∧ owningBlock node' = owningBlock node ∧
       length (inputs node') = length (inputs node)) ∧
  (∀ x, (x < next_unique g)%nat →
     Value_type g' x = Value_type g x ∧ toIValue g' x = toIValue g x) ∧
  (∀ x, (x < next_unique g)%nat → Value_uses g x = [] → Value_uses g' x = []).

(** ** What property substitution leaves behind *)

(** The integer [substituteTensorProperties] puts in place of the result of
    a user [node] of a tensor of dimensions [ds], read in program [g]: the
    rank for [aten::len], the static size at a constant index in range for
    [aten::__getitem__], nothing otherwise. *)
Definition substituted_value (g : Graph) (ds : list (option Z)) (node : Node)
    : option Z :=
  match kind node with
  | aten_len => Some (to_int64 (Z.of_nat (length ds)))
  | aten___getitem__ =>
      match inputs node !! 1%nat with
      | Some iv =>
          match constant_as_int g iv with
          | Some index =>
              match normIndex index (Z.of_nat (length ds)) with
              | Some norm_index =>
                  match ds !! Z.to_nat norm_index with
                  | Some (Some static_size) => Some static_size
                  | _ => None
                  end
              | None => None
              end
          | None => None
          end
      | None => None
      end
  | _ => None
  end.

(** From [g] to [g'] the value [out] was given up for the constant [val]:
    [out] has no use left in [g'], and wherever [g] used [out], [g'] uses a
    constant [val]. *)
Definition substituted (g g' : Graph) (out : Value) (val : IValue) : Prop :=
  Value_uses g' out = [] ∧
  ∀ use, use ∈ Value_uses g out →
    ∃ c, toIValue g' c = Some val ∧ use ∈ Value_uses g' c.

(** The invariant of the loop of [substituteTensorProperties] over the uses
    of a tensor of dimensions [ds], between the program [g0] it starts from
    and the current program [gc]: constant indices stay constant, and a value
    of [g0] either has the uses it had or was given up for a constant, the
    one [g0] prescribes if it prescribes one. *)
Definition substitution_inv (ds : list (option Z)) (g0 gc : Graph) : Prop :=
  program_ok gc ∧ grows g0 gc ∧
  (∀ id node iv k,
     find_node g0 id = Some node → inputs node !! 1%nat = Some iv →
     constant_as_int g0 iv = Some k →
     ∃ node' iv', find_node gc id = Some node' ∧
       inputs node' !! 1%nat = Some iv' ∧ constant_as_int gc iv' = Some k) ∧
  (∀ y, (y < next_unique g0)%nat →
     Value_uses gc y = Value_uses g0 y ∨
     (Value_uses gc y = [] ∧
      ∃ z c, (c < next_unique gc)%nat ∧ toIValue gc c = Some (IV_Int z) ∧
        Value_uses gc c = Value_uses g0 y ∧
        ∀ id node z0, find_node g0 id = Some node → y ∈ outputs node →
          substituted_value g0 ds node = Some z0 → z = z0)).

(** ** What the constructor leaves behind *)

(** The constant the constructor puts in place of program input [i]: the
    list of sizes when input [i] of the node is a tensor of complete shape,
    its value when it is a known constant that is neither a tensor nor a
    list of tensors, nothing otherwise. *)
Definition specialized_value (tg : Graph) (tnode : Node) (i : nat)
    : option IValue :=
  match inputs tnode !! i with
  | Some tv =>
      match Value_type tg tv with
      | TensorT ttype =>
          if isComplete (symbolic_sizes ttype)
          then IV_IntList <$> concrete_sizes ttype
          else None
      | type => if is_tensor_list type then None else toIValue tg tv
      end
  | None => None
  end.

(** The invariant of the loop of the constructor, between the shape compute
    graph [sg] and the current program [gc]: a program input either has the
    uses it had or was given up for the constant of its position. *)
Definition specialization_inv (tg : Graph) (tnode : Node) (sg gc : Graph) : Prop :=
  program_ok gc ∧ grows sg gc ∧
  ∀ j x, Graph_inputs sg !! j = Some x →
    Value_uses gc x = Value_uses sg x ∨
    (Value_uses gc x = [] ∧
     ∃ c val, specialized_value tg tnode j = Some val ∧
       (next_unique sg ≤ c < next_unique gc)%nat ∧
       toIValue gc c = Some val ∧ Value_uses gc c = Value_uses sg x).

(** A shape program without inputs. *)
Definition no_input_shape_program : Graph :=
  {| param_node := mkNode 100 prim_Param [] [] 0 None None;
     body := [ int_constant 1 1;
               mkNode 2 prim_ListConstruct [1%nat] [2%nat] 0 None None ];
     return_node := mkNode 101 prim_Return [2%nat] [] 0 None None;
     value_types := {[ 1%nat := IntT; 2%nat := ListT IntT ]};
     next_unique := 102 |}.

(** The example graph with that program. *)
Definition no_input_world : World :=
  {| heap := {[ 1%positive := example_graph;
                2%positive := no_input_shape_program ]};
     operator_functions := ∅ |}.

(** ** Passes that leave a trace *)

(** A pass that only puts the constant [k] in front of the program. *)
Definition mark (k : Z) (g : Graph) : Graph := (insertConstant 0 (IV_Int k) g).2.

(** Passes that record the order in which they are applied: each puts a
    constant of its own number in front of the program. *)
Definition tracing_passes : Passes :=
  {| LowerSimpleTuples := mark 1; RemoveListMutation := mark 2;
     UnrollConstantLoops := mark 3; ConstantPropagation := mark 4;
     PeepholeOptimize := mark 5; ConstantPooling := mark 6;
     EliminateDeadCode := mark 7 |}.

(** The example program after property substitution for the input of the
    example operator: [x[2]] is 5, [x[3]] is 7 and [len(x)] is 4. *)
Definition example_shape_program_substituted : Graph :=
  replace_by_constant 10 (IV_Int 4)
    (replace_by_constant 8 (IV_Int 7)
       (replace_by_constant 4 (IV_Int 5) example_shape_program)).

(** ** An operator with a known and a partly known input *)

(** A graph whose operator takes a tensor of shape [[2, 3]] and a tensor of
    rank 2 whose first dimension is not known. *)
Definition two_input_graph : Graph :=
  {| param_node := mkNode 100 prim_Param [] [0; 1]%nat 0 None None;
     body :=
       [ mkNode 1 (OtherKind "aten::bar") [0; 1]%nat [2%nat] 0 None
                (Some "aten::bar(Tensor x, Tensor y) -> Tensor") ];
     return_node := mkNode 101 prim_Return [2%nat] [] 0 None None;
     value_types :=
       {[ 0%nat := TensorT (mkTensorType (Some [Some 2; Some 3])
                                         (Some "Float") None None);
          1%nat := TensorT (mkTensorType (Some [None; Some 5])
                                         (Some "Float") None None);
          2%nat := TensorT (mkTensorType None (Some "Float") None None) ]};
     next_unique := 102 |}.

(** Its operator. *)
Definition two_input_node : Node :=
  mkNode 1 (OtherKind "aten::bar") [0; 1]%nat [2%nat] 0 None
         (Some "aten::bar(Tensor x, Tensor y) -> Tensor").

(** The shape program [return [len(x), y[1]]]. *)
Definition two_input_shape_program : Graph :=
  {| param_node := mkNode 100 prim_Param [] [0; 1]%nat 0 None None;
     body :=
       [ int_constant 2 1;
         mkNode 3 aten___getitem__ [1; 2]%nat [3%nat] 0 None None;
         mkNode 4 aten_len [0%nat] [4%nat] 0 None None;
         mkNode 5 prim_ListConstruct [4; 3]%nat [5%nat] 0 None None ];
     return_node := mkNode 101 prim_Return [5%nat] [] 0 None None;
     value_types :=
       {[ 0%nat := ListT IntT; 1%nat := ListT IntT; 2%nat := IntT;
          3%nat := IntT; 4%nat := IntT; 5%nat := ListT IntT ]};
     next_unique := 102 |}.

(** The graph with its shape program registered. *)
Definition two_input_world : World :=
  {| heap := {[ 1%positive := two_input_graph;
                2%positive := two_input_shape_program ]};
     operator_functions :=
       {[ "aten::bar(Tensor x, Tensor y) -> Tensor" := 2%positive ]} |}.

(** * Properties *)

(** ** The monad *)

Lemma bind_run {A B} (m : M A) (k : A → M B) (w : World) :
  (m ≫= k) w =
  match m w with
  | (Ok a, w') => k a w'
  | (Throw e, w') => (Throw e, w')
  end.
Proof. reflexivity. Qed.

Lemma bind_Ok {A B} (m : M A) (k : A → M B) w a w' :
  m w = (Ok a, w') → (m ≫= k) w = k a w'.
Proof. intros E. rewrite bind_run, E. reflexivity. Qed.

Lemma bind_Throw {A B} (m : M A) (k : A → M B) w e w' :
  m w = (Throw e, w') → (m ≫= k) w = (Throw e, w').
Proof. intros E. rewrite bind_run, E. reflexivity. Qed.

Lemma heap_set_graph l g w : heap (set_graph l g w) !! l = Some g.
Proof. apply lookup_insert_eq. Qed.

Lemma heap_set_graph_ne l l' g w :
  l ≠ l' → heap (set_graph l g w) !! l' = heap w !! l'.
Proof. intros. by apply lookup_insert_ne. Qed.

Lemma set_graph_twice l g1 g2 w :
  set_graph l g2 (set_graph l g1 w) = set_graph l g2 w.
Proof. unfold set_graph; simpl. by rewrite insert_insert_eq. Qed.

Lemma set_graph_same l g w : heap w !! l = Some g → set_graph l g w = w.
Proof.
  intros E. destruct w as [h t]. unfold set_graph; simpl in *.
  by rewrite insert_id.
Qed.

Lemma get_graph_Some l g w : heap w !! l = Some g → get_graph l w = (Ok g, w).
Proof. intros E. unfold get_graph. by rewrite E. Qed.

(** ** Computations that only write one graph *)

Lemma local_ret {A} l (a : A) : local l (mret a).
Proof. intros w g E. exists (Ok a), g. by rewrite set_graph_same. Qed.

Lemma local_throw {A} l e : local l (@throw A e).
Proof. intros w g E. exists (Throw e), g. by rewrite set_graph_same. Qed.

Lemma local_bind {A B} l (m : M A) (k : A → M B) :
  local l m → (∀ a, local l (k a)) → local l (m ≫= k).
Proof.
  intros Hm Hk w g E. destruct (Hm w g E) as (r & g1 & E1).
  rewrite bind_run, E1. destruct r as [a|e].
  - destruct (Hk a (set_graph l g1 w) g1 (heap_set_graph _ _ _)) as (r2 & g2 & E2).
    exists r2, g2. by rewrite E2, set_graph_twice.
  - by exists (Throw e), g1.
Qed.

Lemma local_get_graph l l' : local l (get_graph l').
Proof.
  intros w g E. unfold get_graph. destruct (heap w !! l') as [g0|].
  - exists (Ok g0), g. by rewrite set_graph_same.
  - exists (Throw dangling), g. by rewrite set_graph_same.
Qed.

Lemma local_put_graph l g : local l (put_graph l g).
Proof. intros w g0 E. by exists (Ok ()), g. Qed.

Lemma local_get_operator_functions l : local l get_operator_functions.
Proof.
  intros w g E. exists (Ok (operator_functions w)), g.
  by rewrite set_graph_same.
Qed.

Lemma local_vector_at {A} l (vec : list A) i : local l (vector_at vec i).
Proof. unfold vector_at. destruct (vec !! i); [apply local_ret | apply local_throw]. Qed.

Lemma local_value_of {A} l (o : option A) : local l (value_of o).
Proof. destruct o; [apply local_ret | apply local_throw]. Qed.

Lemma local_expect_TensorType l t : local l (expect_TensorType t).
Proof. destruct t; first [apply local_ret | apply local_throw]. Qed.

Lemma local_for_each {A} l (xs : list A) body :
  (∀ x, local l (body x)) → local l (for_each xs body).
Proof.
  intros Hb. induction xs as [|x xs IH]; simpl.
  - apply local_ret.
  - apply local_bind; [apply Hb | intros _; apply IH].
Qed.

Lemma local_for_fold {A S} l (xs : list A) (s : S) body :
  (∀ x s, local l (body x s)) → local l (for_fold xs s body).
Proof.
  intros Hb. revert s. induction xs as [|x xs IH]; intros s; simpl.
  - apply local_ret.
  - apply local_bind; [apply Hb | intros s'; apply IH].
Qed.

Lemma local_bind_post {A B} l (m : M A) (k : A → M B) Q :
  local_post l m Q → (∀ a, Q a → local l (k a)) → local l (m ≫= k).
Proof.
  intros Hm Hk w g E. destruct (Hm w g E) as (r & g1 & E1 & HQ).
  rewrite bind_run, E1. destruct r as [a|e].
  - destruct (Hk a (HQ a eq_refl) (set_graph l g1 w) g1 (heap_set_graph _ _ _))
      as (r2 & g2 & E2).
    exists r2, g2. by rewrite E2, set_graph_twice.
  - by exists (Throw e), g1.
Qed.

Lemma local_post_bind {A B} l (m : M A) (k : A → M B) Q :
  local l m → (∀ a, local_post l (k a) Q) → local_post l (m ≫= k) Q.
Proof.
  intros Hm Hk w g E. destruct (Hm w g E) as (r & g1 & E1).
  rewrite bind_run, E1. destruct r as [a|e].
  - destruct (Hk a (set_graph l g1 w) g1 (heap_set_graph _ _ _))
      as (r2 & g2 & E2 & HQ).
    exists r2, g2. by rewrite E2, set_graph_twice.
  - by exists (Throw e), g1.
Qed.

Lemma local_post_ret {A} l (a : A) (Q : A → Prop) : Q a → local_post l (mret a) Q.
Proof.
  intros Ha w g E. exists (Ok a), g. rewrite set_graph_same by done.
  split; [done|]. by intros ? [= <-].
Qed.

Lemma local_post_throw {A} l e (Q : A → Prop) : local_post l (throw e) Q.
Proof.
  intros w g E. exists (Throw e), g. rewrite set_graph_same by done.
  split; [done|]. by intros ? [=].
Qed.

(** One step of a proof that a computation is [local]. *)
Ltac local_step :=
  first
    [ apply local_ret | apply local_throw | apply local_get_graph
    | apply local_put_graph | apply local_vector_at | apply local_value_of
    | apply local_expect_TensorType | apply local_get_operator_functions
    | apply local_for_each; intros ?
    | apply local_for_fold; intros ? ?
    | apply local_bind; [|intros ?]
    | match goal with
      | |- local _ (match ?x with _ => _ end) => destruct x
      end ].

Ltac solve_local := repeat local_step.

Lemma local_Node_deref l n : local l (Node_deref n).
Proof. unfold Node_deref. solve_local. Qed.

Lemma local_Node_input l n i : local l (Node_input n i).
Proof. unfold Node_input. solve_local. Qed.

Lemma local_Node_output l n : local l (Node_output n).
Proof. unfold Node_output. solve_local. Qed.

(** The output of a node of the graph at [l] is a value of that graph. *)
Lemma local_post_Node_output l u :
  local_post l (Node_output (l, u)) (λ v, v.1 = l).
Proof.
  unfold Node_output. apply local_post_bind; [apply local_Node_deref|].
  intros node. destruct (outputs node) as [|v [|]];
    first [by apply local_post_ret | apply local_post_throw].
Qed.

Lemma local_type_of l v : local l (type_of v).
Proof. unfold type_of. solve_local. Qed.

Lemma local_post_Graph_input_at l i :
  local_post l (Graph_input_at l i) (λ v, v.1 = l).
Proof.
  unfold Graph_input_at. apply local_post_bind; [apply local_get_graph|].
  intros g. apply local_post_bind; [apply local_vector_at|].
  intros v. by apply local_post_ret.
Qed.

Lemma local_replaceWithIValue l v val : local l (replaceWithIValue (l, v) val).
Proof. unfold replaceWithIValue; simpl. solve_local. Qed.

Lemma local_run_pass l pass : local l (run_pass pass l).
Proof. unfold run_pass. solve_local. Qed.

(** Replace the value a computation of the graph at [l] returned. *)
Ltac local_replace l :=
  eapply local_bind_post;
  [ first [apply local_post_Graph_input_at | apply local_post_Node_output]
  | intros [? ?] [= ->];
    apply local_bind; [apply local_replaceWithIValue | intros ?] ].

(** ** The analyzer writes its own copy only *)

Lemma local_specialize_input l n i indices :
  local l (specialize_input l n i indices).
Proof.
  unfold specialize_input.
  repeat first
    [ local_replace l
    | eapply local_bind_post;
      [ apply local_post_Graph_input_at
      | intros [? ?] [= ->]; apply local_bind; [apply local_value_of | intros ?] ]
    | local_step ].
Qed.

Lemma local_substitute_use self ds use :
  local (graph_ self) (substitute_use self ds use).
Proof.
  unfold substitute_use.
  repeat first
    [ eapply local_bind_post;
      [ apply local_post_Node_output
      | intros [? ?] [= ->]; apply local_replaceWithIValue ]
    | local_step ].
Qed.

Lemma local_substituteTensorProperties self i :
  local (graph_ self) (substituteTensorProperties self i).
Proof.
  unfold substituteTensorProperties.
  repeat first [apply local_substitute_use | local_step].
Qed.

Lemma local_substituteInputTensorProperties self :
  local (graph_ self) (substituteInputTensorProperties self).
Proof.
  unfold substituteInputTensorProperties. apply local_for_each.
  intros i. apply local_substituteTensorProperties.
Qed.

Lemma local_extractOutputShape self :
  local (graph_ self) (extractOutputShape self).
Proof. unfold extractOutputShape. solve_local. Qed.

Lemma local_run `{Passes} self : local (graph_ self) (run self).
Proof.
  unfold run.
  repeat first
    [ apply local_substituteInputTensorProperties
    | apply local_extractOutputShape
    | apply local_run_pass
    | local_step ].
Qed.

Lemma delete_new_graph l g w :
  heap w !! l = None → snd (delete_graph l (set_graph l g w)) = w.
Proof.
  intros E. destruct w as [h t]. unfold delete_graph, set_graph; simpl in *.
  by rewrite delete_insert_eq, delete_id.
Qed.

Lemma new_graph_fresh g w :
  ∃ l, heap w !! l = None ∧ new_graph g w = (Ok l, set_graph l g w).
Proof.
  exists (fresh (dom (heap w))). split; [|reflexivity].
  apply not_elem_of_dom, is_fresh.
Qed.

(** The constructor either returns an analyzer whose graph is a location
    that was not live before, having written nothing else, or throws and
    leaves the store as it found it. *)
Lemma SymbolicShapeAnalyzer_new_store n scg w :
  match SymbolicShapeAnalyzer_new n scg w with
  | (Ok self, w') =>
      heap w !! graph_ self = None ∧ node_ self = n ∧
      ∃ g', w' = set_graph (graph_ self) g' w
  | (Throw _, w') => w' = w
  end.
Proof.
  unfold SymbolicShapeAnalyzer_new. rewrite bind_run. unfold get_graph at 1.
  destruct (heap w !! scg) as [sg|]; [|reflexivity].
  rewrite bind_run.
  destruct (new_graph_fresh (Graph_copy sg) w) as (l & Hl & ->).
  unfold on_throw.
  assert (Hloc : local_post l
    (node ← Node_deref n;
     indices ← for_fold (seq 0 (length (inputs node))) [] (specialize_input l n);
     mret {| node_input_tensor_indices := indices; graph_ := l; node_ := n |})
    (λ self, graph_ self = l ∧ node_ self = n)).
  { apply local_post_bind; [apply local_Node_deref | intros node].
    apply local_post_bind; [|intros indices; by apply local_post_ret].
    apply local_for_fold. intros. apply local_specialize_input. }
  destruct (Hloc _ _ (heap_set_graph l (Graph_copy sg) w)) as (r & g' & -> & HQ).
  rewrite set_graph_twice. destruct r as [self|e].
  - destruct (HQ self eq_refl) as [-> ->]. eauto.
  - by apply delete_new_graph.
Qed.

(** Analysing a node leaves the store exactly as it found it: the copy is
    made at a location that was not live, every write of the analysis goes
    to that location, and the location is released at the end. *)
Lemma analyze_restores_store `{Passes} n scg w : snd (analyze n scg w) = w.
Proof.
  unfold analyze. rewrite bind_run.
  pose proof (SymbolicShapeAnalyzer_new_store n scg w) as Hnew.
  destruct (SymbolicShapeAnalyzer_new n scg w) as [[self|e] w1]; [|done].
  destruct Hnew as (Hfresh & _ & g1 & ->).
  unfold finally, SymbolicShapeAnalyzer_delete.
  destruct (local_run self _ _ (heap_set_graph (graph_ self) g1 w)) as (r & g2 & ->).
  rewrite set_graph_twice. simpl. by apply delete_new_graph.
Qed.

(** ** What [replaceWithIValue] does to a graph *)

Lemma replaceWithIValue_run l v val w g :
  heap w !! l = Some g →
  replaceWithIValue (l, v) val w = (Ok (), set_graph l (replace_by_constant v val g) w).
Proof.
  intros E. unfold replaceWithIValue. simpl. rewrite (bind_Ok _ _ _ _ _ (get_graph_Some _ _ _ E)).
  reflexivity.
Qed.

Lemma Graph_wf_node g n :
  Graph_wf g = true → n ∈ all_nodes g →
  names_below g n = true ∧ schema_ok g n = true.
Proof.
  unfold Graph_wf. rewrite andb_true_iff, forallb_forall.
  intros [_ Hall] Hn. apply andb_true_iff, Hall. by apply list_elem_of_In.
Qed.

Lemma names_below_input g n x :
  names_below g n = true → x ∈ inputs n → (x < next_unique g)%nat.
Proof.
  unfold names_below. rewrite forallb_forall. intros Hall Hx.
  apply Nat.ltb_lt, Hall, list_elem_of_In, elem_of_app. by left.
Qed.

Lemma names_below_output g n x :
  names_below g n = true → x ∈ outputs n → (x < next_unique g)%nat.
Proof.
  unfold names_below. rewrite forallb_forall. intros Hall Hx.
  apply Nat.ltb_lt, Hall, list_elem_of_In, elem_of_app. by right.
Qed.

Section replace_input.
Context (old new : nat).

Lemma offsets_of_replaced ins k :
  new ≠ old → offsets_of old (replace_value old new <$> ins) k = [].
Proof.
  intros Hne. revert k. induction ins as [|x ins IH]; intros k; simpl; [done|].
  unfold replace_value at 1. repeat case_bool_decide; try congruence; apply IH.
Qed.

Lemma offsets_of_replacement ins k :
  new ∉ ins →
  offsets_of new (replace_value old new <$> ins) k = offsets_of old ins k.
Proof.
  revert k. induction ins as [|x ins IH]; intros k Hnew; simpl; [done|].
  apply not_elem_of_cons in Hnew as [Hx Hnew].
  unfold replace_value at 1.
  repeat case_bool_decide; try congruence; rewrite IH; done.
Qed.

Lemma offsets_of_other x ins k :
  x ≠ old → x ≠ new →
  offsets_of x (replace_value old new <$> ins) k = offsets_of x ins k.
Proof.
  intros Ho Hn. revert k. induction ins as [|y ins IH]; intros k; simpl; [done|].
  unfold replace_value at 1.
  repeat case_bool_decide; try congruence; rewrite IH; done.
Qed.

Lemma node_uses_replaced n :
  new ≠ old → node_uses old (Node_replace_input old new n) = [].
Proof. intros. unfold node_uses; simpl. by rewrite offsets_of_replaced. Qed.

Lemma node_uses_replacement n :
  new ∉ inputs n →
  node_uses new (Node_replace_input old new n) = node_uses old n.
Proof. intros. unfold node_uses; simpl. by rewrite offsets_of_replacement. Qed.

Lemma node_uses_other x n :
  x ≠ old → x ≠ new →
  node_uses x (Node_replace_input old new n) = node_uses x n.
Proof. intros. unfold node_uses; simpl. by rewrite offsets_of_other. Qed.
End replace_input.

Lemma all_nodes_replace_by_constant v val g :
  all_nodes (replace_by_constant v val g) =
  Node_replace_input v (next_unique g) (param_node g)
  :: {| node_id := next_unique g; kind := prim_Constant; inputs := [];
        outputs := [next_unique g];
        owningBlock := owningBlock (Value_node g v);
        const_value := Some val; maybeSchema := None |}
  :: (Node_replace_input v (next_unique g) <$> body g)
  ++ [Node_replace_input v (next_unique g) (return_node g)].
Proof. reflexivity. Qed.

(** The use list of [x] after [replaceWithIValue(v, val)], from the use
    list before, by a function [f] on the use list of each node. *)
Lemma Value_uses_replace_by_constant v val g x (f : Node → list Use) :
  (∀ n, n ∈ all_nodes g →
     node_uses x (Node_replace_input v (next_unique g) n) = f n) →
  Value_uses (replace_by_constant v val g) x = concat (f <$> all_nodes g).
Proof.
  intros Hf. unfold Value_uses. rewrite all_nodes_replace_by_constant.
  unfold all_nodes in *. simpl.
  rewrite Hf by (apply list_elem_of_here).
  f_equal. rewrite !fmap_app, !concat_app. simpl. rewrite !app_nil_r.
  f_equal.
  - f_equal. rewrite <- list_fmap_compose. apply list_fmap_ext.
    intros i n Hn. simpl. apply Hf. apply list_elem_of_further, elem_of_app. left.
    by eapply list_elem_of_lookup_2.
  - f_equal. apply Hf. apply list_elem_of_further, elem_of_app. right.
    apply list_elem_of_here.
Qed.

Lemma concat_fmap_nil {A B} (l : list A) : concat ((λ _, @nil B) <$> l) = [].
Proof. induction l; simpl; auto. Qed.

Lemma Graph_wf_iff g :
  Graph_wf g = true ↔
  kind (param_node g) = prim_Param ∧
  ∀ n, n ∈ all_nodes g → names_below g n = true ∧ schema_ok g n = true.
Proof.
  unfold Graph_wf. rewrite andb_true_iff, bool_decide_eq_true, forallb_forall.
  split; intros [Hp Hall]; (split; [done|]); intros n Hn.
  - apply andb_true_iff, Hall. by apply list_elem_of_In.
  - apply andb_true_iff, Hall. by apply list_elem_of_In.
Qed.

Lemma toIValue_replace_by_constant v val g :
  toIValue (replace_by_constant v val g) (next_unique g) = Some val.
Proof.
  unfold toIValue, Value_node, replace_by_constant. simpl.
  rewrite (bool_decide_eq_true_2 (next_unique g ∈ [next_unique g]))
    by apply list_elem_of_here.
  reflexivity.
Qed.

Lemma replace_by_constant_spec v val g :
  Graph_wf g = true → (v < next_unique g)%nat →
  replaced_by_constant g (replace_by_constant v val g) v val.
Proof.
  intros Hwf Hv. apply Graph_wf_iff in Hwf as [_ Hwf]. split; [|exists (next_unique g); repeat split].
  - rewrite (Value_uses_replace_by_constant _ _ _ _ (λ _, [])).
    + apply concat_fmap_nil.
    + intros n _. apply node_uses_replaced. lia.
  - apply toIValue_replace_by_constant.
  - apply Value_uses_replace_by_constant. intros n Hn.
    apply node_uses_replacement. intros Hin.
    destruct (Hwf n Hn) as [Hb _].
    pose proof (names_below_input _ _ _ Hb Hin). lia.
  - intros x Hxv Hxc. apply Value_uses_replace_by_constant. intros n Hn.
    by apply node_uses_other.
Qed.

Lemma Graph_inputs_replace_by_constant v val g :
  Graph_inputs (replace_by_constant v val g) = Graph_inputs g.
Proof. reflexivity. Qed.

Lemma next_unique_replace_by_constant v val g :
  next_unique (replace_by_constant v val g) = S (next_unique g).
Proof. reflexivity. Qed.

Lemma Value_type_replace_by_constant v val g x :
  (x < next_unique g)%nat →
  Value_type (replace_by_constant v val g) x = Value_type g x.
Proof.
  intros Hx. unfold Value_type, replace_by_constant. simpl.
  rewrite lookup_insert_ne by lia. reflexivity.
Qed.

Lemma names_below_replace v val g n :
  names_below g n = true →
  names_below (replace_by_constant v val g)
              (Node_replace_input v (next_unique g) n) = true.
Proof.
  unfold names_below. rewrite !forallb_forall. intros Hall x Hx.
  apply Nat.ltb_lt. rewrite next_unique_replace_by_constant.
  apply list_elem_of_In, elem_of_app in Hx as [Hx|Hx]; simpl in Hx.
  - apply list_elem_of_fmap in Hx as (y & -> & Hy). unfold replace_value.
    case_bool_decide; [lia|].
    enough (y < next_unique g)%nat by lia.
    apply Nat.ltb_lt, Hall, list_elem_of_In, elem_of_app. by left.
  - enough (x < next_unique g)%nat by lia.
    apply Nat.ltb_lt, Hall, list_elem_of_In, elem_of_app. by right.
Qed.

Lemma schema_ok_replace v val g n :
  names_below g n = true → schema_ok g n = true →
  schema_ok (replace_by_constant v val g)
            (Node_replace_input v (next_unique g) n) = true.
Proof.
  intros Hb. unfold schema_ok. simpl. rewrite length_fmap.
  destruct (kind n); try done.
  destruct (const_value n) as [cv|]; [|done].
  destruct (outputs n) as [|o [|]] eqn:Eo; try done.
  rewrite Value_type_replace_by_constant; [done|].
  apply (names_below_output g n); [done|]. rewrite Eo. apply list_elem_of_here.
Qed.

(** [replaceWithIValue] keeps a graph well formed. *)
Lemma Graph_wf_replace_by_constant v val g :
  Graph_wf g = true → Graph_wf (replace_by_constant v val g) = true.
Proof.
  rewrite !Graph_wf_iff. intros [Hp Hwf]. split; [done|].
  intros n. rewrite all_nodes_replace_by_constant.
  assert (Hold : ∀ m, m ∈ all_nodes g →
    names_below (replace_by_constant v val g)
      (Node_replace_input v (next_unique g) m) = true ∧
    schema_ok (replace_by_constant v val g)
      (Node_replace_input v (next_unique g) m) = true).
  { intros m Hm. destruct (Hwf m Hm).
    split; [by apply names_below_replace | by apply schema_ok_replace]. }
  rewrite !elem_of_cons, elem_of_app, list_elem_of_fmap, list_elem_of_singleton.
  intros [->|[->|[(m & -> & Hm)| ->]]].
  - apply Hold, list_elem_of_here.
  - split.
    + unfold names_below. simpl. rewrite andb_true_r. apply Nat.ltb_lt. lia.
    + unfold schema_ok, Value_type. simpl. rewrite lookup_insert_eq. simpl.
      by apply bool_decide_eq_true.
  - apply Hold. unfold all_nodes. apply list_elem_of_further, elem_of_app. by left.
  - apply Hold. unfold all_nodes. apply list_elem_of_further, elem_of_app. right.
    apply list_elem_of_here.
Qed.

(** ** Running the accessors *)

Lemma Node_deref_run l id w g node :
  heap w !! l = Some g → find_node g id = Some node →
  Node_deref (l, id) w = (Ok node, w).
Proof.
  intros E F. unfold Node_deref. simpl.
  rewrite (bind_Ok _ _ _ _ _ (get_graph_Some _ _ _ E)). by rewrite F.
Qed.

Lemma Node_output_run l id w g node o :
  heap w !! l = Some g → find_node g id = Some node → outputs node = [o] →
  Node_output (l, id) w = (Ok (l, o), w).
Proof.
  intros E F O. unfold Node_output.
  rewrite (bind_Ok _ _ _ _ _ (Node_deref_run _ _ _ _ _ E F)). by rewrite O.
Qed.

Lemma vector_at_run {A} (vec : list A) i x w :
  vec !! i = Some x → vector_at vec i w = (Ok x, w).
Proof. intros E. unfold vector_at. by rewrite E. Qed.

Lemma Node_input_run l id w g node i v :
  heap w !! l = Some g → find_node g id = Some node → inputs node !! i = Some v →
  Node_input (l, id) i w = (Ok (l, v), w).
Proof.
  intros E F I. unfold Node_input.
  rewrite (bind_Ok _ _ _ _ _ (Node_deref_run _ _ _ _ _ E F)).
  by rewrite (bind_Ok _ _ _ _ _ (vector_at_run _ _ _ _ I)).
Qed.

Lemma Node_input_out_of_range l id w g node i :
  heap w !! l = Some g → find_node g id = Some node → inputs node !! i = None →
  Node_input (l, id) i w = (Throw out_of_range, w).
Proof.
  intros E F I. unfold Node_input.
  rewrite (bind_Ok _ _ _ _ _ (Node_deref_run _ _ _ _ _ E F)).
  unfold vector_at. by rewrite I.
Qed.

Lemma type_of_run l v w g :
  heap w !! l = Some g → type_of (l, v) w = (Ok (Value_type g v), w).
Proof.
  intros E. unfold type_of. simpl.
  by rewrite (bind_Ok _ _ _ _ _ (get_graph_Some _ _ _ E)).
Qed.

Lemma Graph_input_at_run l i w g v :
  heap w !! l = Some g → Graph_inputs g !! i = Some v →
  Graph_input_at l i w = (Ok (l, v), w).
Proof.
  intros E I. unfold Graph_input_at.
  rewrite (bind_Ok _ _ _ _ _ (get_graph_Some _ _ _ E)).
  by rewrite (bind_Ok _ _ _ _ _ (vector_at_run _ _ _ _ I)).
Qed.

Lemma find_node_elem_of g id node :
  find_node g id = Some node → node ∈ all_nodes g ∧ node_id node = id.
Proof.
  unfold find_node. intros F. apply find_some in F as [Hin Hid].
  split; [by apply list_elem_of_In | by apply bool_decide_eq_true in Hid].
Qed.

(** ** [normIndex] on the ranks and indices that occur *)

Lemma to_int64_small z : - 2 ^ 63 ≤ z < 2 ^ 63 → to_int64 z = z.
Proof. intros Hz. unfold to_int64. rewrite Z.mod_small; lia. Qed.

Lemma to_int64_le z : 0 ≤ z → to_int64 z ≤ z.
Proof.
  intros Hz. unfold to_int64.
  pose proof (Z.mod_le (z + 2 ^ 63) (2 ^ 64)). lia.
Qed.

(** Without overflow, [normIndex] adds the length to a negative index and
    accepts the result when it lies in [[0, len)]. *)
Lemma normIndex_spec index len :
  0 ≤ len < 2 ^ 63 → - 2 ^ 63 ≤ index < 2 ^ 63 →
  normIndex index len =
  let k := if index <? 0 then index + len else index in
  if (0 <=? k) && (k <? len) then Some k else None.
Proof.
  intros Hlen Hidx. unfold normIndex. rewrite (to_int64_small len) by lia.
  destruct (index <? 0) eqn:E; [|done].
  apply Z.ltb_lt in E. rewrite to_int64_small by lia. done.
Qed.

(** Whatever the arguments, an index [normIndex] returns is a position of
    a vector of length [len]. *)
Lemma normIndex_in_range index len k :
  0 ≤ len → normIndex index len = Some k → 0 ≤ k < len.
Proof.
  intros Hlen. unfold normIndex.
  set (i := if index <? 0 then _ else _).
  destruct (0 <=? i) eqn:E1; [|done]. destruct (i <? to_int64 len) eqn:E2; [|done].
  simpl. intros [= <-]. apply Z.leb_le in E1. apply Z.ltb_lt in E2.
  pose proof (to_int64_le len Hlen). lia.
Qed.

Example normIndex_last : normIndex (-1) 4 = Some 3.
Proof. reflexivity. Qed.

Example normIndex_below : normIndex (-5) 4 = None.
Proof. reflexivity. Qed.

(** ** Property substitution *)

(** With the type of the tracked input read, [substituteTensorProperties]
    is the loop over the uses of the program input. *)
Lemma substituteTensorProperties_loop self i w tl tid tg tnode tv ttype ds g x :
  node_ self = (tl, tid) →
  heap w !! tl = Some tg →
  find_node tg tid = Some tnode →
  inputs tnode !! i = Some tv →
  Value_type tg tv = TensorT ttype →
  symbolic_sizes ttype = Some ds →
  heap w !! graph_ self = Some g →
  Graph_inputs g !! i = Some x →
  substituteTensorProperties self i w =
  for_each (Value_uses g x) (substitute_use self ds) w.
Proof.
  intros Hself Htg Hn Hin Hty Hds Hg Hx. unfold substituteTensorProperties.
  rewrite Hself.
  rewrite (bind_Ok _ _ _ _ _ (Node_input_run _ _ _ _ _ _ _ Htg Hn Hin)).
  rewrite (bind_Ok _ _ _ _ _ (type_of_run _ _ _ _ Htg)).
  rewrite Hty. simpl expect_TensorType.
  rewrite (bind_Ok _ (λ ttype, match symbolic_sizes ttype with
                                | Some ds => _ | None => _ end) w ttype w eq_refl).
  rewrite Hds.
  rewrite (bind_Ok _ _ _ _ _ (Graph_input_at_run _ _ _ _ _ Hg Hx)).
  by rewrite (bind_Ok _ _ _ _ _ (get_graph_Some _ _ _ Hg)).
Qed.

Lemma Graph_wf_len_output g node :
  Graph_wf g = true → node ∈ all_nodes g → kind node = aten_len →
  ∃ out, outputs node = [out] ∧ (out < next_unique g)%nat.
Proof.
  intros Hwf Hin Hk. destruct (Graph_wf_node _ _ Hwf Hin) as [Hb Hs].
  unfold schema_ok in Hs. rewrite Hk in Hs. apply bool_decide_eq_true in Hs.
  destruct (outputs node) as [|out [|]] eqn:Eo; try done.
  exists out. split; [done|]. apply (names_below_output g node); [done|].
  rewrite Eo. apply list_elem_of_here.
Qed.

Lemma Graph_wf_getitem g node :
  Graph_wf g = true → node ∈ all_nodes g → kind node = aten___getitem__ →
  ∃ out iv, outputs node = [out] ∧ (out < next_unique g)%nat ∧
            inputs node !! 1%nat = Some iv.
Proof.
  intros Hwf Hin Hk. destruct (Graph_wf_node _ _ Hwf Hin) as [Hb Hs].
  unfold schema_ok in Hs. rewrite Hk in Hs.
  apply andb_true_iff in Hs as [Ho Hi].
  apply bool_decide_eq_true in Ho. apply bool_decide_eq_true in Hi.
  destruct (outputs node) as [|out [|]] eqn:Eo; try done.
  destruct (inputs node) as [|a [|iv rest]] eqn:Ei; simpl in Hi; try lia.
  exists out, iv. split; [done|]. split; [|done].
  apply (names_below_output g node); [done|]. rewrite Eo. apply list_elem_of_here.
Qed.

(** C1.  Property substitution for a tracked tensor input of rank [r]
    visits the uses of the program input in order, and for the use at hand:
    a length query has its result replaced by the constant [r]; an indexing
    query with constant index [k] is normalised by adding [r] when [k < 0],
    and when the normalised index is in [[0, r)] and that dimension has a
    static size, the result is replaced by the size; an indexing query
    whose normalised index is out of range, whose index is not a constant
    or whose dimension is unknown, and a use of any other kind, leave the
    graph as it is.  No case throws. *)
Theorem substituteTensorProperties_rewrites
    self i w tl tid tg tnode tv ttype ds g x :
  node_ self = (tl, tid) →
  heap w !! tl = Some tg →
  find_node tg tid = Some tnode →
  inputs tnode !! i = Some tv →
  Value_type tg tv = TensorT ttype →
  symbolic_sizes ttype = Some ds →
  heap w !! graph_ self = Some g →
  Graph_inputs g !! i = Some x →
  Z.of_nat (length ds) < 2 ^ 63 →
  let r := Z.of_nat (length ds) in
  substituteTensorProperties self i w =
    for_each (Value_uses g x) (substitute_use self ds) w
  ∧ ∀ w' g' use node,
      heap w' !! graph_ self = Some g' →
      Graph_wf g' = true →
      find_node g' (user use) = Some node →
      let step := substitute_use self ds use w' in
      (kind node = aten_len →
         ∃ out g'', outputs node = [out] ∧
           step = (Ok (), set_graph (graph_ self) g'' w') ∧
           replaced_by_constant g' g'' out (IV_Int r))
      ∧ (kind node = aten___getitem__ →
         ∃ out iv, outputs node = [out] ∧ inputs node !! 1%nat = Some iv ∧
           (constant_as_int g' iv = None → step = (Ok (), w')) ∧
           (∀ k, constant_as_int g' iv = Some k → - 2 ^ 63 ≤ k < 2 ^ 63 →
              let k' := if k <? 0 then k + r else k in
              (¬ (0 ≤ k' < r) → step = (Ok (), w')) ∧
              (0 ≤ k' < r → ds !! Z.to_nat k' = Some None →
                 step = (Ok (), w')) ∧
              (∀ size, 0 ≤ k' < r → ds !! Z.to_nat k' = Some (Some size) →
                 ∃ g'', step = (Ok (), set_graph (graph_ self) g'' w') ∧
                        replaced_by_constant g' g'' out (IV_Int size))))
      ∧ (kind node ≠ aten_len → kind node ≠ aten___getitem__ →
         step = (Ok (), w')).
Proof.
  intros Hself Htg Hn Hin Hty Hds Hg Hx Hr r. split.
  { by eapply substituteTensorProperties_loop. }
  clear dependent w. clear dependent g.
  intros w g use node Hg Hwf Hnode step. subst step.
  destruct (find_node_elem_of _ _ _ Hnode) as [Helem _].
  unfold substitute_use.
  rewrite (bind_Ok _ _ _ _ _ (Node_deref_run _ _ _ _ _ Hg Hnode)).
  split; [|split].
  - intros Hk. rewrite Hk.
    destruct (Graph_wf_len_output _ _ Hwf Helem Hk) as (out & Hout & Hlt).
    exists out, (replace_by_constant out (IV_Int r) g). split; [done|].
    rewrite (bind_Ok _ _ _ _ _ (Node_output_run _ _ _ _ _ _ Hg Hnode Hout)).
    rewrite (to_int64_small (Z.of_nat (length ds))) by lia.
    split; [by apply replaceWithIValue_run | by apply replace_by_constant_spec].
  - intros Hk. rewrite Hk.
    destruct (Graph_wf_getitem _ _ Hwf Helem Hk) as (out & iv & Hout & Hlt & Hiv).
    exists out, iv. split; [done|]. split; [done|].
    rewrite (bind_Ok _ _ _ _ _ (vector_at_run _ _ _ _ Hiv)).
    rewrite (bind_Ok _ _ _ _ _ (get_graph_Some _ _ _ Hg)).
    split; [by intros ->|].
    intros k -> Hkr. rewrite normIndex_spec by lia. fold r.
    cbv zeta. set (k' := if k <? 0 then k + r else k).
    split; [|split].
    + intros Hout_of_range.
      destruct ((0 <=? k') && (k' <? r)) eqn:E; [|done].
      apply andb_true_iff in E as [E1%Z.leb_le E2%Z.ltb_lt]. lia.
    + intros Hin_range Hd.
      replace ((0 <=? k') && (k' <? r)) with true
        by (symmetry; apply andb_true_iff; split; [apply Z.leb_le | apply Z.ltb_lt]; lia).
      by rewrite (bind_Ok _ _ _ _ _ (vector_at_run _ _ _ _ Hd)).
    + intros size Hin_range Hd.
      replace ((0 <=? k') && (k' <? r)) with true
        by (symmetry; apply andb_true_iff; split; [apply Z.leb_le | apply Z.ltb_lt]; lia).
      rewrite (bind_Ok _ _ _ _ _ (vector_at_run _ _ _ _ Hd)).
      rewrite (bind_Ok _ _ _ _ _ (Node_output_run _ _ _ _ _ _ Hg Hnode Hout)).
      exists (replace_by_constant out (IV_Int size) g).
      split; [by apply replaceWithIValue_run | by apply replace_by_constant_spec].
  - intros Hlen Hget. destruct (kind node); done.
Qed.

(** ** Output extraction *)

Lemma Value_node_elem_of g v : Value_node g v ∈ all_nodes g.
Proof.
  unfold Value_node, all_nodes.
  destruct (find _ (body g)) as [n|] eqn:F; simpl.
  - apply find_some in F as [Hin _]. apply list_elem_of_further, elem_of_app. left.
    by apply list_elem_of_In.
  - apply list_elem_of_here.
Qed.

Lemma Value_node_output g v :
  Graph_wf g = true → kind (Value_node g v) ≠ prim_Param →
  v ∈ outputs (Value_node g v).
Proof.
  intros Hwf. unfold Value_node.
  destruct (find _ (body g)) as [n|] eqn:F; simpl.
  - intros _. apply find_some in F as [_ Hv]. by apply bool_decide_eq_true in Hv.
  - apply Graph_wf_iff in Hwf as [Hp _]. by rewrite Hp.
Qed.

(** In a well-formed graph a constant of integer-list type holds a list of
    integers. *)
Lemma constant_int_list g v :
  Graph_wf g = true →
  kind (Value_node g v) = prim_Constant →
  is_int_list (Value_type g v) = true →
  ∃ int_list, toIValue g v = Some (IV_IntList int_list).
Proof.
  intros Hwf Hk Hty.
  destruct (Graph_wf_node _ _ Hwf (Value_node_elem_of g v)) as [_ Hs].
  assert (Hv : v ∈ outputs (Value_node g v)).
  { apply Value_node_output; [done|]. by rewrite Hk. }
  unfold toIValue. rewrite Hk. rewrite bool_decide_eq_true_2 by done.
  unfold schema_ok in Hs. rewrite Hk in Hs.
  destruct (const_value (Value_node g v)) as [val|]; [|done].
  destruct (outputs (Value_node g v)) as [|o [|]]; try done.
  apply list_elem_of_singleton in Hv as <-.
  apply bool_decide_eq_true in Hs. rewrite Hty in Hs.
  destruct val; try done. by eexists.
Qed.

(** C2.  On a simplified program with a single output of integer-list
    type, output extraction distinguishes three cases.  A constant output
    gives the fully concrete shape built from its integers.  An output made
    by a list construction and used once gives a shape of known rank, the
    number of elements, whose dimension [i] is known exactly when element
    [i] is a constant integer.  Any other output gives the shape of unknown
    rank. *)
Theorem extractOutputShape_cases self w g output :
  heap w !! graph_ self = Some g →
  Graph_wf g = true →
  Graph_outputs g = [output] →
  is_int_list (Value_type g output) = true →
  let producer := Value_node g output in
  (kind producer = prim_Constant →
     ∃ int_list, toIValue g output = Some (IV_IntList int_list) ∧
       extractOutputShape self w = (Ok (Some (Some <$> int_list)), w))
  ∧ (kind producer = prim_ListConstruct →
     length (Value_uses g output) = 1%nat →
     ∃ dims, extractOutputShape self w = (Ok (Some dims), w) ∧
       rank (Some dims) = Some (length (inputs producer)) ∧
       ∀ i elem, inputs producer !! i = Some elem →
         (∀ z, toIValue g elem = Some (IV_Int z) → dims !! i = Some (Some z)) ∧
         (toIValue g elem = None → dims !! i = Some None))
  ∧ (kind producer ≠ prim_Constant →
     kind producer ≠ prim_ListConstruct ∨ length (Value_uses g output) ≠ 1%nat →
     extractOutputShape self w = (Ok None, w)).
Proof.
  intros Hg Hwf Hout Hty producer.
  assert (Hrun : extractOutputShape self w =
    (if bool_decide (kind producer = prim_Constant) then
       match toIValue g output with
       | Some (IV_IntList int_list) => mret (SymbolicShape_of_sizes int_list)
       | _ => throw bad_access
       end
     else if bool_decide (kind producer ≠ prim_ListConstruct)
             || negb (bool_decide (length (Value_uses g output) = 1%nat)) then
       mret SymbolicShape_unranked
     else
       mret (SymbolicShape_of_dims (constant_as_int g <$> inputs producer))) w).
  { unfold extractOutputShape.
    rewrite (bind_Ok _ _ _ _ _ (get_graph_Some _ _ _ Hg)).
    rewrite Hout. simpl. rewrite bind_run. simpl. by rewrite Hty. }
  rewrite Hrun. clear Hrun.
  split; [|split].
  - intros Hk. destruct (constant_int_list _ _ Hwf Hk Hty) as (int_list & Hc).
    exists int_list. split; [done|].
    rewrite bool_decide_eq_true_2 by done. by rewrite Hc.
  - intros Hk Huses. rewrite bool_decide_eq_false_2 by (by rewrite Hk).
    rewrite (bool_decide_eq_false_2 (kind producer ≠ prim_ListConstruct)) by tauto.
    rewrite bool_decide_eq_true_2 by done. simpl.
    exists (constant_as_int g <$> inputs producer). split; [done|].
    split; [simpl; by rewrite length_fmap|].
    intros i elem Helem. rewrite list_lookup_fmap, Helem. simpl.
    unfold constant_as_int. split; [by intros z ->| by intros ->].
  - intros Hk Hor. rewrite bool_decide_eq_false_2 by done.
    destruct Hor as [Hn|Hn].
    + by rewrite (bool_decide_eq_true_2 _ Hn).
    + rewrite (bool_decide_eq_false_2 _ Hn). simpl. by rewrite orb_true_r.
Qed.

(** ** Input specialization *)

Lemma isComplete_concrete_sizes ttype :
  isComplete (symbolic_sizes ttype) = true →
  ∃ sizes, symbolic_sizes ttype = Some (Some <$> sizes) ∧
           concrete_sizes ttype = Some sizes.
Proof.
  unfold isComplete, concrete_sizes.
  destruct (symbolic_sizes ttype) as [ds|]; [|done].
  induction ds as [|d ds IH]; simpl.
  - intros _. by exists [].
  - rewrite andb_true_iff. unfold is_static at 1. rewrite bool_decide_eq_true.
    intros [[z ->] Hds]. destruct (IH Hds) as (sizes & [= E1] & E2).
    exists (z :: sizes). split; [by rewrite E1|]. simpl. by rewrite E2.
Qed.

Lemma local_post_bind_post {A B} l (m : M A) (k : A → M B) P Q :
  local_post l m P → (∀ a, P a → local_post l (k a) Q) →
  local_post l (m ≫= k) Q.
Proof.
  intros Hm Hk w g E. destruct (Hm w g E) as (r & g1 & E1 & HP).
  rewrite bind_run, E1. destruct r as [a|e].
  - destruct (Hk a (HP a eq_refl) (set_graph l g1 w) g1 (heap_set_graph _ _ _))
      as (r2 & g2 & E2 & HQ).
    exists r2, g2. by rewrite E2, set_graph_twice.
  - exists (Throw e), g1. split; [done|]. by intros ? [=].
Qed.

(** Replacing program input [i] by a constant, then returning [res]. *)
Lemma local_post_replace_input {A} l i val (res : A) :
  local_post l
    (gi ← Graph_input_at l i; replaceWithIValue gi val;; mret res)
    (λ r, r = res).
Proof.
  eapply local_post_bind_post; [apply local_post_Graph_input_at|].
  intros [? v] [= ->].
  apply local_post_bind; [apply local_replaceWithIValue|].
  intros _. by apply local_post_ret.
Qed.

(** What a step of the constructor's loop adds to the tracked positions. *)
Lemma specialize_input_indices l tl tid i indices w tg tnode g :
  heap w !! tl = Some tg → find_node tg tid = Some tnode →
  heap w !! l = Some g →
  ∃ r g', specialize_input l (tl, tid) i indices w = (r, set_graph l g' w) ∧
    ∀ res, r = Ok res →
      res = indices ++ (if tracked_at tg tnode i then [i] else []).
Proof.
  intros Htg Hn Hg. unfold specialize_input, tracked_at.
  destruct (inputs tnode !! i) as [tv|] eqn:Hin.
  2: { exists (Throw out_of_range), g. rewrite set_graph_same by done.
       split; [|by intros ? [=]].
       by rewrite (bind_Throw _ _ _ _ _
                     (Node_input_out_of_range _ _ _ _ _ _ Htg Hn Hin)). }
  rewrite (bind_Ok _ _ _ _ _ (Node_input_run _ _ _ _ _ _ _ Htg Hn Hin)).
  rewrite (bind_Ok _ _ _ _ _ (type_of_run _ _ _ _ Htg)).
  unfold is_tracked.
  assert (Hsame : ∀ m : M (list nat),
    local_post l m (λ r, r = indices) →
    ∃ r g', m w = (r, set_graph l g' w) ∧ ∀ res, r = Ok res → res = indices ++ []).
  { intros m Hm. destruct (Hm w g Hg) as (r & g' & E & HQ).
    exists r, g'. split; [done|]. intros res Hres. rewrite app_nil_r. eauto. }
  assert (Hconst : local_post l
    (g0 ← get_graph tl;
     match toIValue g0 tv with
     | Some ival => gi ← Graph_input_at l i; replaceWithIValue gi ival;; mret indices
     | None => mret indices
     end) (λ r, r = indices)).
  { apply local_post_bind; [apply local_get_graph|]. intros g0.
    destruct (toIValue g0 tv);
      [apply local_post_replace_input | by apply local_post_ret]. }
  destruct (Value_type tg tv) as [ttype|elem| | | |] eqn:Hty; simpl.
  - destruct (isComplete (symbolic_sizes ttype)) eqn:Hc; simpl.
    + apply Hsame.
      eapply local_post_bind_post; [apply local_post_Graph_input_at|].
      intros [? v] [= ->].
      apply local_post_bind; [apply local_value_of|]. intros sizes.
      apply local_post_bind; [apply local_replaceWithIValue|].
      intros _. by apply local_post_ret.
    + destruct (bool_decide (is_Some (rank (symbolic_sizes ttype)))).
      * exists (Ok (indices ++ [i])), g. rewrite set_graph_same by done.
        split; [done|]. by intros ? [= <-].
      * apply Hsame. by apply local_post_ret.
  - destruct elem; simpl; first [by apply Hsame, Hconst | apply Hsame, local_post_throw].
  - by apply Hsame, Hconst.
  - by apply Hsame, Hconst.
  - by apply Hsame, Hconst.
  - by apply Hsame, Hconst.
Qed.

Lemma for_fold_specialize_input l tl tid tg tnode positions :
  l ≠ tl → find_node tg tid = Some tnode →
  ∀ indices w g,
    heap w !! tl = Some tg → heap w !! l = Some g →
    ∃ r g', for_fold positions indices (specialize_input l (tl, tid)) w
            = (r, set_graph l g' w) ∧
      ∀ res, r = Ok res →
        res = indices ++ filter (λ i, tracked_at tg tnode i = true) positions.
Proof.
  intros Hne Hn. induction positions as [|i positions IH]; intros indices w g Htg Hg.
  - exists (Ok indices), g. simpl. rewrite set_graph_same by done.
    split; [done|]. intros ? [= <-]. by rewrite app_nil_r.
  - simpl. rewrite bind_run.
    destruct (specialize_input_indices l tl tid i indices w tg tnode g Htg Hn Hg)
      as (r & g1 & -> & Hres).
    destruct r as [res1|e].
    + destruct (IH res1 (set_graph l g1 w) g1) as (r2 & g2 & E2 & Hres2).
      { by rewrite heap_set_graph_ne. }
      { apply heap_set_graph. }
      exists r2, g2. rewrite E2, set_graph_twice. split; [done|].
      intros res Hr. rewrite (Hres2 res Hr), (Hres res1 eq_refl).
      rewrite filter_cons. rewrite <- app_assoc. f_equal.
      destruct (tracked_at tg tnode i); case_decide; done.
    + exists (Throw e), g1. split; [done|]. by intros ? [=].
Qed.

Lemma Graph_input_below g i x :
  Graph_wf g = true → Graph_inputs g !! i = Some x → (x < next_unique g)%nat.
Proof.
  intros Hwf Hx.
  destruct (Graph_wf_node g (param_node g) Hwf) as [Hb _];
    [apply list_elem_of_here|].
  apply (names_below_output g (param_node g)); [done|].
  by eapply list_elem_of_lookup_2.
Qed.

(** ** The driver *)

Lemma run_pass_run pass l w g :
  heap w !! l = Some g → run_pass pass l w = (Ok (), set_graph l (pass g) w).
Proof.
  intros E. unfold run_pass.
  by rewrite (bind_Ok _ _ _ _ _ (get_graph_Some _ _ _ E)).
Qed.

Lemma set_graph_inj l g1 g2 w : set_graph l g1 w = set_graph l g2 w → g1 = g2.
Proof.
  intros E. assert (H : heap (set_graph l g1 w) !! l = heap (set_graph l g2 w) !! l)
    by (by rewrite E).
  rewrite !heap_set_graph in H. congruence.
Qed.

Lemma run_result_inj {A} l (r1 r2 : Res A) g1 g2 w :
  (r1, set_graph l g1 w) = (r2, set_graph l g2 w) → r1 = r2 ∧ g1 = g2.
Proof.
  intros E. split; [congruence|]. apply (set_graph_inj l _ _ w). congruence.
Qed.

(** Output extraction only reads. *)
Lemma extractOutputShape_reads self w : snd (extractOutputShape self w) = w.
Proof.
  unfold extractOutputShape. rewrite bind_run. unfold get_graph.
  destruct (heap w !! graph_ self) as [g|]; [|done].
  destruct (negb _); [done|]. rewrite bind_run. unfold vector_at.
  destruct (Graph_outputs g !! 0%nat) as [output|]; [|done].
  change ((mret output : M nat) w) with (Ok output, w).
  repeat case_match; simplify_eq; done.
Qed.

Section rounds.
Context `{Passes}.

Lemma run_round_run self w g :
  ∃ r gs,
    substituteInputTensorProperties self (set_graph (graph_ self) g w)
    = (r, set_graph (graph_ self) gs w)
    ∧ run_round self (set_graph (graph_ self) g w)
      = match r with
        | Ok _ => (Ok (), set_graph (graph_ self) (simplify_passes gs) w)
        | Throw e => (Throw e, set_graph (graph_ self) gs w)
        end.
Proof.
  destruct (local_substituteInputTensorProperties self
              (set_graph (graph_ self) g w) g (heap_set_graph _ _ _))
    as (r & gs & E).
  rewrite set_graph_twice in E. exists r, gs. split; [done|].
  unfold run_round. rewrite bind_run, E. destruct r as [[]|e]; [|done].
  unfold simplify_passes.
  repeat (rewrite bind_run;
          rewrite (run_pass_run _ _ _ _ (heap_set_graph _ _ _));
          rewrite set_graph_twice).
  rewrite (run_pass_run _ _ _ _ (heap_set_graph _ _ _)).
  by rewrite set_graph_twice.
Qed.

Lemma for_each_rounds self w k :
  ∀ s g, ∃ r gk,
    for_each (seq s k) (λ _, run_round self) (set_graph (graph_ self) g w)
    = (r, set_graph (graph_ self) gk w)
    ∧ ∀ g', rounds k self w g g' ↔ r = Ok () ∧ g' = gk.
Proof.
  induction k as [|k IH]; intros s g.
  - exists (Ok ()), g. split; [done|]. intros g'. simpl.
    split; [by intros -> | by intros [_ ->]].
  - simpl. rewrite bind_run.
    destruct (run_round_run self w g) as (r & gs & Es & Er). rewrite Er.
    unfold substituteInputTensorProperties in Es.
    destruct r as [[]|e].
    + destruct (IH (S s) (simplify_passes gs)) as (r2 & gk & -> & Hk).
      exists r2, gk. split; [done|]. intros g'. split.
      * intros (g1 & (gs' & Es' & ->) & Hr).
        rewrite Es in Es'. apply run_result_inj in Es' as [_ <-].
        by apply Hk.
      * intros Hr. exists (simplify_passes gs). split; [by exists gs|].
        by apply Hk.
    + exists (Throw e), gs. split; [done|]. intros g'. split; [|by intros [[=] _]].
      intros (g1 & (gs' & Es' & _) & _). rewrite Es in Es'. done.
Qed.

(** C4.  A run that returns has gone through exactly
    [num_optimization_iters = 6] rounds, whatever the program: a round is
    the loop body, property substitution for every tracked index (the loop
    of [substituteTensorProperties] over [node_input_tensor_indices], in
    order) followed by tuple lowering, list-mutation removal, loop
    unrolling, constant propagation, peephole optimization and constant
    propagation again; after the last round constant pooling and then
    dead-code elimination are applied once, and the shape is extracted from
    the result.  Conversely six such rounds followed by a successful
    extraction make the run return. *)
Theorem run_six_rounds self w g0 :
  heap w !! graph_ self = Some g0 →
  num_optimization_iters = 6%nat
  ∧ (∀ w0, substituteInputTensorProperties self w0
           = for_each (node_input_tensor_indices self)
                      (substituteTensorProperties self) w0)
  ∧ (∀ g g',
       round self w g g' ↔
       ∃ gs,
         for_each (node_input_tensor_indices self)
                  (substituteTensorProperties self)
                  (set_graph (graph_ self) g w)
         = (Ok (), set_graph (graph_ self) gs w) ∧
         run_round self (set_graph (graph_ self) g w)
         = (Ok (), set_graph (graph_ self) g' w) ∧
         g' = ConstantPropagation
                (PeepholeOptimize
                   (ConstantPropagation
                      (UnrollConstantLoops
                         (RemoveListMutation
                            (LowerSimpleTuples gs))))))
  ∧ ∀ shape w',
      run self w = (Ok shape, w') ↔
      ∃ g6, rounds 6 self w g0 g6 ∧
        w' = set_graph (graph_ self) (EliminateDeadCode (ConstantPooling g6)) w ∧
        extractOutputShape self w' = (Ok shape, w').
Proof.
  intros Hg. split; [done|]. split; [done|]. split.
  { intros g g'. destruct (run_round_run self w g) as (r & gs' & Es' & Er).
    unfold substituteInputTensorProperties in Es'.
    split.
    - intros (gs & Es & ->). exists gs. split; [done|]. split; [|done].
      rewrite Es in Es'. apply run_result_inj in Es' as [<- <-]. done.
    - intros (gs & Es & _ & ->). by exists gs. }
  intros shape w'.
  change (run self) with
    (for_each (seq 0 num_optimization_iters) (λ _, run_round self);;
     run_pass ConstantPooling (graph_ self);;
     run_pass EliminateDeadCode (graph_ self);;
     extractOutputShape self).
  rewrite bind_run. rewrite <- (set_graph_same _ _ _ Hg) at 1.
  destruct (for_each_rounds self w num_optimization_iters 0%nat g0)
    as (r & g6 & -> & Hr).
  destruct r as [[]|e].
  - rewrite bind_run, (run_pass_run _ _ _ _ (heap_set_graph _ _ _)), set_graph_twice.
    rewrite bind_run, (run_pass_run _ _ _ _ (heap_set_graph _ _ _)), set_graph_twice.
    pose proof (extractOutputShape_reads self
      (set_graph (graph_ self) (EliminateDeadCode (ConstantPooling g6)) w)) as Hex.
    split.
    + intros Hrun. exists g6. split; [by apply Hr|].
      rewrite Hrun in Hex. simpl in Hex. by subst w'.
    + intros (g6' & Hr' & -> & Hex'). apply Hr in Hr' as [_ ->]. done.
  - split; [done|]. intros (g6' & Hr' & _). by apply Hr in Hr' as [[=] _].
Qed.
End rounds.

(** ** The registry *)

Lemma RegisterOperatorShapeFunction_run l id graph w tg node :
  heap w !! l = Some tg → find_node tg id = Some node →
  RegisterOperatorShapeFunction (l, id) graph w =
  match maybeSchema node with
  | None => (Ok (), w)
  | Some schema =>
      if bool_decide (is_Some (operator_functions w !! schema)) then (Ok (), w)
      else (Ok (), {| heap := heap w;
                      operator_functions := <[schema := graph]> (operator_functions w) |})
  end.
Proof.
  intros Hl Hn. unfold RegisterOperatorShapeFunction.
  rewrite (bind_Ok _ _ _ _ _ (Node_deref_run _ _ _ _ _ Hl Hn)).
  destruct (maybeSchema node) as [schema|]; [|done].
  rewrite bind_run. simpl. by destruct (bool_decide _).
Qed.

(** C5.  Registration is first-write-wins.  Registering a node without a
    schema does nothing.  Registering under a schema that is already in the
    table returns normally and changes nothing.  So after two registrations
    under one schema the second has had no effect: the table holds the
    graph of the first (or the one that was there before both), and
    propagation over any graph behaves as it does after the first alone. *)
Theorem RegisterOperatorShapeFunction_first_write_wins `{Passes}
    w l1 id1 tg1 node1 l2 id2 tg2 node2 :
  heap w !! l1 = Some tg1 → find_node tg1 id1 = Some node1 →
  heap w !! l2 = Some tg2 → find_node tg2 id2 = Some node2 →
  (maybeSchema node1 = None →
     ∀ graph, RegisterOperatorShapeFunction (l1, id1) graph w = (Ok (), w))
  ∧ (∀ schema graph, maybeSchema node1 = Some schema →
       is_Some (operator_functions w !! schema) →
       RegisterOperatorShapeFunction (l1, id1) graph w = (Ok (), w))
  ∧ (∀ schema graph1 graph2,
       maybeSchema node1 = Some schema → maybeSchema node2 = Some schema →
       let w1 := snd (RegisterOperatorShapeFunction (l1, id1) graph1 w) in
       RegisterOperatorShapeFunction (l2, id2) graph2 w1 = (Ok (), w1)
       ∧ (operator_functions w !! schema = None →
          operator_functions w1 !! schema = Some graph1)
       ∧ (∀ graph0, operator_functions w !! schema = Some graph0 →
          operator_functions w1 !! schema = Some graph0)
       ∧ ∀ target,
           PropagateShapesOnGraph target
             (snd (RegisterOperatorShapeFunction (l2, id2) graph2 w1))
           = PropagateShapesOnGraph target w1).
Proof.
  intros Hl1 Hn1 Hl2 Hn2. split; [|split].
  - intros Hs graph.
    rewrite (RegisterOperatorShapeFunction_run _ _ _ _ _ _ Hl1 Hn1). by rewrite Hs.
  - intros schema graph Hs Hin.
    rewrite (RegisterOperatorShapeFunction_run _ _ _ _ _ _ Hl1 Hn1), Hs.
    by rewrite bool_decide_eq_true_2.
  - intros schema graph1 graph2 Hs1 Hs2 w1.
    assert (Hw1 : heap w1 = heap w ∧
      operator_functions w1 !! schema =
        match operator_functions w !! schema with
        | Some graph0 => Some graph0
        | None => Some graph1
        end).
    { subst w1. rewrite (RegisterOperatorShapeFunction_run _ _ _ _ _ _ Hl1 Hn1), Hs1.
      destruct (operator_functions w !! schema) as [graph0|] eqn:E.
      - rewrite bool_decide_eq_true_2 by done. done.
      - rewrite bool_decide_eq_false_2 by (by intros [? ?]). simpl.
        by rewrite lookup_insert_eq. }
    destruct Hw1 as [Hheap Htable].
    assert (Hsecond : RegisterOperatorShapeFunction (l2, id2) graph2 w1 = (Ok (), w1)).
    { rewrite (RegisterOperatorShapeFunction_run l2 id2 graph2 w1 tg2 node2)
        by (by rewrite ?Hheap).
      rewrite Hs2, bool_decide_eq_true_2; [done|].
      rewrite Htable. by destruct (operator_functions w !! schema). }
    split; [done|]. split; [|split].
    + intros E. by rewrite Htable, E.
    + intros graph0 E. by rewrite Htable, E.
    + intros target. by rewrite Hsecond.
Qed.

(** ** Writing the shape onto the node *)

(** C10.  After a successful analysis, the shape is written onto the node
    only when the node has exactly one output and that output has a tensor
    type; the type then keeps everything but the shape.  With no or several
    outputs, or with an output that is not a tensor, the call throws and
    the store is left as it was, although the analysis succeeded. *)
Theorem PropagateShapesWithShapeFunction_needs_one_tensor_output `{Passes}
    tl tid scg w tg tnode shape :
  heap w !! tl = Some tg →
  find_node tg tid = Some tnode →
  fst (analyze (tl, tid) scg w) = Ok shape →
  let result := PropagateShapesWithShapeFunction (tl, tid) scg w in
  (∀ o ttype, outputs tnode = [o] → Value_type tg o = TensorT ttype →
     result = (Ok (), set_graph tl
                        (Value_setType o (TensorT (withSymbolicShapes ttype shape)) tg) w))
  ∧ (length (outputs tnode) ≠ 1%nat → result = (Throw output_arity, w))
  ∧ (∀ o, outputs tnode = [o] → (∀ ttype, Value_type tg o ≠ TensorT ttype) →
     result = (Throw expect_failed, w)).
Proof.
  intros Htl Hn Hshape result.
  assert (Ha : analyze (tl, tid) scg w = (Ok shape, w)).
  { rewrite (surjective_pairing (analyze (tl, tid) scg w)).
    by rewrite Hshape, analyze_restores_store. }
  subst result. unfold PropagateShapesWithShapeFunction.
  rewrite (bind_Ok _ _ _ _ _ Ha). split; [|split].
  - intros o ttype Ho Hty.
    rewrite (bind_Ok _ _ _ _ _ (Node_output_run _ _ _ _ _ _ Htl Hn Ho)).
    rewrite (bind_Ok _ _ _ _ _ (type_of_run _ _ _ _ Htl)).
    rewrite Hty. rewrite (bind_Ok _ _ w ttype w) by done.
    by rewrite (bind_Ok _ _ _ _ _ (get_graph_Some _ _ _ Htl)).
  - intros Hlen. unfold Node_output.
    rewrite bind_run.
    rewrite (bind_Ok _ _ _ _ _ (Node_deref_run _ _ _ _ _ Htl Hn)).
    by destruct (outputs tnode) as [|o [|]].
  - intros o Ho Hty.
    rewrite (bind_Ok _ _ _ _ _ (Node_output_run _ _ _ _ _ _ Htl Hn Ho)).
    rewrite (bind_Ok _ _ _ _ _ (type_of_run _ _ _ _ Htl)).
    destruct (Value_type tg o) as [ttype| | | | |] eqn:E; [by destruct (Hty ttype)|..];
      done.
Qed.

(** ** Analysis and the store *)

(** C9.  The analyzer writes its private copy only.  The constructor puts
    the copy at a location that was not live and writes nowhere else, and
    leaves the store as it was when it throws; a complete analysis leaves
    the whole store (every graph, so the registered shape program and the
    graph of the analysed node, and the table) exactly as it found it. *)
Theorem analysis_writes_private_copy_only `{Passes} n scg w :
  (∀ self w', SymbolicShapeAnalyzer_new n scg w = (Ok self, w') →
     heap w !! graph_ self = None ∧
     operator_functions w' = operator_functions w ∧
     ∀ l, l ≠ graph_ self → heap w' !! l = heap w !! l)
  ∧ (∀ e w', SymbolicShapeAnalyzer_new n scg w = (Throw e, w') → w' = w)
  ∧ snd (analyze n scg w) = w
  ∧ ∀ schema l g,
      operator_functions w !! schema = Some l → heap w !! l = Some g →
      operator_functions (snd (analyze n scg w)) !! schema = Some l ∧
      heap (snd (analyze n scg w)) !! l = Some g.
Proof.
  pose proof (SymbolicShapeAnalyzer_new_store n scg w) as Hnew.
  split; [|split; [|split]].
  - intros self w' E. rewrite E in Hnew. destruct Hnew as (Hfresh & _ & g' & ->).
    split; [done|]. split; [done|]. intros l Hl. by apply heap_set_graph_ne.
  - intros e w' E. by rewrite E in Hnew.
  - apply analyze_restores_store.
  - intros schema l g Ht Hl. by rewrite analyze_restores_store.
Qed.

(** C8.  Analysing the same node with the same shape program a second
    time, in the store the first analysis left, gives the same outcome:
    the same symbolic shape, or the same exception. *)
Theorem analyze_twice `{Passes} n scg w :
  fst (analyze n scg (snd (analyze n scg w))) = fst (analyze n scg w).
Proof. by rewrite analyze_restores_store. Qed.

(** ** Propagation over a graph *)




(** What a call of [PropagateShapesWithShapeFunction] does: it throws and
    leaves the store alone, or it sets the type of the one output. *)
Lemma PropagateShapesWithShapeFunction_cases `{Passes} tl id scg w tg :
  heap w !! tl = Some tg →
  (∃ e, PropagateShapesWithShapeFunction (tl, id) scg w = (Throw e, w))
  ∨ ∃ node o ttype shape,
      find_node tg id = Some node ∧ outputs node = [o] ∧
      Value_type tg o = TensorT ttype ∧
      analyze (tl, id) scg w = (Ok shape, w) ∧
      PropagateShapesWithShapeFunction (tl, id) scg w =
      (Ok (), set_graph tl
                (Value_setType o (TensorT (withSymbolicShapes ttype shape)) tg) w).
Proof.
  intros Htl. unfold PropagateShapesWithShapeFunction. rewrite bind_run.
  pose proof (analyze_restores_store (tl, id) scg w) as Hw.
  destruct (analyze (tl, id) scg w) as [[shape|e] w1] eqn:Ha; simpl in Hw; subst w1;
    [|left; by eexists].
  destruct (find_node tg id) as [node|] eqn:Hn.
  2: { left. exists dangling. unfold Node_output, Node_deref. simpl.
       rewrite !bind_run. unfold get_graph. by rewrite Htl, Hn. }
  destruct (outputs node) as [|o [|]] eqn:Ho.
  1,3: left; exists output_arity; unfold Node_output;
       rewrite bind_run, (bind_Ok _ _ _ _ _ (Node_deref_run _ _ _ _ _ Htl Hn));
       by rewrite Ho.
  rewrite (bind_Ok _ _ _ _ _ (Node_output_run _ _ _ _ _ _ Htl Hn Ho)).
  rewrite (bind_Ok _ _ _ _ _ (type_of_run _ _ _ _ Htl)).
  destruct (Value_type tg o) as [ttype| | | | |] eqn:Hty;
    [|left; by exists expect_failed..].
  right. exists node, o, ttype, shape. repeat (split; [done|]).
  rewrite (bind_Ok _ _ w ttype w) by done.
  by rewrite (bind_Ok _ _ _ _ _ (get_graph_Some _ _ _ Htl)).
Qed.

Lemma propagate_node_run `{Passes} graph n w :
  propagate_node graph n w =
  match registered w n with
  | Some scg => PropagateShapesWithShapeFunction (graph, node_id n) scg w
  | None => (Ok (), w)
  end.
Proof.
  unfold propagate_node, registered.
  destruct (maybeSchema n) as [schema|]; [|done]. simpl.
  rewrite bind_run. simpl. by destruct (operator_functions w !! schema).
Qed.

Lemma same_nodes_find_node g g' id :
  same_nodes g g' → find_node g' id = find_node g id.
Proof.
  intros (Hp & Hb & Hr & _). unfold find_node, all_nodes. by rewrite Hp, Hb, Hr.
Qed.

Lemma withSymbolicShapes_twice ttype s1 s2 :
  withSymbolicShapes (withSymbolicShapes ttype s1) s2 = withSymbolicShapes ttype s2.
Proof. reflexivity. Qed.

Lemma registered_same_table w w' n :
  operator_functions w' = operator_functions w → registered w' n = registered w n.
Proof. intros E. unfold registered. by rewrite E. Qed.

Lemma propagate_node_propagated `{Passes} graph w g n wk r w' :
  n ∈ Graph_nodes g →
  propagated graph w wk g →
  propagate_node graph n wk = (r, w') →
  propagated graph w w' g.
Proof.
  intros Hn (Ht & Hother & gk & Hgk & Hsame & Htypes).
  rewrite propagate_node_run, (registered_same_table w wk n Ht).
  destruct (registered w n) as [scg|] eqn:Hreg.
  2: { intros [= <- <-]. split; [done|]. split; [done|]. by exists gk. }
  destruct (PropagateShapesWithShapeFunction_cases graph (node_id n) scg wk gk Hgk)
    as [[e ->]|(node & o & ttype & shape & Hnode & Ho & Hty & _ & ->)].
  { intros [= <- <-]. split; [done|]. split; [done|]. by exists gk. }
  intros [= <- <-]. split; [done|]. split.
  { intros l Hl. rewrite heap_set_graph_ne by done. by apply Hother. }
  eexists. split; [apply heap_set_graph|]. split; [done|].
  intros v. destruct (decide (v = o)) as [->|Hv].
  - right. rewrite (same_nodes_find_node _ _ _ Hsame) in Hnode.
    assert (Hnew : ∀ g0, Value_type
              (Value_setType o (TensorT (withSymbolicShapes ttype shape)) g0) o
              = TensorT (withSymbolicShapes ttype shape)).
    { intros g0. unfold Value_type, Value_setType. simpl. by rewrite lookup_insert_eq. }
    destruct (Htypes o) as [Hold|(n0 & node0 & scg0 & ttype0 & shape0 & ? & ? & ? & ? & ? & Hw)].
    + exists n, node, scg, ttype, shape. rewrite Hnew.
      repeat (split; [done|]). split; [congruence|done].
    + exists n0, node0, scg0, ttype0, shape. rewrite Hnew.
      repeat (split; [done|]).
      rewrite Hw in Hty. injection Hty as <-. done.
  - assert (Hkeep : Value_type
              (Value_setType o (TensorT (withSymbolicShapes ttype shape)) gk) v
              = Value_type gk v).
    { unfold Value_type, Value_setType. simpl. by rewrite lookup_insert_ne. }
    destruct (Htypes v) as [Hold|(n0 & node0 & scg0 & ttype0 & shape0 & ? & ? & ? & ? & ? & Hw)].
    + left. congruence.
    + right. exists n0, node0, scg0, ttype0, shape0. rewrite Hkeep. done.
Qed.

Lemma for_each_propagated `{Passes} graph w g xs :
  (∀ n, n ∈ xs → n ∈ Graph_nodes g) →
  ∀ wk r w',
    propagated graph w wk g →
    for_each xs (propagate_node graph) wk = (r, w') →
    propagated graph w w' g.
Proof.
  induction xs as [|n xs IH]; intros Hxs wk r w' Hk; simpl.
  - by intros [= <- <-].
  - rewrite bind_run.
    destruct (propagate_node graph n wk) as [[[]|e] w1] eqn:E.
    + apply IH; [intros; apply Hxs; by right|].
      eapply propagate_node_propagated; [|done|done]. apply Hxs. by left.
    + intros [= <- <-].
      eapply propagate_node_propagated; [|done|done]. apply Hxs. by left.
Qed.

Lemma propagated_refl graph w g : heap w !! graph = Some g → propagated graph w w g.
Proof.
  intros Hg. split; [done|]. split; [done|]. exists g. split; [done|].
  split; [done|]. by left.
Qed.



(** ** When the analysis throws *)

Lemma analysis_inv_replace_by_constant N v val g :
  analysis_inv N g → analysis_inv N (replace_by_constant v val g).
Proof.
  intros [Hwf Hn]. split; [by apply Graph_wf_replace_by_constant|done].
Qed.

(** A step of the constructor's loop throws exactly on a list of tensors. *)
Lemma specialize_input_ok l tl tid tg tnode i indices w g :
  heap w !! tl = Some tg → find_node tg tid = Some tnode →
  heap w !! l = Some g →
  analysis_inv (length (inputs tnode)) g →
  (i < length (inputs tnode))%nat →
  if tensor_list_at tg tnode i then
    specialize_input l (tl, tid) i indices w = (Throw internal_assert_tensor_list, w)
  else
    ∃ g', specialize_input l (tl, tid) i indices w
          = (Ok (indices ++ (if tracked_at tg tnode i then [i] else [])),
             set_graph l g' w)
          ∧ analysis_inv (length (inputs tnode)) g'.
Proof.
  intros Htg Hn Hg Hinv Hi.
  destruct (lookup_lt_is_Some_2 (inputs tnode) i Hi) as [tv Hin].
  destruct (lookup_lt_is_Some_2 (Graph_inputs g) i) as [x Hx];
    [destruct Hinv; lia|].
  unfold tensor_list_at, tracked_at. rewrite Hin.
  unfold specialize_input.
  rewrite (bind_Ok _ _ _ _ _ (Node_input_run _ _ _ _ _ _ _ Htg Hn Hin)).
  rewrite (bind_Ok _ _ _ _ _ (type_of_run _ _ _ _ Htg)).
  assert (Hreplace : ∀ val,
    ∃ g', (gi ← Graph_input_at l i; replaceWithIValue gi val;; mret indices) w
          = (Ok (indices ++ []), set_graph l g' w)
          ∧ analysis_inv (length (inputs tnode)) g').
  { intros val. exists (replace_by_constant x val g).
    split; [|by apply analysis_inv_replace_by_constant].
    rewrite (bind_Ok _ _ _ _ _ (Graph_input_at_run _ _ _ _ _ Hg Hx)).
    rewrite (bind_Ok _ _ _ _ _ (replaceWithIValue_run _ _ _ _ _ Hg)).
    by rewrite app_nil_r. }
  assert (Hkeep : ∀ res, ∃ g', (mret res : M (list nat)) w = (Ok res, set_graph l g' w)
                    ∧ analysis_inv (length (inputs tnode)) g').
  { intros res. exists g. by rewrite set_graph_same. }
  assert (Hconst : ∃ g',
    (g0 ← get_graph tl;
     match toIValue g0 tv with
     | Some ival => gi ← Graph_input_at l i; replaceWithIValue gi ival;; mret indices
     | None => mret indices
     end) w = (Ok (indices ++ []), set_graph l g' w)
    ∧ analysis_inv (length (inputs tnode)) g').
  { rewrite (bind_Ok _ _ _ _ _ (get_graph_Some _ _ _ Htg)).
    destruct (toIValue tg tv); [apply Hreplace|]. rewrite app_nil_r. apply Hkeep. }
  unfold is_tracked.
  destruct (Value_type tg tv) as [ttype|elem| | | |] eqn:Hty; simpl.
  - destruct (isComplete (symbolic_sizes ttype)) eqn:Hc; simpl.
    + destruct (isComplete_concrete_sizes _ Hc) as (sizes & _ & Hcs).
      exists (replace_by_constant x (IV_IntList sizes) g).
      split; [|by apply analysis_inv_replace_by_constant].
      rewrite (bind_Ok _ _ _ _ _ (Graph_input_at_run _ _ _ _ _ Hg Hx)).
      rewrite Hcs. simpl value_of. rewrite (bind_Ok _ _ w sizes w) by done.
      rewrite (bind_Ok _ _ _ _ _ (replaceWithIValue_run _ _ _ _ _ Hg)).
      by rewrite app_nil_r.
    + destruct (bool_decide (is_Some (rank (symbolic_sizes ttype)))).
      * apply Hkeep.
      * rewrite app_nil_r. apply Hkeep.
  - destruct elem; simpl; first [done | apply Hconst].
  - apply Hconst.
  - apply Hconst.
  - apply Hconst.
  - apply Hconst.
Qed.

Lemma for_fold_specialize_ok l tl tid tg tnode positions :
  l ≠ tl → find_node tg tid = Some tnode →
  Forall (λ i, i < length (inputs tnode))%nat positions →
  ∀ indices w g,
    heap w !! tl = Some tg → heap w !! l = Some g →
    analysis_inv (length (inputs tnode)) g →
    ∃ g', analysis_inv (length (inputs tnode)) g' ∧
      for_fold positions indices (specialize_input l (tl, tid)) w =
      (if existsb (tensor_list_at tg tnode) positions
       then Throw internal_assert_tensor_list
       else Ok (indices ++ filter (λ i, tracked_at tg tnode i = true) positions),
       set_graph l g' w).
Proof.
  intros Hne Hn Hpos. induction Hpos as [|i positions Hi Hpos IH];
    intros indices w g Htg Hg Hinv.
  - exists g. simpl. rewrite set_graph_same, app_nil_r by done. done.
  - simpl. rewrite bind_run.
    pose proof (specialize_input_ok l tl tid tg tnode i indices w g
                  Htg Hn Hg Hinv Hi) as Hstep.
    destruct (tensor_list_at tg tnode i) eqn:Etl; simpl.
    + rewrite Hstep. exists g. by rewrite set_graph_same.
    + destruct Hstep as (g1 & -> & Hinv1).
      destruct (IH (indices ++ (if tracked_at tg tnode i then [i] else []))
                  (set_graph l g1 w) g1) as (g2 & Hinv2 & ->).
      { by rewrite heap_set_graph_ne. }
      { apply heap_set_graph. }
      { done. }
      exists g2. split; [done|]. rewrite set_graph_twice. f_equal.
      destruct (existsb _ positions); [done|]. f_equal.
      rewrite filter_cons, <- app_assoc. f_equal.
      destruct (tracked_at tg tnode i); case_decide; done.
Qed.

Lemma find_is_Some {A} (f : A → bool) (l : list A) x :
  x ∈ l → f x = true → is_Some (find f l).
Proof.
  intros Hx Hf. induction l as [|y l IH]; [by apply not_elem_of_nil in Hx|].
  simpl. destruct (f y) eqn:E; [done|].
  apply elem_of_cons in Hx as [->|Hx]; [congruence | by apply IH].
Qed.

Lemma find_node_is_Some g id :
  is_Some (find_node g id) ↔ ∃ n, n ∈ all_nodes g ∧ node_id n = id.
Proof.
  split.
  - intros [n Hn]. exists n. by apply find_node_elem_of.
  - intros (n & Hin & Hid). unfold find_node.
    apply (find_is_Some _ _ n); [done | by apply bool_decide_eq_true].
Qed.

(** [replaceWithIValue] keeps every node, with its identity. *)
Lemma find_node_replace_by_constant v val g id :
  is_Some (find_node g id) → is_Some (find_node (replace_by_constant v val g) id).
Proof.
  rewrite !find_node_is_Some. intros (n & Hin & Hid).
  exists (Node_replace_input v (next_unique g) n). split; [|done].
  rewrite all_nodes_replace_by_constant. unfold all_nodes in Hin.
  apply elem_of_cons in Hin as [->|Hin]; [apply list_elem_of_here|].
  do 2 apply list_elem_of_further.
  apply elem_of_app in Hin as [Hin|Hin]; apply elem_of_app.
  - left. by apply list_elem_of_fmap_2.
  - right. apply list_elem_of_singleton in Hin as ->. apply list_elem_of_here.
Qed.

Lemma elem_of_concat_fmap {A B} (f : A → list B) (l : list A) y :
  y ∈ concat (f <$> l) → ∃ x, x ∈ l ∧ y ∈ f x.
Proof.
  induction l as [|x l IH]; simpl; [by intros ?%not_elem_of_nil|].
  rewrite elem_of_app. intros [Hy|Hy].
  - exists x. split; [apply list_elem_of_here|done].
  - destruct (IH Hy) as (x' & Hx' & Hy'). exists x'. split; [by right|done].
Qed.

Lemma Value_uses_user g x use :
  use ∈ Value_uses g x → is_Some (find_node g (user use)).
Proof.
  unfold Value_uses. intros (n & Hn & Huse)%elem_of_concat_fmap.
  unfold node_uses in Huse. apply list_elem_of_fmap in Huse as (off & -> & _).
  apply find_node_is_Some. by exists n.
Qed.

(** On a well-formed program a step of property substitution returns, and
    keeps the program well formed. *)
Lemma substitute_use_ok N self ds use w g :
  heap w !! graph_ self = Some g →
  analysis_inv N g →
  is_Some (find_node g (user use)) →
  ∃ g', substitute_use self ds use w = (Ok (), set_graph (graph_ self) g' w)
        ∧ analysis_inv N g'
        ∧ ∀ id, is_Some (find_node g id) → is_Some (find_node g' id).
Proof.
  intros Hg Hinv [node Hnode].
  destruct (find_node_elem_of _ _ _ Hnode) as [Helem _].
  assert (Hkeep : ∃ g', (mret () : M unit) w = (Ok (), set_graph (graph_ self) g' w)
                   ∧ analysis_inv N g'
                   ∧ ∀ id, is_Some (find_node g id) → is_Some (find_node g' id)).
  { exists g. by rewrite set_graph_same. }
  assert (Hreplace : ∀ out val, outputs node = [out] →
    ∃ g', (out ← Node_output (graph_ self, user use); replaceWithIValue out val) w
          = (Ok (), set_graph (graph_ self) g' w)
          ∧ analysis_inv N g'
          ∧ ∀ id, is_Some (find_node g id) → is_Some (find_node g' id)).
  { intros out val Hout. exists (replace_by_constant out val g).
    rewrite (bind_Ok _ _ _ _ _ (Node_output_run _ _ _ _ _ _ Hg Hnode Hout)).
    split; [by apply replaceWithIValue_run|].
    split; [by apply analysis_inv_replace_by_constant|].
    intros id. apply find_node_replace_by_constant. }
  unfold substitute_use.
  rewrite (bind_Ok _ _ _ _ _ (Node_deref_run _ _ _ _ _ Hg Hnode)).
  destruct Hinv as [Hwf HN].
  destruct (kind node) eqn:Hk; try apply Hkeep.
  - destruct (Graph_wf_len_output _ _ Hwf Helem Hk) as (out & Hout & _).
    apply (Hreplace out _ Hout).
  - destruct (Graph_wf_getitem _ _ Hwf Helem Hk) as (out & iv & Hout & _ & Hiv).
    rewrite (bind_Ok _ _ _ _ _ (vector_at_run _ _ _ _ Hiv)).
    rewrite (bind_Ok _ _ _ _ _ (get_graph_Some _ _ _ Hg)).
    destruct (constant_as_int g iv) as [index|]; [|apply Hkeep].
    destruct (normIndex index (Z.of_nat (length ds))) as [norm_index|] eqn:En;
      [|apply Hkeep].
    apply normIndex_in_range in En; [|lia].
    destruct (lookup_lt_is_Some_2 ds (Z.to_nat norm_index)) as [d Hd]; [lia|].
    rewrite (bind_Ok _ _ _ _ _ (vector_at_run _ _ _ _ Hd)).
    destruct d as [static_size|]; [apply (Hreplace out _ Hout) | apply Hkeep].
Qed.

Lemma for_each_substitute_use_ok N self ds uses :
  ∀ w g,
    heap w !! graph_ self = Some g →
    analysis_inv N g →
    Forall (λ use, is_Some (find_node g (user use))) uses →
    ∃ g', for_each uses (substitute_use self ds) w
          = (Ok (), set_graph (graph_ self) g' w)
          ∧ analysis_inv N g'.
Proof.
  induction uses as [|use uses IH]; intros w g Hg Hinv Huses.
  - exists g. simpl. by rewrite set_graph_same.
  - apply Forall_cons in Huses as [Huse Huses]. simpl. rewrite bind_run.
    destruct (substitute_use_ok N self ds use w g Hg Hinv Huse)
      as (g1 & -> & Hinv1 & Hkeep).
    destruct (IH (set_graph (graph_ self) g1 w) g1) as (g2 & -> & Hinv2).
    { apply heap_set_graph. }
    { done. }
    { eapply Forall_impl; [done|]. intros u. apply Hkeep. }
    exists g2. by rewrite set_graph_twice.
Qed.

Lemma tracked_at_inv tg tnode i :
  tracked_at tg tnode i = true →
  ∃ tv ttype ds, inputs tnode !! i = Some tv ∧
    Value_type tg tv = TensorT ttype ∧ symbolic_sizes ttype = Some ds.
Proof.
  unfold tracked_at, is_tracked.
  destruct (inputs tnode !! i) as [tv|] eqn:Hin; [|done].
  destruct (Value_type tg tv) as [ttype| | | | |] eqn:Hty; try done.
  rewrite andb_true_iff, bool_decide_eq_true. intros [_ [r Hr]].
  destruct (symbolic_sizes ttype) as [ds|] eqn:E; [|done].
  by exists tv, ttype, ds.
Qed.

Lemma substituteTensorProperties_ok self i tl tid tg tnode w g :
  node_ self = (tl, tid) →
  heap w !! tl = Some tg → find_node tg tid = Some tnode →
  tracked_at tg tnode i = true →
  heap w !! graph_ self = Some g →
  analysis_inv (length (inputs tnode)) g →
  ∃ g', substituteTensorProperties self i w = (Ok (), set_graph (graph_ self) g' w)
        ∧ analysis_inv (length (inputs tnode)) g'.
Proof.
  intros Hself Htg Hn Htr Hg Hinv.
  destruct (tracked_at_inv _ _ _ Htr) as (tv & ttype & ds & Hin & Hty & Hds).
  destruct (lookup_lt_is_Some_2 (Graph_inputs g) i) as [x Hx].
  { apply lookup_lt_Some in Hin. destruct Hinv. lia. }
  rewrite (substituteTensorProperties_loop self i w tl tid tg tnode tv ttype ds g x)
    by done.
  apply (for_each_substitute_use_ok _ self ds _ w g); [done..|].
  apply Forall_forall. intros use. apply Value_uses_user.
Qed.

Lemma substituteInputTensorProperties_ok self tl tid tg tnode :
  node_ self = (tl, tid) → graph_ self ≠ tl →
  find_node tg tid = Some tnode →
  Forall (λ i, tracked_at tg tnode i = true) (node_input_tensor_indices self) →
  ∀ w g,
    heap w !! tl = Some tg →
    heap w !! graph_ self = Some g →
    analysis_inv (length (inputs tnode)) g →
    ∃ g', substituteInputTensorProperties self w
          = (Ok (), set_graph (graph_ self) g' w)
          ∧ analysis_inv (length (inputs tnode)) g'.
Proof.
  intros Hself Hne Hn. unfold substituteInputTensorProperties.
  induction 1 as [|i indices Hi Hrest IH]; intros w g Htg Hg Hinv.
  - exists g. simpl. by rewrite set_graph_same.
  - simpl. rewrite bind_run.
    destruct (substituteTensorProperties_ok self i tl tid tg tnode w g)
      as (g1 & -> & Hinv1); [done..|].
    destruct (IH (set_graph (graph_ self) g1 w) g1) as (g2 & -> & Hinv2).
    { by rewrite heap_set_graph_ne. }
    { apply heap_set_graph. }
    { done. }
    exists g2. by rewrite set_graph_twice.
Qed.

(** On a well-formed program output extraction throws exactly when its
    assertions fail. *)
Lemma extractOutputShape_ok self w g :
  heap w !! graph_ self = Some g → Graph_wf g = true →
  if output_ok g then ∃ shape, extractOutputShape self w = (Ok shape, w)
  else extractOutputShape self w = (Throw internal_assert_outputs, w).
Proof.
  intros Hg Hwf. unfold output_ok, extractOutputShape.
  rewrite (bind_Ok _ _ _ _ _ (get_graph_Some _ _ _ Hg)).
  destruct (Graph_outputs g) as [|output [|]] eqn:Hout; simpl; [done| |done].
  rewrite bind_run. simpl.
  destruct (is_int_list (Value_type g output)) eqn:Hty; simpl; [|done].
  case_bool_decide as Hk.
  - destruct (constant_int_list _ _ Hwf Hk Hty) as (int_list & ->). by eexists.
  - destruct (_ || _); by eexists.
Qed.

Lemma analysis_inv_pass N pass g :
  preserves_wf pass → analysis_inv N g → analysis_inv N (pass g).
Proof.
  intros Hp [Hwf HN]. destruct (Hp g Hwf) as [Hwf' Hlen].
  split; [done|]. by rewrite Hlen.
Qed.

Section abort.
Context `{Passes}.

Context (Hpasses : passes_well_behaved).
Context (self : SymbolicShapeAnalyzer) (tl : positive) (tid : nat).
Context (tg : Graph) (tnode : Node).
Context (Hself : node_ self = (tl, tid)) (Hne : graph_ self ≠ tl).
Context (Hn : find_node tg tid = Some tnode).
Context (Htracked : Forall (λ i, tracked_at tg tnode i = true)
                           (node_input_tensor_indices self)).

Lemma simplify_passes_inv g :
  analysis_inv (length (inputs tnode)) g →
  analysis_inv (length (inputs tnode)) (simplify_passes g).
Proof.
  destruct Hpasses as (? & ? & ? & ? & ? & ? & ?).
  intros Hinv. unfold simplify_passes. by repeat apply analysis_inv_pass.
Qed.

Lemma run_round_ok w g :
  heap w !! tl = Some tg → heap w !! graph_ self = Some g →
  analysis_inv (length (inputs tnode)) g →
  ∃ g', run_round self w = (Ok (), set_graph (graph_ self) g' w)
        ∧ analysis_inv (length (inputs tnode)) g'.
Proof.
  intros Htg Hg Hinv.
  destruct (substituteInputTensorProperties_ok self tl tid tg tnode
              Hself Hne Hn Htracked w g Htg Hg Hinv) as (gs & Es & Hinvs).
  destruct (run_round_run self w g) as (r & gs' & Es' & Er).
  rewrite (set_graph_same _ _ _ Hg) in Es', Er. rewrite Es in Es'.
  apply run_result_inj in Es' as [<- <-].
  exists (simplify_passes gs). split; [done|]. by apply simplify_passes_inv.
Qed.

Lemma for_each_run_round_ok k :
  ∀ s w g,
    heap w !! tl = Some tg → heap w !! graph_ self = Some g →
    analysis_inv (length (inputs tnode)) g →
    ∃ g', for_each (seq s k) (λ _, run_round self) w
          = (Ok (), set_graph (graph_ self) g' w)
          ∧ analysis_inv (length (inputs tnode)) g'.
Proof.
  induction k as [|k IH]; intros s w g Htg Hg Hinv.
  - exists g. simpl. by rewrite set_graph_same.
  - simpl. rewrite bind_run.
    destruct (run_round_ok w g Htg Hg Hinv) as (g1 & -> & Hinv1).
    destruct (IH (S s) (set_graph (graph_ self) g1 w) g1) as (g2 & -> & Hinv2).
    { by rewrite heap_set_graph_ne. }
    { apply heap_set_graph. }
    { done. }
    exists g2. by rewrite set_graph_twice.
Qed.

(** A run on a well-formed program throws only from the assertions of
    output extraction. *)
Lemma run_ok w g :
  heap w !! tl = Some tg → heap w !! graph_ self = Some g →
  analysis_inv (length (inputs tnode)) g →
  ∃ simplified,
    snd (run self w) = set_graph (graph_ self) simplified w ∧
    if output_ok simplified then ∃ shape, fst (run self w) = Ok shape
    else fst (run self w) = Throw internal_assert_outputs.
Proof.
  intros Htg Hg Hinv.
  change (run self) with
    (for_each (seq 0 num_optimization_iters) (λ _, run_round self);;
     run_pass ConstantPooling (graph_ self);;
     run_pass EliminateDeadCode (graph_ self);;
     extractOutputShape self).
  rewrite bind_run.
  destruct (for_each_run_round_ok num_optimization_iters 0%nat w g Htg Hg Hinv)
    as (g6 & -> & Hinv6).
  rewrite bind_run, (run_pass_run _ _ _ _ (heap_set_graph _ _ _)), set_graph_twice.
  rewrite bind_run, (run_pass_run _ _ _ _ (heap_set_graph _ _ _)), set_graph_twice.
  exists (EliminateDeadCode (ConstantPooling g6)).
  assert (Hinvf : analysis_inv (length (inputs tnode))
                    (EliminateDeadCode (ConstantPooling g6))).
  { destruct Hpasses as (? & ? & ? & ? & ? & ? & ?).
    by repeat apply analysis_inv_pass. }
  pose proof (extractOutputShape_ok self
    (set_graph (graph_ self) (EliminateDeadCode (ConstantPooling g6)) w)
    _ (heap_set_graph _ _ _) (proj1 Hinvf)) as Hex.
  destruct (output_ok _).
  - destruct Hex as [shape ->]. split; [done|]. by exists shape.
  - by rewrite Hex.
Qed.
End abort.

(** The constructor on a well-formed shape program with enough inputs:
    it throws exactly when some input of the node is a list of tensors. *)
Lemma SymbolicShapeAnalyzer_new_ok tl tid scg w tg tnode sg :
  heap w !! tl = Some tg → find_node tg tid = Some tnode →
  heap w !! scg = Some sg →
  analysis_inv (length (inputs tnode)) sg →
  if existsb (tensor_list_at tg tnode) (seq 0 (length (inputs tnode))) then
    SymbolicShapeAnalyzer_new (tl, tid) scg w = (Throw internal_assert_tensor_list, w)
  else
    ∃ l g', heap w !! l = None ∧ analysis_inv (length (inputs tnode)) g' ∧
      SymbolicShapeAnalyzer_new (tl, tid) scg w =
      (Ok {| node_input_tensor_indices :=
               filter (λ i, tracked_at tg tnode i = true)
                      (seq 0 (length (inputs tnode)));
             graph_ := l; node_ := (tl, tid) |},
       set_graph l g' w).
Proof.
  intros Htg Hn Hsg Hinv. unfold SymbolicShapeAnalyzer_new.
  rewrite (bind_Ok _ _ _ _ _ (get_graph_Some _ _ _ Hsg)). rewrite bind_run.
  destruct (new_graph_fresh (Graph_copy sg) w) as (l & Hl & ->).
  assert (Hne : l ≠ tl) by congruence.
  unfold on_throw. rewrite bind_run.
  rewrite (Node_deref_run tl tid _ tg tnode) by (by rewrite ?heap_set_graph_ne).
  rewrite bind_run.
  destruct (for_fold_specialize_ok l tl tid tg tnode
              (seq 0 (length (inputs tnode))) Hne Hn) with
    (indices := @nil nat) (w := set_graph l (Graph_copy sg) w) (g := Graph_copy sg)
    as (g' & Hinv' & ->).
  { apply Forall_forall. intros i Hi%elem_of_seq. lia. }
  { by rewrite heap_set_graph_ne. }
  { apply heap_set_graph. }
  { done. }
  rewrite set_graph_twice.
  destruct (existsb _ _).
  - by rewrite delete_new_graph.
  - exists l, g'. done.
Qed.

(** C7.  With passes that keep programs well formed, a well-formed shape
    program and a program input for every input of the node, the analysis
    throws in two cases only, both internal assertions.  When an input of
    the node is a list of tensors, the constructor throws.  Otherwise the
    constructor returns and the run reaches output extraction on the
    simplified program: the analysis returns a shape when that program has
    exactly one output, of integer-list type, and throws from the
    assertions of output extraction when it has not.  In every case the
    store is as before. *)
Theorem analyze_aborts_only_on_assertions `{Passes} tl tid scg w tg tnode sg :
  passes_well_behaved →
  heap w !! tl = Some tg →
  find_node tg tid = Some tnode →
  heap w !! scg = Some sg →
  Graph_wf sg = true →
  (length (inputs tnode) ≤ length (Graph_inputs sg))%nat →
  ((∃ i v, inputs tnode !! i = Some v ∧ is_tensor_list (Value_type tg v) = true) →
     analyze (tl, tid) scg w = (Throw internal_assert_tensor_list, w))
  ∧ ((∀ i v, inputs tnode !! i = Some v → is_tensor_list (Value_type tg v) = false) →
     ∃ self w1 simplified,
       SymbolicShapeAnalyzer_new (tl, tid) scg w = (Ok self, w1) ∧
       snd (run self w1) = set_graph (graph_ self) simplified w1 ∧
       (output_ok simplified = true →
          ∃ shape, analyze (tl, tid) scg w = (Ok shape, w)) ∧
       (output_ok simplified = false →
          analyze (tl, tid) scg w = (Throw internal_assert_outputs, w))).
Proof.
  intros Hpasses Htg Hn Hsg Hwf Hlen.
  pose proof (SymbolicShapeAnalyzer_new_ok tl tid scg w tg tnode sg
                Htg Hn Hsg (conj Hwf Hlen)) as Hnew.
  split.
  - intros (i & v & Hin & Hv).
    assert (E : existsb (tensor_list_at tg tnode) (seq 0 (length (inputs tnode))) = true).
    { apply existsb_exists. exists i. split.
      - apply list_elem_of_In, elem_of_seq. apply lookup_lt_Some in Hin. lia.
      - unfold tensor_list_at. by rewrite Hin. }
    rewrite E in Hnew. unfold analyze. by rewrite (bind_Throw _ _ _ _ _ Hnew).
  - intros Hnone.
    assert (E : existsb (tensor_list_at tg tnode) (seq 0 (length (inputs tnode))) = false).
    { apply not_true_is_false. intros (i & _ & Hi)%existsb_exists.
      unfold tensor_list_at in Hi.
      destruct (inputs tnode !! i) as [v|] eqn:Hin; [|done].
      by rewrite (Hnone i v Hin) in Hi. }
    rewrite E in Hnew. destruct Hnew as (l & g' & Hl & Hinv & Hnew).
    set (self := {| node_input_tensor_indices :=
                      filter (λ i, tracked_at tg tnode i = true)
                             (seq 0 (length (inputs tnode)));
                    graph_ := l; node_ := (tl, tid) |}) in *.
    destruct (run_ok Hpasses self tl tid tg tnode eq_refl) with
      (w := set_graph l g' w) (g := g') as (simplified & Hw & Hr).
    { simpl. congruence. }
    { done. }
    { simpl. apply Forall_forall. by intros i [Hi _]%list_elem_of_filter. }
    { rewrite heap_set_graph_ne by (simpl; congruence). done. }
    { apply heap_set_graph. }
    { done. }
    exists self, (set_graph l g' w), simplified.
    split; [done|]. split; [done|].
    assert (Ha : analyze (tl, tid) scg w = (fst (run self (set_graph l g' w)), w)).
    { unfold analyze. rewrite (bind_Ok _ _ _ _ _ Hnew).
      unfold finally, SymbolicShapeAnalyzer_delete.
      rewrite (surjective_pairing (run self (set_graph l g' w))), Hw.
      simpl fst. rewrite set_graph_twice. by rewrite delete_new_graph. }
    rewrite Ha. split; intros Ho; rewrite Ho in Hr.
    + destruct Hr as [shape ->]. by exists shape.
    + by rewrite Hr.
Qed.

(** ** The example of the design document *)

(** Without simplification passes the analysis of the example finds three
    of the four sizes: [x[2] + 1] is not folded. *)
Example example_analysis :
  @analyze no_passes (1%positive, 1%nat) 2%positive example_world
  = (Ok (Some [Some 1; Some 2; None; Some 7]), example_world).
Proof. vm_compute. reflexivity. Qed.

(** With the folding pass the analysis finds all four sizes. *)
Example example_analysis_folded :
  @analyze folding_passes (1%positive, 1%nat) 2%positive example_world
  = (Ok (Some [Some 1; Some 2; Some 6; Some 7]), example_world).
Proof. vm_compute. reflexivity. Qed.

(** When the list is used a second time the rank is not reported. *)
Example example_analysis_reused :
  @analyze folding_passes (1%positive, 1%nat) 2%positive example_world_reused
  = (Ok None, example_world_reused).
Proof. vm_compute. reflexivity. Qed.

(** A list of tensors among the inputs makes the constructor throw. *)
Example example_analysis_tensor_list :
  @analyze no_passes (1%positive, 1%nat) 2%positive
     {| heap := {[ 1%positive := tensor_list_graph;
                   2%positive := example_shape_program ]};
        operator_functions := ∅ |}
  = (Throw internal_assert_tensor_list,
     {| heap := {[ 1%positive := tensor_list_graph;
                   2%positive := example_shape_program ]};
        operator_functions := ∅ |}).
Proof. vm_compute. reflexivity. Qed.

(** A program with two outputs fails the assertion of output extraction. *)
Example example_analysis_two_outputs :
  @analyze no_passes (1%positive, 1%nat) 2%positive
     {| heap := {[ 1%positive := example_graph;
                   2%positive := two_output_shape_program ]};
        operator_functions := ∅ |}
  = (Throw internal_assert_outputs,
     {| heap := {[ 1%positive := example_graph;
                   2%positive := two_output_shape_program ]};
        operator_functions := ∅ |}).
Proof. vm_compute. reflexivity. Qed.

Lemma substituteTensorProperties_rewrites_witness :
  node_ example_analyzer = (1%positive, 1%nat) ∧
  heap example_world !! 1%positive = Some example_graph ∧
  find_node example_graph 1 = Some example_node ∧
  inputs example_node !! 0%nat = Some 0%nat ∧
  Value_type example_graph 0 = TensorT example_tensor ∧
  symbolic_sizes example_tensor = Some example_dims ∧
  heap example_world !! graph_ example_analyzer = Some example_shape_program ∧
  Graph_inputs example_shape_program !! 0%nat = Some 0%nat ∧
  Z.of_nat (length example_dims) < 2 ^ 63 ∧
  substituteTensorProperties example_analyzer 0 example_world =
  for_each (Value_uses example_shape_program 0)
           (substitute_use example_analyzer example_dims) example_world.
Proof.
  assert (H1 : node_ example_analyzer = (1%positive, 1%nat)) by reflexivity.
  assert (H2 : heap example_world !! 1%positive = Some example_graph) by reflexivity.
  assert (H3 : find_node example_graph 1 = Some example_node) by reflexivity.
  assert (H4 : inputs example_node !! 0%nat = Some 0%nat) by reflexivity.
  assert (H5 : Value_type example_graph 0 = TensorT example_tensor) by reflexivity.
  assert (H6 : symbolic_sizes example_tensor = Some example_dims) by reflexivity.
  assert (H7 : heap example_world !! graph_ example_analyzer
               = Some example_shape_program) by reflexivity.
  assert (H8 : Graph_inputs example_shape_program !! 0%nat = Some 0%nat) by reflexivity.
  assert (H9 : Z.of_nat (length example_dims) < 2 ^ 63) by reflexivity.
  repeat (split; [assumption|]).
  exact (proj1 (substituteTensorProperties_rewrites
                  example_analyzer 0 example_world 1%positive 1%nat example_graph
                  example_node 0%nat example_tensor example_dims
                  example_shape_program 0%nat H1 H2 H3 H4 H5 H6 H7 H8 H9)).
Defined.

Lemma extractOutputShape_cases_witness :
  heap example_world !! graph_ example_analyzer = Some example_shape_program ∧
  Graph_wf example_shape_program = true ∧
  Graph_outputs example_shape_program = [9%nat] ∧
  is_int_list (Value_type example_shape_program 9) = true ∧
  (kind (Value_node example_shape_program 9) = prim_ListConstruct →
   length (Value_uses example_shape_program 9) = 1%nat →
   ∃ dims, extractOutputShape example_analyzer example_world
           = (Ok (Some dims), example_world) ∧
     rank (Some dims)
     = Some (length (inputs (Value_node example_shape_program 9))) ∧
     ∀ i elem, inputs (Value_node example_shape_program 9) !! i = Some elem →
       (∀ z, toIValue example_shape_program elem = Some (IV_Int z) →
             dims !! i = Some (Some z)) ∧
       (toIValue example_shape_program elem = None → dims !! i = Some None)).
Proof.
  assert (H1 : heap example_world !! graph_ example_analyzer
               = Some example_shape_program) by reflexivity.
  assert (H2 : Graph_wf example_shape_program = true) by (vm_compute; reflexivity).
  assert (H3 : Graph_outputs example_shape_program = [9%nat]) by reflexivity.
  assert (H4 : is_int_list (Value_type example_shape_program 9) = true) by reflexivity.
  repeat (split; [assumption|]).
  exact (proj1 (proj2 (extractOutputShape_cases
                         example_analyzer example_world example_shape_program
                         9%nat H1 H2 H3 H4))).
Defined.

Lemma run_six_rounds_witness :
  heap example_world !! graph_ example_analyzer = Some example_shape_program ∧
  for_each (node_input_tensor_indices example_analyzer)
           (substituteTensorProperties example_analyzer)
           (set_graph (graph_ example_analyzer) example_shape_program example_world)
  = (Ok (), set_graph (graph_ example_analyzer) example_shape_program_substituted
                      example_world) ∧
  @run_round tracing_passes example_analyzer
    (set_graph (graph_ example_analyzer) example_shape_program example_world)
  = (Ok (), set_graph (graph_ example_analyzer)
              (mark 4 (mark 5 (mark 4 (mark 3 (mark 2 (mark 1
                 example_shape_program_substituted))))))
              example_world) ∧
  ∃ g6, @rounds tracing_passes 6 example_analyzer example_world
                example_shape_program g6 ∧
    @run tracing_passes example_analyzer example_world
    = (Ok (Some [Some 1; Some 2; None; Some 7]),
       set_graph (graph_ example_analyzer) (mark 7 (mark 6 g6)) example_world).
Proof.
  assert (H1 : heap example_world !! graph_ example_analyzer
               = Some example_shape_program) by reflexivity.
  assert (Hsub :
    for_each (node_input_tensor_indices example_analyzer)
             (substituteTensorProperties example_analyzer)
             (set_graph (graph_ example_analyzer) example_shape_program example_world)
    = (Ok (), set_graph (graph_ example_analyzer) example_shape_program_substituted
                        example_world)) by (vm_compute; reflexivity).
  assert (Hrun :
    @run tracing_passes example_analyzer example_world
    = (Ok (Some [Some 1; Some 2; None; Some 7]),
       snd (@run tracing_passes example_analyzer example_world)))
    by (vm_compute; reflexivity).
  split; [assumption|]. split; [assumption|].
  destruct (@run_six_rounds tracing_passes example_analyzer example_world
              example_shape_program H1) as (_ & _ & Hround & Hruns).
  split.
  - destruct (proj1 (Hround example_shape_program
                       (mark 4 (mark 5 (mark 4 (mark 3 (mark 2 (mark 1
                          example_shape_program_substituted)))))))
                    (ex_intro _ example_shape_program_substituted
                              (conj Hsub eq_refl)))
      as (gs & _ & Hrr & _).
    exact Hrr.
  - destruct (proj1 (Hruns _ _) Hrun) as (g6 & Hr & Hw & _).
    exists g6. split; [exact Hr|]. rewrite Hrun. f_equal. exact Hw.
Defined.

Lemma RegisterOperatorShapeFunction_first_write_wins_witness :
  heap example_world !! 1%positive = Some example_graph ∧
  find_node example_graph 1 = Some example_node ∧
  ∀ schema graph,
    maybeSchema example_node = Some schema →
    is_Some (operator_functions example_world !! schema) →
    RegisterOperatorShapeFunction (1%positive, 1%nat) graph example_world
    = (Ok (), example_world).
Proof.
  assert (H1 : heap example_world !! 1%positive = Some example_graph) by reflexivity.
  assert (H2 : find_node example_graph 1 = Some example_node) by reflexivity.
  repeat (split; [assumption|]).
  exact (proj1 (proj2 (@RegisterOperatorShapeFunction_first_write_wins no_passes
                         example_world 1%positive 1%nat example_graph example_node
                         1%positive 1%nat example_graph example_node
                         H1 H2 H1 H2))).
Defined.


Lemma no_passes_well_behaved : @passes_well_behaved no_passes.
Proof. repeat split; assumption. Defined.

Lemma analyze_aborts_only_on_assertions_witness :
  @passes_well_behaved no_passes ∧
  heap example_world !! 1%positive = Some example_graph ∧
  find_node example_graph 1 = Some example_node ∧
  heap example_world !! 2%positive = Some example_shape_program ∧
  Graph_wf example_shape_program = true ∧
  (length (inputs example_node) ≤ length (Graph_inputs example_shape_program))%nat ∧
  ((∃ i v, inputs example_node !! i = Some v ∧
           is_tensor_list (Value_type example_graph v) = true) →
   @analyze no_passes (1%positive, 1%nat) 2%positive example_world
   = (Throw internal_assert_tensor_list, example_world)).
Proof.
  assert (H1 : heap example_world !! 1%positive = Some example_graph) by reflexivity.
  assert (H2 : find_node example_graph 1 = Some example_node) by reflexivity.
  assert (H3 : heap example_world !! 2%positive = Some example_shape_program)
    by reflexivity.
  assert (H4 : Graph_wf example_shape_program = true) by (vm_compute; reflexivity).
  assert (H5 : (length (inputs example_node)
                ≤ length (Graph_inputs example_shape_program))%nat)
    by (simpl; lia).
  split; [exact no_passes_well_behaved|].
  repeat (split; [assumption|]).
  exact (proj1 (@analyze_aborts_only_on_assertions no_passes
                  1%positive 1%nat 2%positive example_world example_graph
                  example_node example_shape_program
                  no_passes_well_behaved H1 H2 H3 H4 H5)).
Defined.

Lemma PropagateShapesWithShapeFunction_needs_one_tensor_output_witness :
  heap example_world !! 1%positive = Some example_graph ∧
  find_node example_graph 1 = Some example_node ∧
  fst (@analyze no_passes (1%positive, 1%nat) 2%positive example_world)
  = Ok (Some [Some 1; Some 2; None; Some 7]) ∧
  ∀ o ttype,
    outputs example_node = [o] → Value_type example_graph o = TensorT ttype →
    @PropagateShapesWithShapeFunction no_passes (1%positive, 1%nat) 2%positive
       example_world
    = (Ok (), set_graph 1%positive
                (Value_setType o
                   (TensorT (withSymbolicShapes ttype
                               (Some [Some 1; Some 2; None; Some 7])))
                   example_graph)
                example_world).
Proof.
  assert (H1 : heap example_world !! 1%positive = Some example_graph) by reflexivity.
  assert (H2 : find_node example_graph 1 = Some example_node) by reflexivity.
  assert (H3 : fst (@analyze no_passes (1%positive, 1%nat) 2%positive example_world)
               = Ok (Some [Some 1; Some 2; None; Some 7]))
    by (vm_compute; reflexivity).
  repeat (split; [assumption|]).
  exact (proj1 (@PropagateShapesWithShapeFunction_needs_one_tensor_output no_passes
                  1%positive 1%nat 2%positive example_world example_graph
                  example_node (Some [Some 1; Some 2; None; Some 7]) H1 H2 H3)).
Defined.

(** * Further properties of the translation unit *)

(** ** [normIndex] *)

(** X1.  Whatever the index and the length, an index that [normIndex]
    returns is a position of a vector of that length: the element access
    that follows it cannot be out of range, also when the arithmetic
    wraps. *)
Theorem normIndex_is_position {A} (vec : list A) index k :
  normIndex index (Z.of_nat (length vec)) = Some k →
  0 ≤ k ∧ is_Some (vec !! Z.to_nat k).
Proof.
  intros Hk. apply normIndex_in_range in Hk; [|lia].
  split; [lia|]. apply lookup_lt_is_Some_2. lia.
Qed.

Lemma normIndex_is_position_witness :
  normIndex (-1) (Z.of_nat (length [10; 20; 30; 40])) = Some 3 ∧
  0 ≤ 3 ∧ is_Some ([10; 20; 30; 40] !! Z.to_nat 3).
Proof.
  assert (H : normIndex (-1) (Z.of_nat (length [10; 20; 30; 40])) = Some 3)
    by reflexivity.
  split; [assumption|].
  exact (normIndex_is_position [10; 20; 30; 40] (-1) 3 H).
Defined.

(** X2.  For a length and an index in the [int64_t] range, [normIndex]
    accepts exactly the indices of [[-len, len)], and returns the index
    modulo the length (Python indexing); outside that interval, and for
    every index when the length is zero, it returns nothing. *)
Theorem normIndex_accepts index len k :
  0 ≤ len < 2 ^ 63 → - 2 ^ 63 ≤ index < 2 ^ 63 →
  (normIndex index len = Some k ↔ - len ≤ index < len ∧ k = index mod len)
  ∧ (normIndex index len = None ↔ index < - len ∨ len ≤ index).
Proof.
  intros Hlen Hidx. rewrite (normIndex_spec index len Hlen Hidx). cbv zeta.
  destruct (Z.ltb_spec index 0) as [Hneg|Hpos].
  - destruct (Z.leb_spec 0 (index + len)) as [H1|H1];
      destruct (Z.ltb_spec (index + len) len) as [H2|H2]; simpl; try lia.
    + assert (Hmod : index mod len = index + len).
      { symmetry. apply (Z.mod_unique index len (-1) (index + len)); lia. }
      split; split.
      * intros [= <-]. rewrite Hmod. lia.
      * intros [_ ->]. by rewrite Hmod.
      * done.
      * lia.
    + split; split; try done; try lia.
  - destruct (Z.leb_spec 0 index) as [H1|H1]; [|lia].
    destruct (Z.ltb_spec index len) as [H2|H2]; simpl.
    + split; split.
      * intros [= <-]. rewrite Z.mod_small by lia. lia.
      * intros [_ ->]. by rewrite Z.mod_small by lia.
      * done.
      * lia.
    + split; split; try done; try lia.
Qed.

Lemma normIndex_accepts_witness :
  0 ≤ 4 < 2 ^ 63 ∧ - 2 ^ 63 ≤ -3 < 2 ^ 63 ∧
  (normIndex (-3) 4 = Some 1 ↔ - 4 ≤ -3 < 4 ∧ 1 = (-3) mod 4).
Proof.
  assert (H1 : 0 ≤ 4 < 2 ^ 63) by lia.
  assert (H2 : - 2 ^ 63 ≤ -3 < 2 ^ 63) by lia.
  repeat (split; [assumption|]).
  exact (proj1 (normIndex_accepts (-3) 4 1 H1 H2)).
Defined.

(** ** The registry and propagation *)

(** X3.  Registration through a live node always returns normally, leaves
    every graph alone and only ever adds to the table: every entry that was
    there is still there with the same graph, entries under other schemas
    are as before, the schema of the node (when it has one) is present
    afterwards, and registering the same node and graph again changes
    nothing. *)
Theorem RegisterOperatorShapeFunction_only_adds l id graph w tg node :
  heap w !! l = Some tg → find_node tg id = Some node →
  let w' := snd (RegisterOperatorShapeFunction (l, id) graph w) in
  fst (RegisterOperatorShapeFunction (l, id) graph w) = Ok ()
  ∧ heap w' = heap w
  ∧ operator_functions w ⊆ operator_functions w'
  ∧ (∀ schema, maybeSchema node = Some schema →
       is_Some (operator_functions w' !! schema))
  ∧ (∀ schema, maybeSchema node ≠ Some schema →
       operator_functions w' !! schema = operator_functions w !! schema)
  ∧ RegisterOperatorShapeFunction (l, id) graph w' = (Ok (), w').
Proof.
  intros Hl Hn w'.
  assert (Hcases :
    (w' = w ∧ (∀ schema, maybeSchema node = Some schema →
                 is_Some (operator_functions w !! schema)))
    ∨ (∃ schema, maybeSchema node = Some schema ∧
         operator_functions w !! schema = None ∧
         w' = {| heap := heap w;
                 operator_functions := <[schema := graph]> (operator_functions w) |})).
  { subst w'. rewrite (RegisterOperatorShapeFunction_run _ _ _ _ _ _ Hl Hn).
    destruct (maybeSchema node) as [schema|]; [|by left].
    case_bool_decide as Hin.
    - left. split; [done|]. by intros ? [= <-].
    - right. exists schema. split; [done|]. split; [|done].
      by apply eq_None_not_Some. }
  assert (Hfst : fst (RegisterOperatorShapeFunction (l, id) graph w) = Ok ()).
  { rewrite (RegisterOperatorShapeFunction_run _ _ _ _ _ _ Hl Hn).
    destruct (maybeSchema node); [|done]. by destruct (bool_decide _). }
  split; [done|].
  destruct Hcases as [[-> Hpresent]|(schema & Hs & Hnone & ->)].
  - repeat split; try done.
    rewrite (RegisterOperatorShapeFunction_run _ _ _ _ _ _ Hl Hn).
    destruct (maybeSchema node) as [schema|] eqn:Hs; [|done].
    by rewrite bool_decide_eq_true_2 by eauto.
  - simpl. repeat split.
    + by apply insert_subseteq.
    + intros schema' Hs'. rewrite Hs in Hs'. injection Hs' as <-.
      rewrite lookup_insert_eq. by eexists.
    + intros schema' Hs'. rewrite lookup_insert_ne; [done|]. congruence.
    + rewrite (RegisterOperatorShapeFunction_run l id graph _ tg node) by done.
      rewrite Hs. simpl. rewrite bool_decide_eq_true_2; [done|].
      rewrite lookup_insert_eq. by eexists.
Qed.

Lemma RegisterOperatorShapeFunction_only_adds_witness :
  heap example_world_unregistered !! 1%positive = Some example_graph ∧
  find_node example_graph 1 = Some example_node ∧
  fst (RegisterOperatorShapeFunction (1%positive, 1%nat) 2%positive
         example_world_unregistered) = Ok ().
Proof.
  assert (H1 : heap example_world_unregistered !! 1%positive = Some example_graph)
    by reflexivity.
  assert (H2 : find_node example_graph 1 = Some example_node) by reflexivity.
  repeat (split; [assumption|]).
  exact (proj1 (RegisterOperatorShapeFunction_only_adds
                  1%positive 1%nat 2%positive example_world_unregistered
                  example_graph example_node H1 H2)).
Defined.

(** X4.  When no node of the top-level block has an entry in the table
    (its schema is missing from the table, or it has no schema),
    propagation returns normally and leaves the whole store as it was; in
    particular with an empty table. *)
Theorem PropagateShapesOnGraph_nothing_registered `{Passes} graph w g :
  heap w !! graph = Some g →
  (∀ n, n ∈ Graph_nodes g → registered w n = None) →
  PropagateShapesOnGraph graph w = (Ok (), w).
Proof.
  intros Hg Hnone. unfold PropagateShapesOnGraph.
  rewrite (bind_Ok _ _ _ _ _ (get_graph_Some _ _ _ Hg)).
  induction (Graph_nodes g) as [|n nodes IH]; [done|].
  simpl. rewrite bind_run, propagate_node_run.
  rewrite (Hnone n) by apply list_elem_of_here.
  apply IH. intros m Hm. apply Hnone. by right.
Qed.

Lemma PropagateShapesOnGraph_nothing_registered_witness :
  heap example_world_unregistered !! 1%positive = Some example_graph ∧
  (∀ n, n ∈ Graph_nodes example_graph →
        registered example_world_unregistered n = None) ∧
  @PropagateShapesOnGraph no_passes 1%positive example_world_unregistered
  = (Ok (), example_world_unregistered).
Proof.
  assert (H1 : heap example_world_unregistered !! 1%positive = Some example_graph)
    by reflexivity.
  assert (H2 : ∀ n, n ∈ Graph_nodes example_graph →
                    registered example_world_unregistered n = None).
  { intros n Hn. change (Graph_nodes example_graph) with [example_node] in Hn.
    apply list_elem_of_singleton in Hn as ->. reflexivity. }
  repeat (split; [assumption|]).
  exact (@PropagateShapesOnGraph_nothing_registered no_passes 1%positive
           example_world_unregistered example_graph H1 H2).
Defined.

Lemma for_each_Throw {A} (xs : list A) body w e w' :
  for_each xs body w = (Throw e, w') →
  ∃ k x wk, xs !! k = Some x ∧
    for_each (take k xs) body w = (Ok (), wk) ∧ body x wk = (Throw e, w').
Proof.
  revert w. induction xs as [|x xs IH]; intros w; simpl; [done|].
  rewrite bind_run. destruct (body x w) as [[[]|e0] w1] eqn:E.
  - intros Hrest. destruct (IH w1 Hrest) as (k & y & wk & Hy & Hpre & Hbody).
    exists (S k), y, wk. split; [done|]. split; [|done].
    simpl. by rewrite bind_run, E.
  - intros [= <- <-]. exists 0%nat, x, w. by rewrite take_0.
Qed.

(** X5.  Propagation is not undone when it throws: the exception comes
    from [PropagateShapesWithShapeFunction] at some node of the top-level
    block with an entry in the table, and the store is then exactly the
    store after the nodes before it; shapes written for earlier nodes stay,
    the failing node and the nodes after it are untouched. *)
Theorem PropagateShapesOnGraph_stops_at_failure `{Passes} graph w g e w' :
  heap w !! graph = Some g →
  PropagateShapesOnGraph graph w = (Throw e, w') →
  ∃ k n scg,
    Graph_nodes g !! k = Some n ∧ registered w n = Some scg ∧
    for_each (take k (Graph_nodes g)) (propagate_node graph) w = (Ok (), w') ∧
    PropagateShapesWithShapeFunction (graph, node_id n) scg w' = (Throw e, w').
Proof.
  intros Hg. unfold PropagateShapesOnGraph.
  rewrite (bind_Ok _ _ _ _ _ (get_graph_Some _ _ _ Hg)). intros Hrun.
  destruct (for_each_Throw _ _ _ _ _ Hrun) as (k & n & wk & Hn & Hpre & Hbody).
  assert (Hprop : propagated graph w wk g).
  { eapply (for_each_propagated graph w g (take k (Graph_nodes g)));
      [|by apply propagated_refl|done].
    intros m Hm. by apply (subseteq_take k (Graph_nodes g)). }
  destruct Hprop as (Ht & _ & gk & Hgk & _ & _).
  rewrite propagate_node_run, (registered_same_table w wk n Ht) in Hbody.
  destruct (registered w n) as [scg|] eqn:Hreg; [|done].
  destruct (PropagateShapesWithShapeFunction_cases graph (node_id n) scg wk gk Hgk)
    as [[e' E]|(node & o & ttype & shape & _ & _ & _ & _ & E)];
    rewrite E in Hbody; [|done].
  injection Hbody as <- <-. by exists k, n, scg.
Qed.

Lemma PropagateShapesOnGraph_stops_at_failure_witness :
  heap tensor_list_world !! 1%positive = Some tensor_list_graph ∧
  @PropagateShapesOnGraph no_passes 1%positive tensor_list_world
  = (Throw internal_assert_tensor_list, tensor_list_world) ∧
  ∃ k n scg,
    Graph_nodes tensor_list_graph !! k = Some n ∧
    registered tensor_list_world n = Some scg ∧
    for_each (take k (Graph_nodes tensor_list_graph))
             (@propagate_node no_passes 1%positive) tensor_list_world
    = (Ok (), tensor_list_world) ∧
    @PropagateShapesWithShapeFunction no_passes (1%positive, node_id n) scg
       tensor_list_world
    = (Throw internal_assert_tensor_list, tensor_list_world).
Proof.
  assert (H1 : heap tensor_list_world !! 1%positive = Some tensor_list_graph)
    by reflexivity.
  assert (H2 : @PropagateShapesOnGraph no_passes 1%positive tensor_list_world
               = (Throw internal_assert_tensor_list, tensor_list_world))
    by (vm_compute; reflexivity).
  repeat (split; [assumption|]).
  exact (@PropagateShapesOnGraph_stops_at_failure no_passes 1%positive
           tensor_list_world tensor_list_graph internal_assert_tensor_list
           tensor_list_world H1 H2).
Defined.

(** X6.  An exception of the analysis passes through
    [PropagateShapesWithShapeFunction] unchanged, before the output of the
    node is looked at: nothing is written, whatever the node. *)
Theorem PropagateShapesWithShapeFunction_rethrows `{Passes} n scg w e :
  fst (analyze n scg w) = Throw e →
  PropagateShapesWithShapeFunction n scg w = (Throw e, w).
Proof.
  intros Ha. unfold PropagateShapesWithShapeFunction.
  apply bind_Throw. rewrite (surjective_pairing (analyze n scg w)).
  by rewrite Ha, analyze_restores_store.
Qed.

Lemma PropagateShapesWithShapeFunction_rethrows_witness :
  fst (@analyze no_passes (1%positive, 1%nat) 2%positive tensor_list_world)
  = Throw internal_assert_tensor_list ∧
  @PropagateShapesWithShapeFunction no_passes (1%positive, 1%nat) 2%positive
     tensor_list_world
  = (Throw internal_assert_tensor_list, tensor_list_world).
Proof.
  assert (H1 : fst (@analyze no_passes (1%positive, 1%nat) 2%positive
                      tensor_list_world)
               = Throw internal_assert_tensor_list) by (vm_compute; reflexivity).
  split; [assumption|].
  exact (@PropagateShapesWithShapeFunction_rethrows no_passes
           (1%positive, 1%nat) 2%positive tensor_list_world
           internal_assert_tensor_list H1).
Defined.

(** ** Output extraction, without assumptions on the program *)

(** X7.  Output extraction never writes to the store, and it throws the
    internal assertion exactly when the program does not have a single
    output of integer-list type; no well-formedness of the program is
    needed for this. *)
Theorem extractOutputShape_asserts self w g :
  heap w !! graph_ self = Some g →
  snd (extractOutputShape self w) = w
  ∧ (fst (extractOutputShape self w) = Throw internal_assert_outputs
     ↔ output_ok g = false).
Proof.
  intros Hg. split; [apply extractOutputShape_reads|].
  unfold output_ok, extractOutputShape.
  rewrite (bind_Ok _ _ _ _ _ (get_graph_Some _ _ _ Hg)).
  destruct (Graph_outputs g) as [|output [|]] eqn:Hout; simpl; [done| |done].
  rewrite bind_run. simpl.
  destruct (is_int_list (Value_type g output)) eqn:Hty; simpl; [|done].
  split; [|done].
  case_bool_decide.
  - by destruct (toIValue g output) as [[]|].
  - by destruct (_ || _).
Qed.

Lemma extractOutputShape_asserts_witness :
  heap example_world !! graph_ example_analyzer = Some example_shape_program ∧
  snd (extractOutputShape example_analyzer example_world) = example_world.
Proof.
  assert (H1 : heap example_world !! graph_ example_analyzer
               = Some example_shape_program) by reflexivity.
  split; [assumption|].
  exact (proj1 (extractOutputShape_asserts example_analyzer example_world
                  example_shape_program H1)).
Defined.

Lemma forallb_is_static_fmap {A} (f : A → option Z) (l : list A) :
  forallb is_static (f <$> l) = true ↔ Forall (λ x, is_Some (f x)) l.
Proof.
  induction l as [|x l IH]; simpl.
  - split; [by constructor | done].
  - rewrite andb_true_iff, Forall_cons, IH. unfold is_static.
    by rewrite bool_decide_eq_true.
Qed.

(** X8.  When the output is a list construction used once, the extracted
    shape has as many dimensions as the construction has elements, and it
    is complete (every dimension known) exactly when every element is a
    constant integer. *)
Theorem extractOutputShape_complete self w g output :
  heap w !! graph_ self = Some g →
  Graph_outputs g = [output] →
  is_int_list (Value_type g output) = true →
  kind (Value_node g output) = prim_ListConstruct →
  length (Value_uses g output) = 1%nat →
  ∃ dims,
    extractOutputShape self w = (Ok (Some dims), w) ∧
    length dims = length (inputs (Value_node g output)) ∧
    (isComplete (Some dims) = true ↔
     Forall (λ elem, is_Some (constant_as_int g elem))
            (inputs (Value_node g output))).
Proof.
  intros Hg Hout Hty Hk Huses.
  exists (constant_as_int g <$> inputs (Value_node g output)).
  split; [|split].
  - unfold extractOutputShape.
    rewrite (bind_Ok _ _ _ _ _ (get_graph_Some _ _ _ Hg)).
    rewrite Hout. simpl. rewrite bind_run. simpl. rewrite Hty. simpl.
    rewrite Hk. rewrite bool_decide_eq_false_2 by done.
    rewrite (bool_decide_eq_false_2 (prim_ListConstruct ≠ prim_ListConstruct))
      by (by intros []).
    by rewrite Huses.
  - by rewrite length_fmap.
  - apply forallb_is_static_fmap.
Qed.

Lemma extractOutputShape_complete_witness :
  heap example_world !! graph_ example_analyzer = Some example_shape_program ∧
  Graph_outputs example_shape_program = [9%nat] ∧
  is_int_list (Value_type example_shape_program 9) = true ∧
  kind (Value_node example_shape_program 9) = prim_ListConstruct ∧
  length (Value_uses example_shape_program 9) = 1%nat ∧
  ∃ dims,
    extractOutputShape example_analyzer example_world = (Ok (Some dims), example_world) ∧
    length dims = length (inputs (Value_node example_shape_program 9)) ∧
    (isComplete (Some dims) = true ↔
     Forall (λ elem, is_Some (constant_as_int example_shape_program elem))
            (inputs (Value_node example_shape_program 9))).
Proof.
  assert (H1 : heap example_world !! graph_ example_analyzer
               = Some example_shape_program) by reflexivity.
  assert (H2 : Graph_outputs example_shape_program = [9%nat]) by reflexivity.
  assert (H3 : is_int_list (Value_type example_shape_program 9) = true)
    by reflexivity.
  assert (H4 : kind (Value_node example_shape_program 9) = prim_ListConstruct)
    by reflexivity.
  assert (H5 : length (Value_uses example_shape_program 9) = 1%nat) by reflexivity.
  repeat (split; [assumption|]).
  exact (extractOutputShape_complete example_analyzer example_world
           example_shape_program 9%nat H1 H2 H3 H4 H5).
Defined.

(** ** Edge cases of substitution and specialization *)

(** X9.  The guards of [substituteTensorProperties].  An index past the
    inputs of the node, or past the inputs of the program, throws
    [std::out_of_range]; an input that is not a tensor fails the
    [expect<TensorType>]; a tensor without a rank returns at once; a ranked
    tensor whose program input has no use returns without a change.  In
    all these cases the store is left as it was. *)
Theorem substituteTensorProperties_guards self i w tl tid tg tnode :
  node_ self = (tl, tid) →
  heap w !! tl = Some tg →
  find_node tg tid = Some tnode →
  (inputs tnode !! i = None →
     substituteTensorProperties self i w = (Throw out_of_range, w))
  ∧ (∀ tv, inputs tnode !! i = Some tv →
       (∀ ttype, Value_type tg tv ≠ TensorT ttype) →
       substituteTensorProperties self i w = (Throw expect_failed, w))
  ∧ (∀ tv ttype, inputs tnode !! i = Some tv →
       Value_type tg tv = TensorT ttype →
       (symbolic_sizes ttype = None →
          substituteTensorProperties self i w = (Ok (), w))
       ∧ (∀ ds g, symbolic_sizes ttype = Some ds →
            heap w !! graph_ self = Some g →
            (Graph_inputs g !! i = None →
               substituteTensorProperties self i w = (Throw out_of_range, w))
            ∧ (∀ x, Graph_inputs g !! i = Some x → Value_uses g x = [] →
                 substituteTensorProperties self i w = (Ok (), w)))).
Proof.
  intros Hself Htg Hn. unfold substituteTensorProperties. rewrite Hself.
  split; [|split].
  - intros Hin.
    by rewrite (bind_Throw _ _ _ _ _
                  (Node_input_out_of_range _ _ _ _ _ _ Htg Hn Hin)).
  - intros tv Hin Hty.
    rewrite (bind_Ok _ _ _ _ _ (Node_input_run _ _ _ _ _ _ _ Htg Hn Hin)).
    rewrite (bind_Ok _ _ _ _ _ (type_of_run _ _ _ _ Htg)).
    destruct (Value_type tg tv) as [ttype| | | | |]; [by destruct (Hty ttype)|..];
      done.
  - intros tv ttype Hin Hty.
    rewrite (bind_Ok _ _ _ _ _ (Node_input_run _ _ _ _ _ _ _ Htg Hn Hin)).
    rewrite (bind_Ok _ _ _ _ _ (type_of_run _ _ _ _ Htg)).
    rewrite Hty. simpl expect_TensorType.
    rewrite (bind_Ok _ (λ ttype, match symbolic_sizes ttype with
                                  | Some ds => _ | None => _ end) w ttype w eq_refl).
    split.
    + by intros ->.
    + intros ds g -> Hg. split.
      * intros Hx. unfold Graph_input_at.
        rewrite bind_run, (bind_Ok _ _ _ _ _ (get_graph_Some _ _ _ Hg)).
        unfold vector_at. by rewrite Hx.
      * intros x Hx Huses.
        rewrite (bind_Ok _ _ _ _ _ (Graph_input_at_run _ _ _ _ _ Hg Hx)).
        rewrite (bind_Ok _ _ _ _ _ (get_graph_Some _ _ _ Hg)).
        simpl. by rewrite Huses.
Qed.

Lemma substituteTensorProperties_guards_witness :
  node_ example_analyzer = (1%positive, 1%nat) ∧
  heap example_world !! 1%positive = Some example_graph ∧
  find_node example_graph 1 = Some example_node ∧
  (inputs example_node !! 1%nat = None →
   substituteTensorProperties example_analyzer 1 example_world
   = (Throw out_of_range, example_world)).
Proof.
  assert (H1 : node_ example_analyzer = (1%positive, 1%nat)) by reflexivity.
  assert (H2 : heap example_world !! 1%positive = Some example_graph) by reflexivity.
  assert (H3 : find_node example_graph 1 = Some example_node) by reflexivity.
  repeat (split; [assumption|]).
  exact (proj1 (substituteTensorProperties_guards example_analyzer 1%nat
                  example_world 1%positive 1%nat example_graph example_node
                  H1 H2 H3)).
Defined.

(** X10.  A shape program with too few inputs is noticed only where the
    missing input is needed.  At a position past the inputs of the program,
    the constructor throws [std::out_of_range] for a tensor of complete
    shape and for a constant input, which it would replace; for a tensor of
    known rank and incomplete shape it records the position and returns
    (the access then fails in [substituteTensorProperties]), and for a
    tensor of unknown rank or an input of unknown value it returns without
    a change. *)
Theorem specialize_input_missing_program_input l tl tid tg tnode i indices w g tv :
  heap w !! tl = Some tg →
  find_node tg tid = Some tnode →
  inputs tnode !! i = Some tv →
  heap w !! l = Some g →
  Graph_inputs g !! i = None →
  let step := specialize_input l (tl, tid) i indices w in
  (∀ ttype, Value_type tg tv = TensorT ttype →
     (isComplete (symbolic_sizes ttype) = true → step = (Throw out_of_range, w))
     ∧ (isComplete (symbolic_sizes ttype) = false →
        is_Some (rank (symbolic_sizes ttype)) →
        step = (Ok (indices ++ [i]), w))
     ∧ (rank (symbolic_sizes ttype) = None → step = (Ok indices, w)))
  ∧ ((∀ ttype, Value_type tg tv ≠ TensorT ttype) →
     is_tensor_list (Value_type tg tv) = false →
     (is_Some (toIValue tg tv) → step = (Throw out_of_range, w))
     ∧ (toIValue tg tv = None → step = (Ok indices, w))).
Proof.
  intros Htg Hn Hin Hg Hx step. subst step. unfold specialize_input.
  rewrite (bind_Ok _ _ _ _ _ (Node_input_run _ _ _ _ _ _ _ Htg Hn Hin)).
  rewrite (bind_Ok _ _ _ _ _ (type_of_run _ _ _ _ Htg)).
  assert (Hat : ∀ A (k : positive * nat → M A),
            (Graph_input_at l i ≫= k) w = (Throw out_of_range, w)).
  { intros A k. apply bind_Throw. unfold Graph_input_at.
    rewrite (bind_Ok _ _ _ _ _ (get_graph_Some _ _ _ Hg)).
    unfold vector_at. by rewrite Hx. }
  split.
  - intros ttype ->. simpl. split; [|split].
    + intros ->. apply Hat.
    + intros -> Hr. by rewrite bool_decide_eq_true_2.
    + intros Hr.
      assert (Hc : isComplete (symbolic_sizes ttype) = false)
        by (by destruct (symbolic_sizes ttype)).
      rewrite Hc, Hr. by rewrite bool_decide_eq_false_2 by (by intros [? ?]).
  - intros Hnt Hntl.
    destruct (Value_type tg tv) as [ttype| | | | |] eqn:Hty;
      [by destruct (Hnt ttype)|..]; rewrite Hntl;
      rewrite (bind_Ok _ _ _ _ _ (get_graph_Some _ _ _ Htg)); simpl;
      (split; [intros [val ->]; apply Hat | by intros ->]).
Qed.

(** ** Replacement by constants in programs in SSA form *)

Lemma grows_refl g : grows g g.
Proof.
  repeat split; try done. intros id node Hn. by exists node.
Qed.

Lemma grows_trans g1 g2 g3 : grows g1 g2 → grows g2 g3 → grows g1 g3.
Proof.
  intros (Hi1 & Ho1 & Hu1 & Hn1 & Ht1 & He1) (Hi2 & Ho2 & Hu2 & Hn2 & Ht2 & He2).
  split; [congruence|]. split; [congruence|]. split; [lia|].
  split; [|split].
  - intros id node Hnode.
    destruct (Hn1 id node Hnode) as (node1 & Hnode1 & ? & ? & ? & ?).
    destruct (Hn2 id node1 Hnode1) as (node2 & Hnode2 & ? & ? & ? & ?).
    exists node2. repeat split; congruence.
  - intros x Hx. destruct (Ht1 x Hx) as [? ?].
    destruct (Ht2 x) as [? ?]; [lia|]. split; congruence.
  - intros x Hx Hnone. apply He2; [lia|]. by apply He1.
Qed.

Lemma find_fmap_same {A} (p : A → bool) (f : A → A) (l : list A) :
  (∀ a, p (f a) = p a) → find p (f <$> l) = f <$> find p l.
Proof.
  intros Hp. induction l as [|a l IH]; simpl; [done|].
  rewrite Hp. by destruct (p a).
Qed.

Lemma ids_below_elem g n :
  ids_below g = true → n ∈ all_nodes g → (node_id n < next_unique g)%nat.
Proof.
  unfold ids_below. rewrite forallb_forall. intros Hall Hn.
  apply Nat.ltb_lt, Hall. by apply list_elem_of_In.
Qed.

(** After [replaceWithIValue] a node is found under its identity, with the
    replaced input. *)
Lemma find_node_replace_by_constant_eq v val g id node :
  ids_below g = true → find_node g id = Some node →
  find_node (replace_by_constant v val g) id
  = Some (Node_replace_input v (next_unique g) node).
Proof.
  intros Hids Hnode.
  destruct (find_node_elem_of _ _ _ Hnode) as [Helem Hid].
  pose proof (ids_below_elem _ _ Hids Helem) as Hlt.
  unfold find_node in *. rewrite all_nodes_replace_by_constant.
  unfold all_nodes in Hnode. simpl in *.
  destruct (bool_decide (node_id (param_node g) = id)) eqn:Ep.
  - by injection Hnode as <-.
  - rewrite bool_decide_eq_false_2 by lia.
    assert (Heq : (Node_replace_input v (next_unique g) <$> body g)
                  ++ [Node_replace_input v (next_unique g) (return_node g)]
                  = Node_replace_input v (next_unique g) <$> (body g ++ [return_node g]))
      by (by rewrite fmap_app).
    rewrite Heq, find_fmap_same by done. by rewrite Hnode.
Qed.

Lemma Value_node_replace_by_constant v val g x :
  x ≠ next_unique g →
  Value_node (replace_by_constant v val g) x
  = Node_replace_input v (next_unique g) (Value_node g x).
Proof.
  intros Hx. unfold Value_node, replace_by_constant. simpl.
  rewrite bool_decide_eq_false_2 by (by intros ->%list_elem_of_singleton).
  rewrite find_fmap_same by done.
  by destruct (find _ (body g)).
Qed.

Lemma toIValue_replace_by_constant_other v val g x :
  x ≠ next_unique g →
  toIValue (replace_by_constant v val g) x = toIValue g x.
Proof.
  intros Hx. unfold toIValue. by rewrite Value_node_replace_by_constant.
Qed.

Lemma ids_below_replace_by_constant v val g :
  ids_below g = true → ids_below (replace_by_constant v val g) = true.
Proof.
  unfold ids_below. rewrite !forallb_forall. intros Hall n Hn.
  apply Nat.ltb_lt. rewrite next_unique_replace_by_constant.
  apply list_elem_of_In in Hn. rewrite all_nodes_replace_by_constant in Hn.
  assert (Hold : ∀ m, m ∈ all_nodes g →
            (node_id (Node_replace_input v (next_unique g) m) < S (next_unique g))%nat).
  { intros m Hm. simpl. apply list_elem_of_In, Hall, Nat.ltb_lt in Hm. lia. }
  rewrite !elem_of_cons, elem_of_app, list_elem_of_fmap, list_elem_of_singleton in Hn.
  destruct Hn as [->|[->|[(m & -> & Hm)| ->]]].
  - apply Hold, list_elem_of_here.
  - simpl. lia.
  - apply Hold. unfold all_nodes. apply list_elem_of_further, elem_of_app. by left.
  - apply Hold. unfold all_nodes. apply list_elem_of_further, elem_of_app. right.
    apply list_elem_of_here.
Qed.

Lemma concat_outputs_replace_by_constant v val g :
  concat (outputs <$> all_nodes (replace_by_constant v val g))
  ≡ₚ next_unique g :: concat (outputs <$> all_nodes g).
Proof.
  rewrite all_nodes_replace_by_constant. unfold all_nodes. simpl.
  rewrite !fmap_app, !concat_app. simpl.
  rewrite <- list_fmap_compose.
  rewrite (list_fmap_ext (outputs ∘ Node_replace_input v (next_unique g)) outputs)
    by done.
  symmetry. apply Permutation_middle.
Qed.

Lemma output_below g n o :
  Graph_wf g = true → n ∈ all_nodes g → o ∈ outputs n → (o < next_unique g)%nat.
Proof.
  intros Hwf Hn Ho. destruct (Graph_wf_node _ _ Hwf Hn) as [Hb _].
  by apply (names_below_output g n).
Qed.

Lemma elem_of_concat_fmap_2 {A B} (f : A → list B) (l : list A) x y :
  x ∈ l → y ∈ f x → y ∈ concat (f <$> l).
Proof.
  induction l as [|a l IH]; [by intros ?%not_elem_of_nil|].
  simpl. rewrite elem_of_cons, elem_of_app. intros [->|Hx] Hy; [by left|].
  right. by apply IH.
Qed.

Lemma outputs_unique_replace_by_constant v val g :
  Graph_wf g = true → outputs_unique g = true →
  outputs_unique (replace_by_constant v val g) = true.
Proof.
  unfold outputs_unique. rewrite !bool_decide_eq_true. intros Hwf Hnd.
  rewrite concat_outputs_replace_by_constant. apply NoDup_cons. split; [|done].
  intros (n & Hn & Ho)%elem_of_concat_fmap.
  pose proof (output_below _ _ _ Hwf Hn Ho). lia.
Qed.

Lemma program_ok_replace_by_constant v val g :
  program_ok g → program_ok (replace_by_constant v val g).
Proof.
  intros (Hwf & Hids & Huniq). split; [|split].
  - by apply Graph_wf_replace_by_constant.
  - by apply ids_below_replace_by_constant.
  - by apply outputs_unique_replace_by_constant.
Qed.

(** [replaceWithIValue] only makes a program grow. *)
Lemma grows_replace_by_constant v val g :
  program_ok g → (v < next_unique g)%nat →
  grows g (replace_by_constant v val g).
Proof.
  intros (Hwf & Hids & _) Hv.
  destruct (replace_by_constant_spec v val g Hwf Hv) as (Hnone & c & Hc & Hsame & Hother).
  split; [done|]. split; [|split; [|split; [|split]]].
  - unfold Graph_outputs, replace_by_constant. simpl. by rewrite length_fmap.
  - rewrite next_unique_replace_by_constant. lia.
  - intros id node Hnode.
    exists (Node_replace_input v (next_unique g) node).
    split; [by apply find_node_replace_by_constant_eq|].
    simpl. by rewrite length_fmap.
  - intros x Hx. split.
    + by apply Value_type_replace_by_constant.
    + apply toIValue_replace_by_constant_other. lia.
  - intros x Hx Hempty. destruct (decide (x = v)) as [->|Hxv]; [done|].
    rewrite (Value_uses_replace_by_constant v val g x (node_uses x)); [done|].
    intros n _. apply node_uses_other; [done|lia].
Qed.

(** ** The loop of property substitution as a whole *)

Lemma NoDup_concat_same {A B} (f : A → list B) (l : list A) a b x :
  NoDup (concat (f <$> l)) → a ∈ l → b ∈ l → x ∈ f a → x ∈ f b → a = b.
Proof.
  induction l as [|y l IH]; [by intros _ ?%not_elem_of_nil|].
  simpl. rewrite NoDup_app, !elem_of_cons.
  intros (_ & Hdisj & Hnd) [->|Ha] [->|Hb] Hxa Hxb.
  - done.
  - exfalso. apply (Hdisj x Hxa). by apply (elem_of_concat_fmap_2 f l b).
  - exfalso. apply (Hdisj x Hxb). by apply (elem_of_concat_fmap_2 f l a).
  - by apply IH.
Qed.

Lemma producer_unique g n1 n2 o :
  outputs_unique g = true → n1 ∈ all_nodes g → n2 ∈ all_nodes g →
  o ∈ outputs n1 → o ∈ outputs n2 → n1 = n2.
Proof.
  unfold outputs_unique. rewrite bool_decide_eq_true. intros Hnd.
  by apply NoDup_concat_same.
Qed.

(** In a program in SSA form the result of a node that is no constant is no
    constant. *)
Lemma toIValue_not_constant g node out :
  program_ok g → node ∈ all_nodes g → kind node ≠ prim_Constant →
  out ∈ outputs node → toIValue g out = None.
Proof.
  intros (Hwf & _ & Huniq) Hnode Hk Hout. unfold toIValue, Value_node.
  destruct (find _ (body g)) as [n'|] eqn:F; simpl.
  - apply find_some in F as [Hin Ho]. apply bool_decide_eq_true in Ho.
    assert (Hn' : n' ∈ all_nodes g).
    { unfold all_nodes. apply list_elem_of_further, elem_of_app. left.
      by apply list_elem_of_In. }
    rewrite (producer_unique g n' node out) by done.
    by rewrite bool_decide_eq_false_2.
  - apply Graph_wf_iff in Hwf as [Hp _]. rewrite Hp. done.
Qed.

Lemma replace_by_constant_uses v val g :
  Graph_wf g = true → (v < next_unique g)%nat →
  Value_uses (replace_by_constant v val g) v = [] ∧
  Value_uses (replace_by_constant v val g) (next_unique g) = Value_uses g v ∧
  ∀ x, x ≠ v → x ≠ next_unique g →
    Value_uses (replace_by_constant v val g) x = Value_uses g x.
Proof.
  intros Hwf Hv. apply Graph_wf_iff in Hwf as [_ Hwf]. split; [|split].
  - rewrite (Value_uses_replace_by_constant _ _ _ _ (λ _, [])).
    + apply concat_fmap_nil.
    + intros n _. apply node_uses_replaced. lia.
  - apply Value_uses_replace_by_constant. intros n Hn.
    apply node_uses_replacement. intros Hin.
    destruct (Hwf n Hn) as [Hb _].
    pose proof (names_below_input _ _ _ Hb Hin). lia.
  - intros x Hxv Hxc. apply Value_uses_replace_by_constant. intros n Hn.
    by apply node_uses_other.
Qed.

(** One step of the loop, by the value it substitutes. *)
Lemma substitute_use_effect self ds use w g node :
  heap w !! graph_ self = Some g → Graph_wf g = true →
  find_node g (user use) = Some node →
  match substituted_value g ds node with
  | Some z =>
      ∃ out, outputs node = [out] ∧
        substitute_use self ds use w
        = (Ok (), set_graph (graph_ self) (replace_by_constant out (IV_Int z) g) w)
  | None => substitute_use self ds use w = (Ok (), w)
  end.
Proof.
  intros Hg Hwf Hnode.
  destruct (find_node_elem_of _ _ _ Hnode) as [Helem _].
  unfold substitute_use, substituted_value.
  rewrite (bind_Ok _ _ _ _ _ (Node_deref_run _ _ _ _ _ Hg Hnode)).
  destruct (kind node) eqn:Hk; try done.
  - destruct (Graph_wf_len_output _ _ Hwf Helem Hk) as (out & Hout & _).
    exists out. split; [done|].
    rewrite (bind_Ok _ _ _ _ _ (Node_output_run _ _ _ _ _ _ Hg Hnode Hout)).
    by apply replaceWithIValue_run.
  - destruct (Graph_wf_getitem _ _ Hwf Helem Hk) as (out & iv & Hout & _ & Hiv).
    rewrite Hiv.
    rewrite (bind_Ok _ _ _ _ _ (vector_at_run _ _ _ _ Hiv)).
    rewrite (bind_Ok _ _ _ _ _ (get_graph_Some _ _ _ Hg)).
    destruct (constant_as_int g iv) as [index|]; [|done].
    destruct (normIndex index (Z.of_nat (length ds))) as [norm_index|] eqn:En;
      [|done].
    apply normIndex_in_range in En; [|lia].
    destruct (lookup_lt_is_Some_2 ds (Z.to_nat norm_index)) as [d Hd]; [lia|].
    rewrite Hd.
    rewrite (bind_Ok _ _ _ _ _ (vector_at_run _ _ _ _ Hd)).
    destruct d as [static_size|]; [|done].
    exists out. split; [done|].
    rewrite (bind_Ok _ _ _ _ _ (Node_output_run _ _ _ _ _ _ Hg Hnode Hout)).
    by apply replaceWithIValue_run.
Qed.

Lemma substitution_inv_refl ds g : program_ok g → substitution_inv ds g g.
Proof.
  intros Hok. split; [done|]. split; [apply grows_refl|]. split.
  - intros id node iv k ? ? ?. by exists node, iv.
  - intros y _. by left.
Qed.

(** What the starting program prescribes for a node, the current program
    prescribes too. *)
Lemma substituted_value_forward ds g0 gc id node0 nodec z :
  substitution_inv ds g0 gc →
  find_node g0 id = Some node0 → find_node gc id = Some nodec →
  substituted_value g0 ds node0 = Some z →
  substituted_value gc ds nodec = Some z.
Proof.
  intros (_ & Hgrows & Hidx & _) Hn0 Hnc.
  destruct Hgrows as (_ & _ & _ & Hnodes & _).
  destruct (Hnodes id node0 Hn0) as (node' & Hn' & Hkind & _).
  assert (node' = nodec) as -> by congruence.
  unfold substituted_value. rewrite Hkind.
  destruct (kind node0); try done.
  destruct (inputs node0 !! 1%nat) as [iv|] eqn:Hiv; [|done].
  destruct (constant_as_int g0 iv) as [k|] eqn:Hc; [|done].
  destruct (Hidx id node0 iv k Hn0 Hiv Hc) as (node'' & iv' & Hn'' & Hiv' & Hc').
  assert (node'' = nodec) as -> by congruence.
  by rewrite Hiv', Hc'.
Qed.

Lemma constant_as_int_toIValue g v k :
  constant_as_int g v = Some k → toIValue g v = Some (IV_Int k).
Proof.
  unfold constant_as_int. destruct (toIValue g v) as [[]|]; try done.
  by intros [= ->].
Qed.

(** A step that substitutes keeps the invariant. *)
Lemma substitution_inv_step ds g0 gc id nodec out z :
  substitution_inv ds g0 gc →
  find_node gc id = Some nodec → outputs nodec = [out] →
  substituted_value gc ds nodec = Some z →
  substitution_inv ds g0 (replace_by_constant out (IV_Int z) gc).
Proof.
  intros Hinv Hnc Hout Hz.
  pose proof Hinv as (Hok & Hgrows & Hidx & Hstate).
  pose proof Hok as (Hwf & Hids & Huniq).
  destruct (find_node_elem_of _ _ _ Hnc) as [Helem _].
  assert (Hout_in : out ∈ outputs nodec) by (rewrite Hout; apply list_elem_of_here).
  pose proof (output_below _ _ _ Hwf Helem Hout_in) as Hlt.
  assert (Hnotconst : toIValue gc out = None).
  { apply (toIValue_not_constant gc nodec); try done.
    intros Hk. unfold substituted_value in Hz. by rewrite Hk in Hz. }
  destruct (replace_by_constant_uses out (IV_Int z) gc Hwf Hlt)
    as (Hu_out & Hu_c & Hu_other).
  pose proof Hgrows as (_ & _ & Hnext & Hnodes & _).
  split; [by apply program_ok_replace_by_constant|].
  split; [eapply grows_trans; [done|by apply grows_replace_by_constant]|].
  split.
  - intros id' node iv k Hn Hiv Hc.
    destruct (Hidx id' node iv k Hn Hiv Hc) as (node' & iv' & Hn' & Hiv' & Hc').
    exists (Node_replace_input out (next_unique gc) node'), iv'.
    split; [by apply find_node_replace_by_constant_eq|].
    assert (Hne : iv' ≠ out).
    { intros ->. apply constant_as_int_toIValue in Hc'. congruence. }
    split.
    + simpl. rewrite list_lookup_fmap, Hiv'. simpl. unfold replace_value.
      by rewrite bool_decide_eq_false_2.
    + unfold constant_as_int. rewrite toIValue_replace_by_constant_other; [done|].
      destruct (find_node_elem_of _ _ _ Hn') as [Helem' _].
      destruct (Graph_wf_node _ _ Hwf Helem') as [Hb _].
      apply list_elem_of_lookup_2 in Hiv'.
      pose proof (names_below_input _ _ _ Hb Hiv'). lia.
  - intros y Hy.
    assert (Hkeep : ∀ c z', (c < next_unique gc)%nat →
              toIValue gc c = Some (IV_Int z') →
              toIValue (replace_by_constant out (IV_Int z) gc) c = Some (IV_Int z')
              ∧ Value_uses (replace_by_constant out (IV_Int z) gc) c = Value_uses gc c).
    { intros c z' Hc Hval. split.
      - rewrite toIValue_replace_by_constant_other; [done|lia].
      - apply Hu_other; [|lia]. intros ->. congruence. }
    destruct (Hstate y Hy) as [Hsame|(Hnone & z' & c & Hc & Hval & Huses & Hpres)].
    + destruct (decide (y = out)) as [->|Hne].
      * right. split; [done|]. exists z, (next_unique gc).
        rewrite next_unique_replace_by_constant. split; [lia|].
        split; [apply toIValue_replace_by_constant|].
        split; [congruence|].
        intros id' node z0 Hn Ho Hz0.
        destruct (Hnodes id' node Hn) as (node' & Hn' & _ & Houts & _).
        destruct (find_node_elem_of _ _ _ Hn') as [Helem' _].
        assert (node' = nodec) as ->.
        { apply (producer_unique gc node' nodec out); try done. by rewrite Houts. }
        pose proof (substituted_value_forward ds g0 gc id' node nodec z0 Hinv Hn Hn' Hz0).
        congruence.
      * left. rewrite Hu_other; [done..|lia].
    + right. destruct (Hkeep c z' Hc Hval) as [Hval' Huses'].
      split.
      * destruct (decide (y = out)) as [->|Hne]; [done|].
        rewrite Hu_other; [done..|lia].
      * exists z', c. rewrite next_unique_replace_by_constant.
        split; [lia|]. split; [done|]. split; [congruence|done].
Qed.

(** The loop over the uses: it returns, keeps the invariant, only makes the
    program grow, and leaves no use of a result it had to substitute. *)
Lemma for_each_substitute_use_inv self ds g0 uses :
  ∀ w gc,
    heap w !! graph_ self = Some gc →
    substitution_inv ds g0 gc →
    Forall (λ use, is_Some (find_node g0 (user use))) uses →
    ∃ g', for_each uses (substitute_use self ds) w
          = (Ok (), set_graph (graph_ self) g' w)
      ∧ substitution_inv ds g0 g' ∧ grows gc g'
      ∧ ∀ use node out z, use ∈ uses →
          find_node g0 (user use) = Some node → outputs node = [out] →
          substituted_value g0 ds node = Some z → Value_uses g' out = [].
Proof.
  induction uses as [|use uses IH]; intros w gc Hg Hinv Huses.
  - exists gc. simpl. rewrite set_graph_same by done.
    split; [done|]. split; [done|]. split; [apply grows_refl|].
    by intros ? ? ? ? ?%not_elem_of_nil.
  - apply Forall_cons in Huses as [[node0 Hn0] Huses].
    pose proof Hinv as (Hok & Hgrows & _).
    pose proof Hok as (Hwf & _).
    destruct Hgrows as (_ & _ & _ & Hnodes & _).
    destruct (Hnodes _ _ Hn0) as (nodec & Hnc & _ & Houts & _).
    simpl. rewrite bind_run.
    pose proof (substitute_use_effect self ds use w gc nodec Hg Hwf Hnc) as Hstep.
    destruct (substituted_value gc ds nodec) as [z|] eqn:Hz.
    + destruct Hstep as (out & Hout & ->).
      set (g1 := replace_by_constant out (IV_Int z) gc).
      assert (Hinv1 : substitution_inv ds g0 g1)
        by (by eapply substitution_inv_step).
      destruct (find_node_elem_of _ _ _ Hnc) as [Helem _].
      assert (Hlt : (out < next_unique gc)%nat).
      { apply (output_below gc nodec); [done..|]. rewrite Hout. apply list_elem_of_here. }
      destruct (IH (set_graph (graph_ self) g1 w) g1) as (g2 & -> & Hinv2 & Hgrows2 & Htail);
        [apply heap_set_graph|done..|].
      exists g2. rewrite set_graph_twice. split; [done|]. split; [done|].
      split; [eapply grows_trans; [by apply grows_replace_by_constant|done]|].
      intros use' node out' z0 [->|Hin]%elem_of_cons Hn Hout' Hz0; [|by eapply Htail].
      assert (node = node0) as -> by congruence.
      assert (out' = out) as -> by congruence.
      destruct Hgrows2 as (_ & _ & _ & _ & _ & Hempty).
      apply Hempty.
      * unfold g1. rewrite next_unique_replace_by_constant. lia.
      * by apply replace_by_constant_uses.
    + rewrite Hstep.
      destruct (IH w gc) as (g2 & -> & Hinv2 & Hgrows2 & Htail); [done..|].
      exists g2. split; [done|]. split; [done|]. split; [done|].
      intros use' node out' z0 [->|Hin]%elem_of_cons Hn Hout' Hz0; [|by eapply Htail].
      assert (node = node0) as -> by congruence.
      pose proof (substituted_value_forward ds g0 gc _ node0 nodec z0 Hinv Hn0 Hnc Hz0).
      congruence.
Qed.

Lemma substitution_inv_substituted ds g0 g' id node out z :
  substitution_inv ds g0 g' → Graph_wf g0 = true →
  find_node g0 id = Some node → outputs node = [out] →
  substituted_value g0 ds node = Some z →
  Value_uses g' out = [] →
  substituted g0 g' out (IV_Int z).
Proof.
  intros (_ & _ & _ & Hstate) Hwf Hn Hout Hz Hnone. split; [done|].
  destruct (find_node_elem_of _ _ _ Hn) as [Helem _].
  assert (Hin : out ∈ outputs node) by (rewrite Hout; apply list_elem_of_here).
  pose proof (output_below _ _ _ Hwf Helem Hin) as Hlt.
  intros use Huse.
  destruct (Hstate out Hlt) as [Hsame|(_ & z' & c & _ & Hval & Huses & Hpres)].
  - rewrite <- Hsame, Hnone in Huse. by apply not_elem_of_nil in Huse.
  - rewrite (Hpres id node z Hn Hin Hz) in Hval.
    exists c. split; [done|]. by rewrite Huses.
Qed.

(** X11.  Property substitution on a tracked input, as a whole.  On a
    well-formed program in SSA form, [substituteTensorProperties] returns and
    leaves such a program, in which every node, program input and old value
    is still there.  For every user of the program input that is an
    [aten::len], its result has no use left and each of its former uses now
    reads a constant equal to the rank; likewise for every
    [aten::__getitem__] user whose index was a constant in range of a
    dimension of known size, with that size. *)
Theorem substituteTensorProperties_substitutes
    self i w tl tid tg tnode tv ttype ds g x :
  node_ self = (tl, tid) →
  heap w !! tl = Some tg →
  find_node tg tid = Some tnode →
  inputs tnode !! i = Some tv →
  Value_type tg tv = TensorT ttype →
  symbolic_sizes ttype = Some ds →
  heap w !! graph_ self = Some g →
  Graph_inputs g !! i = Some x →
  program_ok g →
  Z.of_nat (length ds) < 2 ^ 63 →
  let r := Z.of_nat (length ds) in
  ∃ g', substituteTensorProperties self i w
        = (Ok (), set_graph (graph_ self) g' w)
    ∧ program_ok g' ∧ grows g g'
    ∧ ∀ use node out,
        use ∈ Value_uses g x → find_node g (user use) = Some node →
        outputs node = [out] →
        (kind node = aten_len → substituted g g' out (IV_Int r))
        ∧ (kind node = aten___getitem__ →
           ∀ iv k size,
             inputs node !! 1%nat = Some iv → constant_as_int g iv = Some k →
             - 2 ^ 63 ≤ k < 2 ^ 63 →
             let k' := if k <? 0 then k + r else k in
             0 ≤ k' < r → ds !! Z.to_nat k' = Some (Some size) →
             substituted g g' out (IV_Int size)).
Proof.
  intros Hself Htg Hn Hin Hty Hds Hg Hx Hok Hr r.
  rewrite (substituteTensorProperties_loop self i w tl tid tg tnode tv ttype ds g x)
    by done.
  destruct (for_each_substitute_use_inv self ds g (Value_uses g x) w g)
    as (g' & Hrun & Hinv & Hgrows & Hdone).
  { done. }
  { by apply substitution_inv_refl. }
  { apply Forall_forall. intros use. apply Value_uses_user. }
  exists g'. split; [done|]. split; [apply Hinv|]. split; [done|].
  pose proof Hok as (Hwf & _).
  intros use node out Huse Hnode Hout.
  assert (Hsub : ∀ z, substituted_value g ds node = Some z →
                   substituted g g' out (IV_Int z)).
  { intros z Hz. apply (substitution_inv_substituted ds g g' (user use) node); try done.
    by apply (Hdone use node out z). }
  split.
  - intros Hk. apply Hsub. unfold substituted_value. rewrite Hk.
    by rewrite to_int64_small by lia.
  - intros Hk iv k size Hiv Hc Hkr k' Hrange Hsize. apply Hsub.
    unfold substituted_value. rewrite Hk, Hiv, Hc, normIndex_spec by lia.
    fold r. cbv zeta. fold k'.
    destruct (Z.leb_spec 0 k'); [|lia]. destruct (Z.ltb_spec k' r); [|lia].
    simpl. by rewrite Hsize.
Qed.

(** ** The constructor as a whole *)

(** One step of the loop of the constructor, by the constant of the
    position. *)
Lemma specialize_input_effect l tl tid tg tnode i indices w g x :
  heap w !! tl = Some tg → find_node tg tid = Some tnode →
  heap w !! l = Some g →
  (i < length (inputs tnode))%nat → Graph_inputs g !! i = Some x →
  tensor_list_at tg tnode i = false →
  specialize_input l (tl, tid) i indices w
  = (Ok (indices ++ (if tracked_at tg tnode i then [i] else [])),
     match specialized_value tg tnode i with
     | Some val => set_graph l (replace_by_constant x val g) w
     | None => w
     end).
Proof.
  intros Htg Hn Hg Hi Hx.
  destruct (lookup_lt_is_Some_2 (inputs tnode) i Hi) as [tv Hin].
  unfold tensor_list_at, tracked_at, specialized_value. rewrite Hin.
  intros Htl. unfold specialize_input.
  rewrite (bind_Ok _ _ _ _ _ (Node_input_run _ _ _ _ _ _ _ Htg Hn Hin)).
  rewrite (bind_Ok _ _ _ _ _ (type_of_run _ _ _ _ Htg)).
  assert (Hreplace : ∀ val,
    (gi ← Graph_input_at l i; replaceWithIValue gi val;; mret indices) w
    = (Ok (indices ++ []), set_graph l (replace_by_constant x val g) w)).
  { intros val.
    rewrite (bind_Ok _ _ _ _ _ (Graph_input_at_run _ _ _ _ _ Hg Hx)).
    rewrite (bind_Ok _ _ _ _ _ (replaceWithIValue_run _ _ _ _ _ Hg)).
    by rewrite app_nil_r. }
  assert (Hconst :
    (g0 ← get_graph tl;
     match toIValue g0 tv with
     | Some ival => gi ← Graph_input_at l i; replaceWithIValue gi ival;; mret indices
     | None => mret indices
     end) w
    = (Ok (indices ++ []),
       match toIValue tg tv with
       | Some val => set_graph l (replace_by_constant x val g) w
       | None => w
       end)).
  { rewrite (bind_Ok _ _ _ _ _ (get_graph_Some _ _ _ Htg)).
    destruct (toIValue tg tv); [apply Hreplace|]. by rewrite app_nil_r. }
  unfold is_tracked.
  destruct (Value_type tg tv) as [ttype|elem| | | |] eqn:Hty; simpl.
  - destruct (isComplete (symbolic_sizes ttype)) eqn:Hc; simpl.
    + destruct (isComplete_concrete_sizes _ Hc) as (sizes & _ & Hcs).
      rewrite (bind_Ok _ _ _ _ _ (Graph_input_at_run _ _ _ _ _ Hg Hx)).
      rewrite Hcs. simpl value_of. rewrite (bind_Ok _ _ w sizes w) by done.
      rewrite (bind_Ok _ _ _ _ _ (replaceWithIValue_run _ _ _ _ _ Hg)).
      by rewrite app_nil_r.
    + destruct (bool_decide (is_Some (rank (symbolic_sizes ttype)))); [done|].
      by rewrite app_nil_r.
  - destruct elem; simpl in *; first [done | apply Hconst].
  - apply Hconst.
  - apply Hconst.
  - apply Hconst.
  - apply Hconst.
Qed.

Lemma Graph_inputs_NoDup g : outputs_unique g = true → NoDup (Graph_inputs g).
Proof.
  unfold outputs_unique, all_nodes, Graph_inputs. rewrite bool_decide_eq_true.
  simpl. by intros (? & _)%NoDup_app.
Qed.

Lemma specialization_inv_refl tg tnode sg :
  program_ok sg → specialization_inv tg tnode sg sg.
Proof.
  intros Hok. split; [done|]. split; [apply grows_refl|]. intros j x _. by left.
Qed.

(** A step that specializes keeps the invariant. *)
Lemma specialization_inv_step tg tnode sg gc i x val :
  program_ok sg → specialization_inv tg tnode sg gc →
  Graph_inputs sg !! i = Some x → specialized_value tg tnode i = Some val →
  specialization_inv tg tnode sg (replace_by_constant x val gc).
Proof.
  intros (Hwf0 & _ & Huniq0) (Hok & Hgrows & Hstate) Hx Hval.
  pose proof Hok as (Hwf & _).
  pose proof Hgrows as (_ & _ & Hnext & _).
  pose proof (Graph_input_below _ _ _ Hwf0 Hx) as Hlt0.
  assert (Hlt : (x < next_unique gc)%nat) by lia.
  destruct (replace_by_constant_uses x val gc Hwf Hlt) as (Hu_x & Hu_c & Hu_other).
  split; [by apply program_ok_replace_by_constant|].
  split; [eapply grows_trans; [done|by apply grows_replace_by_constant]|].
  intros j y Hy. rewrite next_unique_replace_by_constant.
  pose proof (Graph_input_below _ _ _ Hwf0 Hy) as Hylt.
  destruct (Hstate j y Hy) as [Hsame|(Hnone & c & val' & Hval' & Hc & Hcv & Huses)].
  - destruct (decide (y = x)) as [->|Hne].
    + right. split; [done|]. exists (next_unique gc), val.
      assert (j = i) as ->
        by (by eapply NoDup_lookup; [apply Graph_inputs_NoDup|..]).
      split; [done|]. split; [lia|].
      split; [apply toIValue_replace_by_constant|congruence].
    + left. rewrite Hu_other; [done..|lia].
  - right. split.
    + destruct (decide (y = x)) as [->|Hne]; [done|].
      rewrite Hu_other; [done..|lia].
    + exists c, val'. split; [done|]. split; [lia|]. split.
      * rewrite toIValue_replace_by_constant_other; [done|lia].
      * rewrite Hu_other; [done|lia..].
Qed.

(** The loop of the constructor: it returns the tracked positions, keeps the
    invariant, only makes the program grow, and leaves no use of a program
    input it had to specialize. *)
Lemma for_fold_specialize_inv l tl tid tg tnode sg positions :
  l ≠ tl → find_node tg tid = Some tnode → program_ok sg →
  (length (inputs tnode) ≤ length (Graph_inputs sg))%nat →
  Forall (λ i, (i < length (inputs tnode))%nat
               ∧ tensor_list_at tg tnode i = false) positions →
  ∀ indices w gc,
    heap w !! tl = Some tg → heap w !! l = Some gc →
    specialization_inv tg tnode sg gc →
    ∃ g', for_fold positions indices (specialize_input l (tl, tid)) w
          = (Ok (indices ++ filter (λ i, tracked_at tg tnode i = true) positions),
             set_graph l g' w)
      ∧ specialization_inv tg tnode sg g' ∧ grows gc g'
      ∧ ∀ i x, i ∈ positions → Graph_inputs sg !! i = Some x →
          is_Some (specialized_value tg tnode i) → Value_uses g' x = [].
Proof.
  intros Hne Hn Hok0 Hlen Hpos.
  induction Hpos as [|i positions [Hi Htl] Hpos IH]; intros indices w gc Htg Hg Hinv.
  - exists gc. simpl. rewrite set_graph_same, app_nil_r by done.
    split; [done|]. split; [done|]. split; [apply grows_refl|].
    by intros ? ? ?%not_elem_of_nil.
  - pose proof Hinv as (Hok & Hgrows & _).
    pose proof Hgrows as (Hinputs & _).
    destruct (lookup_lt_is_Some_2 (Graph_inputs sg) i) as [x Hx]; [lia|].
    assert (Hxc : Graph_inputs gc !! i = Some x) by (by rewrite Hinputs).
    simpl. rewrite bind_run.
    rewrite (specialize_input_effect l tl tid tg tnode i indices w gc x) by done.
    set (indices' := indices ++ (if tracked_at tg tnode i then [i] else [])).
    assert (Hfilter : indices' ++ filter (λ i, tracked_at tg tnode i = true) positions
                      = indices ++ filter (λ i, tracked_at tg tnode i = true)
                                     (i :: positions)).
    { unfold indices'. rewrite filter_cons, <- app_assoc. f_equal.
      destruct (tracked_at tg tnode i); case_decide; done. }
    destruct (specialized_value tg tnode i) as [val|] eqn:Hval.
    + set (g1 := replace_by_constant x val gc).
      assert (Hinv1 : specialization_inv tg tnode sg g1)
        by (by eapply specialization_inv_step).
      pose proof Hok0 as (Hwf0 & _). pose proof Hok as (Hwf & _).
      pose proof (Graph_input_below _ _ _ Hwf Hxc) as Hlt.
      destruct (IH indices' (set_graph l g1 w) g1)
        as (g2 & -> & Hinv2 & Hgrows2 & Htail).
      { by rewrite heap_set_graph_ne. }
      { apply heap_set_graph. }
      { done. }
      exists g2. rewrite set_graph_twice, Hfilter. split; [done|]. split; [done|].
      split; [eapply grows_trans; [by apply grows_replace_by_constant|done]|].
      intros i' x' [->|Hin]%elem_of_cons Hx' Hsome; [|by eapply Htail].
      assert (x' = x) as -> by congruence.
      destruct Hgrows2 as (_ & _ & _ & _ & _ & Hempty).
      apply Hempty.
      * unfold g1. rewrite next_unique_replace_by_constant. lia.
      * by apply replace_by_constant_uses.
    + destruct (IH indices' w gc) as (g2 & -> & Hinv2 & Hgrows2 & Htail); [done..|].
      exists g2. rewrite Hfilter. split; [done|]. split; [done|]. split; [done|].
      intros i' x' [->|Hin]%elem_of_cons Hx' Hsome; [|by eapply Htail].
      rewrite Hval in Hsome. by destruct Hsome.
Qed.

(** C3.  The constructor treats every input position on its own.  It is
    the loop over the input positions of the node, in order, on a fresh
    copy of the shape compute graph; the analyzer holds the positions the
    loop tracked, and when the loop throws the copy is destroyed.  The
    positions it tracks are, in order, those whose input is a tensor of
    known rank without a complete shape.  On a well-formed shape program in
    SSA form with a program input for every input of the node, and without
    an input that is a list of tensors, the constructor returns, and in its
    copy: program input [i] of a tensor input with a complete shape has no
    use left, each former use reading the constant list of the sizes;
    program input [i] of a tensor of incomplete shape (tracked when the rank
    is known, left symbolic when it is not) has the uses it had; program
    input [i] of an input that is no tensor and whose value is a known
    constant has no use left, each former use reading that constant, and it
    has the uses it had when the value is not known.  At position [i], in
    any state of the loop: a tensor with a complete shape has program input
    [i] replaced by the constant list of its sizes and is not tracked; a
    tensor of known rank and incomplete shape is tracked and the program is
    not touched; a tensor of unknown rank changes nothing; an input that is
    neither a tensor nor a list of tensors and whose value is a known
    constant has program input [i] replaced by that constant, and changes
    nothing when its value is not known. *)
Theorem SymbolicShapeAnalyzer_new_specializes tl tid scg w tg tnode :
  heap w !! tl = Some tg →
  find_node tg tid = Some tnode →
  (∀ sg, heap w !! scg = Some sg →
     ∃ l, heap w !! l = None ∧
       SymbolicShapeAnalyzer_new (tl, tid) scg w =
       match for_fold (seq 0 (length (inputs tnode))) []
                      (specialize_input l (tl, tid))
                      (set_graph l (Graph_copy sg) w) with
       | (Ok indices, w') =>
           (Ok {| node_input_tensor_indices := indices;
                  graph_ := l; node_ := (tl, tid) |}, w')
       | (Throw e, _) => (Throw e, w)
       end)
  ∧ (∀ self w',
       SymbolicShapeAnalyzer_new (tl, tid) scg w = (Ok self, w') →
       node_input_tensor_indices self =
       filter (λ i, tracked_at tg tnode i = true) (seq 0 (length (inputs tnode))))
  ∧ (∀ sg, heap w !! scg = Some sg →
       program_ok sg →
       (length (inputs tnode) ≤ length (Graph_inputs sg))%nat →
       existsb (tensor_list_at tg tnode) (seq 0 (length (inputs tnode))) = false →
       ∃ l g', heap w !! l = None ∧
         SymbolicShapeAnalyzer_new (tl, tid) scg w =
         (Ok {| node_input_tensor_indices :=
                  filter (λ i, tracked_at tg tnode i = true)
                         (seq 0 (length (inputs tnode)));
                graph_ := l; node_ := (tl, tid) |},
          set_graph l g' w)
         ∧ ∀ i tv x, inputs tnode !! i = Some tv → Graph_inputs sg !! i = Some x →
             (∀ ttype, Value_type tg tv = TensorT ttype →
                isComplete (symbolic_sizes ttype) = true →
                ∃ sizes, symbolic_sizes ttype = Some (Some <$> sizes) ∧
                  substituted sg g' x (IV_IntList sizes))
             ∧ (∀ ttype, Value_type tg tv = TensorT ttype →
                isComplete (symbolic_sizes ttype) = false →
                Value_uses g' x = Value_uses sg x)
             ∧ (∀ val, (∀ ttype, Value_type tg tv ≠ TensorT ttype) →
                toIValue tg tv = Some val →
                substituted sg g' x val)
             ∧ ((∀ ttype, Value_type tg tv ≠ TensorT ttype) →
                toIValue tg tv = None →
                Value_uses g' x = Value_uses sg x))
  ∧ ∀ l i indices w1 g tv x,
      heap w1 !! tl = Some tg →
      heap w1 !! l = Some g →
      Graph_wf g = true →
      inputs tnode !! i = Some tv →
      Graph_inputs g !! i = Some x →
      let step := specialize_input l (tl, tid) i indices w1 in
      (∀ ttype, Value_type tg tv = TensorT ttype →
         isComplete (symbolic_sizes ttype) = true →
         ∃ sizes g', symbolic_sizes ttype = Some (Some <$> sizes) ∧
           step = (Ok indices, set_graph l g' w1) ∧
           replaced_by_constant g g' x (IV_IntList sizes))
      ∧ (∀ ttype, Value_type tg tv = TensorT ttype →
         isComplete (symbolic_sizes ttype) = false →
         is_Some (rank (symbolic_sizes ttype)) →
         step = (Ok (indices ++ [i]), w1))
      ∧ (∀ ttype, Value_type tg tv = TensorT ttype →
         rank (symbolic_sizes ttype) = None →
         step = (Ok indices, w1))
      ∧ (∀ val, (∀ ttype, Value_type tg tv ≠ TensorT ttype) →
         is_tensor_list (Value_type tg tv) = false →
         toIValue tg tv = Some val →
         ∃ g', step = (Ok indices, set_graph l g' w1) ∧
               replaced_by_constant g g' x val)
      ∧ ((∀ ttype, Value_type tg tv ≠ TensorT ttype) →
         is_tensor_list (Value_type tg tv) = false →
         toIValue tg tv = None →
         step = (Ok indices, w1)).
Proof.
  intros Htg Hn. split; [|split; [|split]].
  - intros sg Hsg. unfold SymbolicShapeAnalyzer_new.
    rewrite (bind_Ok _ _ _ _ _ (get_graph_Some _ _ _ Hsg)). rewrite bind_run.
    destruct (new_graph_fresh (Graph_copy sg) w) as (l & Hl & ->).
    assert (Hne : l ≠ tl) by congruence.
    exists l. split; [done|].
    unfold on_throw. rewrite bind_run.
    rewrite (Node_deref_run tl tid _ tg tnode)
      by (by rewrite ?heap_set_graph_ne).
    rewrite bind_run.
    destruct (for_fold_specialize_input l tl tid tg tnode
                (seq 0 (length (inputs tnode))) Hne Hn []
                (set_graph l (Graph_copy sg) w) (Graph_copy sg))
      as (r & g' & -> & _).
    { by rewrite heap_set_graph_ne. }
    { apply heap_set_graph. }
    destruct r as [indices|e]; [done|].
    by rewrite set_graph_twice, delete_new_graph.
  - intros self w'. unfold SymbolicShapeAnalyzer_new. rewrite bind_run.
    unfold get_graph at 1. destruct (heap w !! scg) as [sg|]; [|done].
    rewrite bind_run.
    destruct (new_graph_fresh (Graph_copy sg) w) as (l & Hl & ->).
    assert (Hne : l ≠ tl) by congruence.
    unfold on_throw. rewrite bind_run.
    rewrite (Node_deref_run tl tid _ tg tnode)
      by (by rewrite ?heap_set_graph_ne).
    rewrite bind_run.
    destruct (for_fold_specialize_input l tl tid tg tnode
                (seq 0 (length (inputs tnode))) Hne Hn []
                (set_graph l (Graph_copy sg) w) (Graph_copy sg))
      as (r & g' & -> & Hres).
    { by rewrite heap_set_graph_ne. }
    { apply heap_set_graph. }
    destruct r as [indices|e]; [|done].
    intros [= <- _]. simpl. by rewrite (Hres indices eq_refl).
  - intros sg Hsg Hok Hlen Hnolist. unfold SymbolicShapeAnalyzer_new.
    rewrite (bind_Ok _ _ _ _ _ (get_graph_Some _ _ _ Hsg)). rewrite bind_run.
    destruct (new_graph_fresh (Graph_copy sg) w) as (l & Hl & ->).
    assert (Hne : l ≠ tl) by congruence.
    unfold on_throw. rewrite bind_run.
    rewrite (Node_deref_run tl tid _ tg tnode) by (by rewrite ?heap_set_graph_ne).
    rewrite bind_run.
    assert (Hno : ∀ i, (i < length (inputs tnode))%nat →
              tensor_list_at tg tnode i = false).
    { intros i Hi. destruct (tensor_list_at tg tnode i) eqn:E; [|done].
      assert (existsb (tensor_list_at tg tnode) (seq 0 (length (inputs tnode))) = true)
        by (apply existsb_exists; exists i;
            split; [apply list_elem_of_In, elem_of_seq; lia|done]).
      congruence. }
    destruct (for_fold_specialize_inv l tl tid tg tnode sg
                (seq 0 (length (inputs tnode))) Hne Hn Hok Hlen) with
      (indices := @nil nat) (w := set_graph l (Graph_copy sg) w) (gc := Graph_copy sg)
      as (g' & -> & Hinv & _ & Hdone).
    { apply Forall_forall. intros i Hi%elem_of_seq. split; [lia|apply Hno; lia]. }
    { by rewrite heap_set_graph_ne. }
    { apply heap_set_graph. }
    { by apply specialization_inv_refl. }
    rewrite set_graph_twice. exists l, g'. split; [done|]. split; [done|].
    destruct Hinv as (_ & _ & Hstate).
    intros i tv x Hin Hx.
    assert (Hi : (i < length (inputs tnode))%nat) by (by eapply lookup_lt_Some).
    assert (Heffect : match specialized_value tg tnode i with
                      | Some val => substituted sg g' x val
                      | None => Value_uses g' x = Value_uses sg x
                      end).
    { destruct (Hstate i x Hx) as [Hsame|(Hnone & c & val & Hval & _ & Hcv & Huses)].
      - destruct (specialized_value tg tnode i) as [val|] eqn:Hval; [|done].
        assert (Hempty : Value_uses g' x = []).
        { apply (Hdone i x); [apply elem_of_seq; lia|done|by rewrite Hval]. }
        split; [done|]. intros use Huse. rewrite <- Hsame, Hempty in Huse.
        by apply not_elem_of_nil in Huse.
      - rewrite Hval. split; [done|]. intros use Huse. exists c. by rewrite Huses. }
    pose proof (Hno i Hi) as Htl.
    unfold tensor_list_at in Htl. unfold specialized_value in Heffect.
    rewrite Hin in Htl, Heffect.
    split; [|split; [|split]].
    + intros ttype Hty Hc. rewrite Hty, Hc in Heffect.
      destruct (isComplete_concrete_sizes _ Hc) as (sizes & Hs & Hcs).
      rewrite Hcs in Heffect. by exists sizes.
    + intros ttype Hty Hc. by rewrite Hty, Hc in Heffect.
    + intros val Hnt Hv.
      destruct (Value_type tg tv) as [ttype| | | | |];
        [by destruct (Hnt ttype)|..];
        rewrite ?Htl in Heffect; by rewrite Hv in Heffect.
    + intros Hnt Hv.
      destruct (Value_type tg tv) as [ttype| | | | |];
        [by destruct (Hnt ttype)|..];
        rewrite ?Htl in Heffect; by rewrite Hv in Heffect.
  - clear dependent w. intros l i indices w g tv x Htg Hg Hwf Hin Hx step.
    pose proof (Graph_input_below _ _ _ Hwf Hx) as Hlt.
    assert (Hstep : step =
      (type ← mret (Value_type tg tv);
       match type with
       | TensorT ttype =>
           let symbolic_shapes := symbolic_sizes ttype in
           if isComplete symbolic_shapes then
             gi ← Graph_input_at l i;
             sizes ← value_of (concrete_sizes ttype);
             replaceWithIValue gi (IV_IntList sizes);;
             mret indices
           else if bool_decide (is_Some (rank symbolic_shapes)) then
             mret (indices ++ [i])
           else mret indices
       | _ =>
           if is_tensor_list type then throw internal_assert_tensor_list
           else
             g0 ← get_graph tl;
             match toIValue g0 tv with
             | Some ival =>
                 gi ← Graph_input_at l i;
                 replaceWithIValue gi ival;;
                 mret indices
             | None => mret indices
             end
       end) w).
    { subst step. unfold specialize_input.
      rewrite (bind_Ok _ _ _ _ _ (Node_input_run _ _ _ _ _ _ _ Htg Hn Hin)).
      by rewrite (bind_Ok _ _ _ _ _ (type_of_run _ _ _ _ Htg)). }
    rewrite Hstep. clear Hstep. rewrite bind_run. simpl.
    assert (Hreplace : ∀ val,
      (gi ← Graph_input_at l i; replaceWithIValue gi val;; mret indices) w
      = (Ok indices, set_graph l (replace_by_constant x val g) w)).
    { intros val.
      rewrite (bind_Ok _ _ _ _ _ (Graph_input_at_run _ _ _ _ _ Hg Hx)).
      by rewrite (bind_Ok _ _ _ _ _ (replaceWithIValue_run _ _ _ _ _ Hg)). }
    repeat split.
    + intros ttype -> Hc. rewrite Hc.
      destruct (isComplete_concrete_sizes _ Hc) as (sizes & Hs & Hcs).
      exists sizes, (replace_by_constant x (IV_IntList sizes) g).
      split; [done|]. split; [|by apply replace_by_constant_spec].
      rewrite (bind_Ok _ _ _ _ _ (Graph_input_at_run _ _ _ _ _ Hg Hx)).
      rewrite Hcs. simpl value_of.
      rewrite (bind_Ok _ _ w sizes w) by done.
      by rewrite (bind_Ok _ _ _ _ _ (replaceWithIValue_run _ _ _ _ _ Hg)).
    + intros ttype -> Hc Hr. rewrite Hc.
      by rewrite bool_decide_eq_true_2.
    + intros ttype -> Hr.
      assert (Hc : isComplete (symbolic_sizes ttype) = false).
      { destruct (symbolic_sizes ttype); done. }
      rewrite Hc, Hr. by rewrite bool_decide_eq_false_2 by (by intros [? ?]).
    + intros val Hnt Hntl Hc.
      exists (replace_by_constant x val g).
      split; [|by apply replace_by_constant_spec].
      destruct (Value_type tg tv) as [ttype| | | | |] eqn:Hty;
        [by destruct (Hnt ttype)|..]; rewrite Hntl;
        rewrite (bind_Ok _ _ _ _ _ (get_graph_Some _ _ _ Htg)), Hc;
        apply Hreplace.
    + intros Hnt Hntl Hc.
      destruct (Value_type tg tv) as [ttype| | | | |] eqn:Hty;
        [by destruct (Hnt ttype)|..]; rewrite Hntl;
        by rewrite (bind_Ok _ _ _ _ _ (get_graph_Some _ _ _ Htg)), Hc.
Qed.

Lemma SymbolicShapeAnalyzer_new_specializes_witness :
  heap two_input_world !! 1%positive = Some two_input_graph ∧
  find_node two_input_graph 1 = Some two_input_node ∧
  heap two_input_world !! 2%positive = Some two_input_shape_program ∧
  program_ok two_input_shape_program ∧
  (length (inputs two_input_node)
   ≤ length (Graph_inputs two_input_shape_program))%nat ∧
  existsb (tensor_list_at two_input_graph two_input_node)
          (seq 0 (length (inputs two_input_node))) = false ∧
  ∃ l g', heap two_input_world !! l = None ∧
    SymbolicShapeAnalyzer_new (1%positive, 1%nat) 2%positive two_input_world =
    (Ok {| node_input_tensor_indices :=
             filter (λ i, tracked_at two_input_graph two_input_node i = true)
                    (seq 0 (length (inputs two_input_node)));
           graph_ := l; node_ := (1%positive, 1%nat) |},
     set_graph l g' two_input_world)
    ∧ (∃ sizes, Some [Some 2; Some 3] = Some (Some <$> sizes) ∧
         substituted two_input_shape_program g' 0%nat (IV_IntList sizes))
    ∧ Value_uses g' 1%nat = Value_uses two_input_shape_program 1%nat.
Proof.
  assert (H1 : heap two_input_world !! 1%positive = Some two_input_graph)
    by reflexivity.
  assert (H2 : find_node two_input_graph 1 = Some two_input_node) by reflexivity.
  assert (H3 : heap two_input_world !! 2%positive = Some two_input_shape_program)
    by reflexivity.
  assert (H4 : program_ok two_input_shape_program)
    by (repeat split; vm_compute; reflexivity).
  assert (H5 : (length (inputs two_input_node)
                ≤ length (Graph_inputs two_input_shape_program))%nat)
    by (simpl; lia).
  assert (H6 : existsb (tensor_list_at two_input_graph two_input_node)
                       (seq 0 (length (inputs two_input_node))) = false)
    by reflexivity.
  repeat (split; [assumption|]).
  destruct (proj1 (proj2 (proj2 (SymbolicShapeAnalyzer_new_specializes
              1%positive 1%nat 2%positive two_input_world two_input_graph
              two_input_node H1 H2))) two_input_shape_program H3 H4 H5 H6)
    as (l & g' & Hl & Hrun & Heffect).
  exists l, g'. split; [exact Hl|]. split; [exact Hrun|]. split.
  - exact (proj1 (Heffect 0%nat 0%nat 0%nat eq_refl eq_refl)
             (mkTensorType (Some [Some 2; Some 3]) (Some "Float") None None)
             eq_refl eq_refl).
  - exact (proj1 (proj2 (Heffect 1%nat 1%nat 1%nat eq_refl eq_refl))
             (mkTensorType (Some [None; Some 5]) (Some "Float") None None)
             eq_refl eq_refl).
Defined.

(** X12.  The constructor as a whole.  Given a shape compute graph that is
    a well-formed program in SSA form with a program input for every input
    of the node, and no input of the node that is a list of tensors, the
    constructor returns an analyzer on a fresh copy, which is again such a
    program and has every node, program input and old value of the shape
    compute graph.  In the copy a program input whose node input is a
    tensor of complete shape or a known constant has no use left, each of
    its former uses reading a constant of that value; every other program
    input has exactly the uses it had. *)
Theorem constructor_substitutes_known_inputs tl tid scg w tg tnode sg :
  heap w !! tl = Some tg →
  find_node tg tid = Some tnode →
  heap w !! scg = Some sg →
  program_ok sg →
  (length (inputs tnode) ≤ length (Graph_inputs sg))%nat →
  existsb (tensor_list_at tg tnode) (seq 0 (length (inputs tnode))) = false →
  ∃ l g', heap w !! l = None ∧
    SymbolicShapeAnalyzer_new (tl, tid) scg w =
    (Ok {| node_input_tensor_indices :=
             filter (λ i, tracked_at tg tnode i = true)
                    (seq 0 (length (inputs tnode)));
           graph_ := l; node_ := (tl, tid) |},
     set_graph l g' w)
    ∧ program_ok g' ∧ grows sg g'
    ∧ ∀ i x, Graph_inputs sg !! i = Some x →
        match specialized_value tg tnode i with
        | Some val => substituted sg g' x val
        | None => Value_uses g' x = Value_uses sg x
        end.
Proof.
  intros Htg Hn Hsg Hok Hlen Hnolist. unfold SymbolicShapeAnalyzer_new.
  rewrite (bind_Ok _ _ _ _ _ (get_graph_Some _ _ _ Hsg)). rewrite bind_run.
  destruct (new_graph_fresh (Graph_copy sg) w) as (l & Hl & ->).
  assert (Hne : l ≠ tl) by congruence.
  unfold on_throw. rewrite bind_run.
  rewrite (Node_deref_run tl tid _ tg tnode) by (by rewrite ?heap_set_graph_ne).
  rewrite bind_run.
  destruct (for_fold_specialize_inv l tl tid tg tnode sg
              (seq 0 (length (inputs tnode))) Hne Hn Hok Hlen) with
    (indices := @nil nat) (w := set_graph l (Graph_copy sg) w) (gc := Graph_copy sg)
    as (g' & -> & Hinv & Hgrows & Hdone).
  { apply Forall_forall. intros i Hi. split; [apply elem_of_seq in Hi; lia|].
    destruct (tensor_list_at tg tnode i) eqn:E; [|done].
    assert (existsb (tensor_list_at tg tnode) (seq 0 (length (inputs tnode))) = true)
      by (apply existsb_exists; exists i; split; [by apply list_elem_of_In|done]).
    congruence. }
  { by rewrite heap_set_graph_ne. }
  { apply heap_set_graph. }
  { by apply specialization_inv_refl. }
  rewrite set_graph_twice. exists l, g'. split; [done|]. split; [done|].
  destruct Hinv as (Hok' & _ & Hstate). split; [done|]. split; [done|].
  intros i x Hx.
  destruct (Hstate i x Hx) as [Hsame|(Hnone & c & val & Hval & _ & Hcv & Huses)].
  - destruct (specialized_value tg tnode i) as [val|] eqn:Hval; [|done].
    assert (Hempty : Value_uses g' x = []).
    { apply (Hdone i x); [|done|by rewrite Hval].
      apply elem_of_seq. unfold specialized_value in Hval.
      destruct (inputs tnode !! i) eqn:Hin; [|done].
      apply lookup_lt_Some in Hin. lia. }
    split; [done|]. intros use Huse. rewrite <- Hsame, Hempty in Huse.
    by apply not_elem_of_nil in Huse.
  - rewrite Hval. split; [done|]. intros use Huse. exists c. by rewrite Huses.
Qed.

Lemma substituteTensorProperties_grows self i tl tid tg tnode w g :
  node_ self = (tl, tid) →
  heap w !! tl = Some tg → find_node tg tid = Some tnode →
  tracked_at tg tnode i = true →
  heap w !! graph_ self = Some g →
  program_ok g → (length (inputs tnode) ≤ length (Graph_inputs g))%nat →
  ∃ g', substituteTensorProperties self i w = (Ok (), set_graph (graph_ self) g' w)
        ∧ program_ok g' ∧ grows g g'.
Proof.
  intros Hself Htg Hn Htr Hg Hok Hlen.
  destruct (tracked_at_inv _ _ _ Htr) as (tv & ttype & ds & Hin & Hty & Hds).
  destruct (lookup_lt_is_Some_2 (Graph_inputs g) i) as [x Hx].
  { apply lookup_lt_Some in Hin. lia. }
  rewrite (substituteTensorProperties_loop self i w tl tid tg tnode tv ttype ds g x)
    by done.
  destruct (for_each_substitute_use_inv self ds g (Value_uses g x) w g)
    as (g' & Hrun & Hinv & Hgrows & _).
  { done. }
  { by apply substitution_inv_refl. }
  { apply Forall_forall. intros use. apply Value_uses_user. }
  exists g'. split; [done|]. split; [apply Hinv|done].
Qed.

(** X13.  Property substitution over all tracked inputs.  On a well-formed
    program in SSA form with a program input for every input of the node,
    and tracked positions that hold tensors of known rank and incomplete
    shape, [substituteInputTensorProperties] returns, whatever the users of
    the program inputs are, and leaves such a program: no node is removed or
    changes its kind or its outputs, the program inputs and the number of
    program outputs are as before, every old value keeps its type and its
    constant, and a value without uses gets none. *)
Theorem substituteInputTensorProperties_only_grows self tl tid tg tnode w g :
  node_ self = (tl, tid) → graph_ self ≠ tl →
  heap w !! tl = Some tg → find_node tg tid = Some tnode →
  forallb (tracked_at tg tnode) (node_input_tensor_indices self) = true →
  heap w !! graph_ self = Some g →
  program_ok g → (length (inputs tnode) ≤ length (Graph_inputs g))%nat →
  ∃ g', substituteInputTensorProperties self w
        = (Ok (), set_graph (graph_ self) g' w)
    ∧ program_ok g' ∧ grows g g'.
Proof.
  intros Hself Hne Htg Hn Htracked Hg Hok Hlen.
  unfold substituteInputTensorProperties.
  revert w g Htg Hg Hok Hlen.
  induction (node_input_tensor_indices self) as [|i indices IH];
    intros w g Htg Hg Hok Hlen.
  - exists g. simpl. rewrite set_graph_same by done.
    split; [done|]. split; [done|apply grows_refl].
  - simpl in Htracked. apply andb_true_iff in Htracked as [Hi Hrest].
    simpl. rewrite bind_run.
    destruct (substituteTensorProperties_grows self i tl tid tg tnode w g)
      as (g1 & -> & Hok1 & Hgrows1); [done..|].
    destruct (IH Hrest (set_graph (graph_ self) g1 w) g1)
      as (g2 & -> & Hok2 & Hgrows2).
    { by rewrite heap_set_graph_ne. }
    { apply heap_set_graph. }
    { done. }
    { destruct Hgrows1 as (-> & _). done. }
    exists g2. rewrite set_graph_twice. split; [done|]. split; [done|].
    by eapply grows_trans.
Qed.

(** X14.  [replaceWithIValue] on a well-formed program in SSA form.  It
    returns and leaves such a program with every node, program input and old
    value still there; the value has no use left and each of its former uses
    reads a constant of the given value; every other old value has exactly
    the uses it had; and the new constant is the first node of the block of
    the node that defined the value. *)
Theorem replaceWithIValue_keeps_program l v val w g :
  heap w !! l = Some g → program_ok g → (v < next_unique g)%nat →
  ∃ g', replaceWithIValue (l, v) val w = (Ok (), set_graph l g' w)
    ∧ program_ok g' ∧ grows g g' ∧ substituted g g' v val
    ∧ (∀ x, x ≠ v → (x < next_unique g)%nat → Value_uses g' x = Value_uses g x)
    ∧ ∃ cnode c,
        head (filter (λ n, owningBlock n = owningBlock (Value_node g v)) (body g'))
        = Some cnode
        ∧ kind cnode = prim_Constant ∧ const_value cnode = Some val
        ∧ outputs cnode = [c] ∧ Value_uses g' c = Value_uses g v.
Proof.
  intros Hg Hok Hv. pose proof Hok as (Hwf & _).
  destruct (replace_by_constant_uses v val g Hwf Hv) as (Hu_v & Hu_c & Hu_other).
  exists (replace_by_constant v val g).
  split; [by apply replaceWithIValue_run|].
  split; [by apply program_ok_replace_by_constant|].
  split; [by apply grows_replace_by_constant|].
  split; [|split].
  - split; [done|]. intros use Huse. exists (next_unique g).
    split; [apply toIValue_replace_by_constant|by rewrite Hu_c].
  - intros x Hxv Hx. apply Hu_other; [done|lia].
  - eexists _, (next_unique g). split.
    + unfold replace_by_constant. simpl. by rewrite filter_cons_True.
    + done.
Qed.

Lemma specialize_input_missing_program_input_witness :
  heap no_input_world !! 1%positive = Some example_graph ∧
  find_node example_graph 1 = Some example_node ∧
  inputs example_node !! 0%nat = Some 0%nat ∧
  heap no_input_world !! 2%positive = Some no_input_shape_program ∧
  Graph_inputs no_input_shape_program !! 0%nat = None ∧
  specialize_input 2%positive (1%positive, 1%nat) 0 [] no_input_world
  = (Ok [0%nat], no_input_world).
Proof.
  assert (H1 : heap no_input_world !! 1%positive = Some example_graph) by reflexivity.
  assert (H2 : find_node example_graph 1 = Some example_node) by reflexivity.
  assert (H3 : inputs example_node !! 0%nat = Some 0%nat) by reflexivity.
  assert (H4 : heap no_input_world !! 2%positive = Some no_input_shape_program)
    by reflexivity.
  assert (H5 : Graph_inputs no_input_shape_program !! 0%nat = None) by reflexivity.
  repeat (split; [assumption|]).
  destruct (specialize_input_missing_program_input
              2%positive 1%positive 1%nat example_graph example_node 0%nat []
              no_input_world no_input_shape_program 0%nat H1 H2 H3 H4 H5)
    as [Htensor _].
  destruct (Htensor example_tensor eq_refl) as (_ & Htracked & _).
  apply Htracked; [reflexivity|by eexists].
Defined.

Lemma substituteTensorProperties_substitutes_witness :
  node_ example_analyzer = (1%positive, 1%nat) ∧
  heap example_world !! 1%positive = Some example_graph ∧
  find_node example_graph 1 = Some example_node ∧
  inputs example_node !! 0%nat = Some 0%nat ∧
  Value_type example_graph 0 = TensorT example_tensor ∧
  symbolic_sizes example_tensor = Some example_dims ∧
  heap example_world !! graph_ example_analyzer = Some example_shape_program ∧
  Graph_inputs example_shape_program !! 0%nat = Some 0%nat ∧
  program_ok example_shape_program ∧
  Z.of_nat (length example_dims) < 2 ^ 63 ∧
  ∃ g', substituteTensorProperties example_analyzer 0 example_world
        = (Ok (), set_graph (graph_ example_analyzer) g' example_world)
    ∧ substituted example_shape_program g' 10%nat (IV_Int 4)
    ∧ substituted example_shape_program g' 8%nat (IV_Int 7).
Proof.
  assert (H1 : node_ example_analyzer = (1%positive, 1%nat)) by reflexivity.
  assert (H2 : heap example_world !! 1%positive = Some example_graph) by reflexivity.
  assert (H3 : find_node example_graph 1 = Some example_node) by reflexivity.
  assert (H4 : inputs example_node !! 0%nat = Some 0%nat) by reflexivity.
  assert (H5 : Value_type example_graph 0 = TensorT example_tensor) by reflexivity.
  assert (H6 : symbolic_sizes example_tensor = Some example_dims) by reflexivity.
  assert (H7 : heap example_world !! graph_ example_analyzer
               = Some example_shape_program) by reflexivity.
  assert (H8 : Graph_inputs example_shape_program !! 0%nat = Some 0%nat) by reflexivity.
  assert (H9 : program_ok example_shape_program)
    by (repeat split; vm_compute; reflexivity).
  assert (H10 : Z.of_nat (length example_dims) < 2 ^ 63) by reflexivity.
  repeat (split; [assumption|]).
  destruct (substituteTensorProperties_substitutes
              example_analyzer 0 example_world 1%positive 1%nat example_graph
              example_node 0%nat example_tensor example_dims
              example_shape_program 0%nat H1 H2 H3 H4 H5 H6 H7 H8 H9 H10)
    as (g' & Hrun & _ & _ & Hsub).
  exists g'. split; [exact Hrun|]. split.
  - refine (proj1 (Hsub (mkUse 10 0) (mkNode 10 aten_len [0%nat] [10%nat] 0 None None)
                        10%nat _ _ _) _); try reflexivity.
    vm_compute. apply list_elem_of_In. simpl. tauto.
  - refine (proj2 (Hsub (mkUse 8 0)
                        (mkNode 8 aten___getitem__ [0; 7]%nat [8%nat] 0 None None)
                        8%nat _ _ _) _ 7%nat 3 7 _ _ _ _ _); try reflexivity.
    + vm_compute. apply list_elem_of_In. simpl. tauto.
    + lia.
    + simpl. lia.
Defined.

Lemma constructor_substitutes_known_inputs_witness :
  heap example_world !! 1%positive = Some example_graph ∧
  find_node example_graph 1 = Some example_node ∧
  heap example_world !! 2%positive = Some example_shape_program ∧
  program_ok example_shape_program ∧
  (length (inputs example_node) ≤ length (Graph_inputs example_shape_program))%nat ∧
  existsb (tensor_list_at example_graph example_node)
          (seq 0 (length (inputs example_node))) = false ∧
  ∃ l g', heap example_world !! l = None ∧
    SymbolicShapeAnalyzer_new (1%positive, 1%nat) 2%positive example_world =
    (Ok {| node_input_tensor_indices := [0%nat];
           graph_ := l; node_ := (1%positive, 1%nat) |},
     set_graph l g' example_world)
    ∧ Value_uses g' 0%nat = Value_uses example_shape_program 0%nat.
Proof.
  assert (H1 : heap example_world !! 1%positive = Some example_graph) by reflexivity.
  assert (H2 : find_node example_graph 1 = Some example_node) by reflexivity.
  assert (H3 : heap example_world !! 2%positive = Some example_shape_program)
    by reflexivity.
  assert (H4 : program_ok example_shape_program)
    by (repeat split; vm_compute; reflexivity).
  assert (H5 : (length (inputs example_node)
                ≤ length (Graph_inputs example_shape_program))%nat)
    by (simpl; lia).
  assert (H6 : existsb (tensor_list_at example_graph example_node)
                       (seq 0 (length (inputs example_node))) = false) by reflexivity.
  repeat (split; [assumption|]).
  destruct (constructor_substitutes_known_inputs
              1%positive 1%nat 2%positive example_world example_graph example_node
              example_shape_program H1 H2 H3 H4 H5 H6)
    as (l & g' & Hl & Hrun & _ & _ & Hin).
  exists l, g'. split; [exact Hl|]. split; [exact Hrun|].
  exact (Hin 0%nat 0%nat eq_refl).
Defined.

Lemma substituteInputTensorProperties_only_grows_witness :
  node_ example_analyzer = (1%positive, 1%nat) ∧
  graph_ example_analyzer ≠ 1%positive ∧
  heap example_world !! 1%positive = Some example_graph ∧
  find_node example_graph 1 = Some example_node ∧
  forallb (tracked_at example_graph example_node)
          (node_input_tensor_indices example_analyzer) = true ∧
  heap example_world !! graph_ example_analyzer = Some example_shape_program ∧
  program_ok example_shape_program ∧
  (length (inputs example_node) ≤ length (Graph_inputs example_shape_program))%nat ∧
  ∃ g', substituteInputTensorProperties example_analyzer example_world
        = (Ok (), set_graph (graph_ example_analyzer) g' example_world)
    ∧ program_ok g' ∧ grows example_shape_program g'.
Proof.
  assert (H1 : node_ example_analyzer = (1%positive, 1%nat)) by reflexivity.
  assert (H2 : graph_ example_analyzer ≠ 1%positive) by (simpl; lia).
  assert (H3 : heap example_world !! 1%positive = Some example_graph) by reflexivity.
  assert (H4 : find_node example_graph 1 = Some example_node) by reflexivity.
  assert (H5 : forallb (tracked_at example_graph example_node)
                       (node_input_tensor_indices example_analyzer) = true)
    by reflexivity.
  assert (H6 : heap example_world !! graph_ example_analyzer
               = Some example_shape_program) by reflexivity.
  assert (H7 : program_ok example_shape_program)
    by (repeat split; vm_compute; reflexivity).
  assert (H8 : (length (inputs example_node)
                ≤ length (Graph_inputs example_shape_program))%nat)
    by (simpl; lia).
  repeat (split; [assumption|]).
  exact (substituteInputTensorProperties_only_grows
           example_analyzer 1%positive 1%nat example_graph example_node
           example_world example_shape_program H1 H2 H3 H4 H5 H6 H7 H8).
Defined.

Lemma replaceWithIValue_keeps_program_witness :
  heap example_world !! 2%positive = Some example_shape_program ∧
  program_ok example_shape_program ∧
  (10 < next_unique example_shape_program)%nat ∧
  ∃ g', replaceWithIValue (2%positive, 10%nat) (IV_Int 4) example_world
        = (Ok (), set_graph 2%positive g' example_world)
    ∧ program_ok g' ∧ grows example_shape_program g'
    ∧ substituted example_shape_program g' 10%nat (IV_Int 4).
Proof.
  assert (H1 : heap example_world !! 2%positive = Some example_shape_program)
    by reflexivity.
  assert (H2 : program_ok example_shape_program)
    by (repeat split; vm_compute; reflexivity).
  assert (H3 : (10 < next_unique example_shape_program)%nat) by (simpl; lia).
  repeat (split; [assumption|]).
  destruct (replaceWithIValue_keeps_program
              2%positive 10%nat (IV_Int 4) example_world example_shape_program
              H1 H2 H3)
    as (g' & Hrun & Hok & Hgrows & Hsub & _).
  exists g'. done.
Defined.

(** The loop over the uses changes the use lists of results of
    [aten::len] and [aten::__getitem__] users only. *)
Lemma for_each_substitute_use_frame self ds g0 uses :
  ∀ w gc,
    heap w !! graph_ self = Some gc →
    program_ok gc → grows g0 gc →
    Forall (λ use, is_Some (find_node g0 (user use))) uses →
    ∃ g', for_each uses (substitute_use self ds) w
          = (Ok (), set_graph (graph_ self) g' w)
      ∧ ∀ y, (y < next_unique gc)%nat →
          (∀ use node, use ∈ uses → find_node g0 (user use) = Some node →
             kind node = aten_len ∨ kind node = aten___getitem__ →
             y ∉ outputs node) →
          Value_uses g' y = Value_uses gc y.
Proof.
  induction uses as [|use uses IH]; intros w gc Hg Hok Hgrows Huses.
  - exists gc. simpl. by rewrite set_graph_same.
  - apply Forall_cons in Huses as [[node0 Hn0] Huses].
    pose proof Hok as (Hwf & _).
    pose proof Hgrows as (_ & _ & _ & Hnodes & _).
    destruct (Hnodes _ _ Hn0) as (nodec & Hnc & Hkind & Houts & _).
    simpl. rewrite bind_run.
    pose proof (substitute_use_effect self ds use w gc nodec Hg Hwf Hnc) as Hstep.
    destruct (substituted_value gc ds nodec) as [z|] eqn:Hz.
    + destruct Hstep as (out & Hout & ->).
      set (g1 := replace_by_constant out (IV_Int z) gc).
      destruct (find_node_elem_of _ _ _ Hnc) as [Helem _].
      assert (Hlt : (out < next_unique gc)%nat).
      { apply (output_below gc nodec); [done..|]. rewrite Hout. apply list_elem_of_here. }
      destruct (replace_by_constant_uses out (IV_Int z) gc Hwf Hlt)
        as (_ & _ & Hu_other).
      destruct (IH (set_graph (graph_ self) g1 w) g1) as (g2 & -> & Hframe).
      { apply heap_set_graph. }
      { by apply program_ok_replace_by_constant. }
      { eapply grows_trans; [done|by apply grows_replace_by_constant]. }
      { done. }
      exists g2. rewrite set_graph_twice. split; [done|].
      intros y Hy Hnot.
      assert (Hne : y ≠ out).
      { intros ->. apply (Hnot use node0); [apply list_elem_of_here|done| |].
        - rewrite <- Hkind. unfold substituted_value in Hz.
          destruct (kind nodec); try done; first [by left | by right].
        - rewrite <- Houts, Hout. apply list_elem_of_here. }
      rewrite Hframe.
      * apply Hu_other; [done|lia].
      * unfold g1. rewrite next_unique_replace_by_constant. lia.
      * intros use' node Hin. apply Hnot. by apply list_elem_of_further.
    + rewrite Hstep.
      destruct (IH w gc) as (g2 & -> & Hframe); [done..|].
      exists g2. split; [done|]. intros y Hy Hnot. apply Hframe; [done|].
      intros use' node Hin. apply Hnot. by apply list_elem_of_further.
Qed.

(** X15.  What property substitution does not touch.  On a well-formed
    program in SSA form, [substituteTensorProperties] on a tracked input
    changes the uses of no value other than the results of the [aten::len]
    and [aten::__getitem__] nodes that use the program input: every other
    value of the program has exactly the uses it had, so the program input
    itself, and the operands of arithmetic on the sizes. *)
Theorem substituteTensorProperties_touches_results_only
    self i w tl tid tg tnode tv ttype ds g x :
  node_ self = (tl, tid) →
  heap w !! tl = Some tg →
  find_node tg tid = Some tnode →
  inputs tnode !! i = Some tv →
  Value_type tg tv = TensorT ttype →
  symbolic_sizes ttype = Some ds →
  heap w !! graph_ self = Some g →
  Graph_inputs g !! i = Some x →
  program_ok g →
  ∃ g', substituteTensorProperties self i w
        = (Ok (), set_graph (graph_ self) g' w)
    ∧ ∀ y, (y < next_unique g)%nat →
        (∀ use node, use ∈ Value_uses g x → find_node g (user use) = Some node →
           kind node = aten_len ∨ kind node = aten___getitem__ →
           y ∉ outputs node) →
        Value_uses g' y = Value_uses g y.
Proof.
  intros Hself Htg Hn Hin Hty Hds Hg Hx Hok.
  rewrite (substituteTensorProperties_loop self i w tl tid tg tnode tv ttype ds g x)
    by done.
  apply (for_each_substitute_use_frame self ds g (Value_uses g x) w g);
    [done|done|apply grows_refl|].
  apply Forall_forall. intros use. apply Value_uses_user.
Qed.

Lemma substituteTensorProperties_touches_results_only_witness :
  node_ example_analyzer = (1%positive, 1%nat) ∧
  heap example_world !! 1%positive = Some example_graph ∧
  find_node example_graph 1 = Some example_node ∧
  inputs example_node !! 0%nat = Some 0%nat ∧
  Value_type example_graph 0 = TensorT example_tensor ∧
  symbolic_sizes example_tensor = Some example_dims ∧
  heap example_world !! graph_ example_analyzer = Some example_shape_program ∧
  Graph_inputs example_shape_program !! 0%nat = Some 0%nat ∧
  program_ok example_shape_program ∧
  ∃ g', substituteTensorProperties example_analyzer 0 example_world
        = (Ok (), set_graph (graph_ example_analyzer) g' example_world)
    ∧ Value_uses g' 6%nat = Value_uses example_shape_program 6%nat.
Proof.
  assert (H1 : node_ example_analyzer = (1%positive, 1%nat)) by reflexivity.
  assert (H2 : heap example_world !! 1%positive = Some example_graph) by reflexivity.
  assert (H3 : find_node example_graph 1 = Some example_node) by reflexivity.
  assert (H4 : inputs example_node !! 0%nat = Some 0%nat) by reflexivity.
  assert (H5 : Value_type example_graph 0 = TensorT example_tensor) by reflexivity.
  assert (H6 : symbolic_sizes example_tensor = Some example_dims) by reflexivity.
  assert (H7 : heap example_world !! graph_ example_analyzer
               = Some example_shape_program) by reflexivity.
  assert (H8 : Graph_inputs example_shape_program !! 0%nat = Some 0%nat) by reflexivity.
  assert (H9 : program_ok example_shape_program)
    by (repeat split; vm_compute; reflexivity).
  repeat (split; [assumption|]).
  destruct (substituteTensorProperties_touches_results_only
              example_analyzer 0 example_world 1%positive 1%nat example_graph
              example_node 0%nat example_tensor example_dims
              example_shape_program 0%nat H1 H2 H3 H4 H5 H6 H7 H8 H9)
    as (g' & Hrun & Hframe).
  exists g'. split; [exact Hrun|]. apply Hframe; [simpl; lia|].
  intros use node Huse Hnode _.
  assert (Huses : Value_uses example_shape_program 0
                  = [mkUse 4 0; mkUse 8 0; mkUse 10 0]) by reflexivity.
  rewrite Huses in Huse.
  apply elem_of_cons in Huse as [->|Huse];
    [|apply elem_of_cons in Huse as [->|Huse];
      [|apply list_elem_of_singleton in Huse as ->]];
    vm_compute in Hnode; injection Hnode as <-; simpl;
    intros [=]%list_elem_of_singleton.
Defined.
